(** * CPU-scheduler: the scheduling engine and the metrics helper of [app.py]

    A shallow embedding of the six scheduling policies ([fcfs],
    [sjf_nonpreemptive], [sjf_preemptive], [round_robin],
    [priority_nonpreemptive], [priority_preemptive]), of
    [compute_metrics_from_gantt] and of the policy selection of [simulate],
    followed by the properties of the timelines they produce.

    Python integers are unbounded: they are [Z].  Python lists are [list];
    [append] adds at the tail.  A [while] loop is a body function iterated
    under a fuel bound; exceptions are explicit results. *)

From Stdlib Require Import List ZArith String Bool Lia Arith Permutation Sorted SpecFloat.
Import ListNotations.
Open Scope Z_scope.

Set Implicit Arguments.

(** ** Python runtime: results, exceptions, loops *)

Inductive exn :=
  ValueError | KeyError | IndexError | TypeError | ZeroDivisionError | OverflowError.

(** What a call produces: a value, an uncaught exception, or no answer
    within the fuel given to its loop. *)
Inductive outcome (A : Type) : Type :=
| Returned (a : A)
| Raised (e : exn)
| OutOfFuel.
Arguments Returned {A} a.
Arguments Raised {A} e.
Arguments OutOfFuel {A}.

Definition bind {A B} (m : outcome A) (k : A -> outcome B) : outcome B :=
  match m with
  | Returned a => k a
  | Raised e => Raised e
  | OutOfFuel => OutOfFuel
  end.

Notation "x <- m ;; k" := (bind m (fun x => k))
  (at level 61, m at next level, right associativity).
Notation "' pat <- m ;; k" := (bind m (fun x => match x with pat => k end))
  (at level 61, pat pattern, m at next level, right associativity).

(** One pass through the body of a [while] loop, guard included:
    [Next] goes round again ([continue] or the end of the body), [Stop] leaves
    the loop (the guard is false, or [break]) with the value returned after
    it, [Throw] is an uncaught exception. *)
Inductive flow (S R : Type) : Type :=
| Next (s : S)
| Stop (r : R)
| Throw (e : exn).
Arguments Next {S R} s.
Arguments Stop {S R} r.
Arguments Throw {S R} e.

Section While.
Variables S R : Type.
Variable body : S -> flow S R.

Fixpoint while_loop (fuel : nat) (s : S) : outcome R :=
  match fuel with
  | O => OutOfFuel
  | Datatypes.S fuel' =>
      match body s with
      | Next s' => while_loop fuel' s'
      | Stop r => Returned r
      | Throw e => Raised e
      end
  end.

(** The state after [n] passes, while the loop keeps going. *)
Fixpoint iterate (n : nat) (s : S) : option S :=
  match n with
  | O => Some s
  | Datatypes.S n' =>
      match body s with
      | Next s' => iterate n' s'
      | _ => None
      end
  end.
(** States at the head of the loop in the run that starts from [s0]. *)
Inductive reach (s0 : S) : S -> Prop :=
| reach_start : reach s0 s0
| reach_next s s' : reach s0 s -> body s = Next s' -> reach s0 s'.
End While.

(** ** Process dataclass *)

(** [oid] is the identity of the Python object (what [is] compares); the
    dataclass-generated [__eq__] compares the five fields. *)
Record Proc := mkProc {
  oid : nat;
  pid : string;
  arrival : Z;
  burst : Z;
  priority : Z;
  remaining : Z
}.

(** [Proc(pid, arrival, burst, priority)]: [__post_init__] sets
    [remaining = burst]. *)
Definition new_Proc (i : nat) (pid_ : string) (arrival_ burst_ priority_ : Z) : Proc :=
  mkProc i pid_ arrival_ burst_ priority_ burst_.

Definition set_remaining (p : Proc) (r : Z) : Proc :=
  mkProc (oid p) (pid p) (arrival p) (burst p) (priority p) r.

(** [p == q] *)
Definition Proc_eqb (p q : Proc) : bool :=
  String.eqb (pid p) (pid q) && (arrival p =? arrival q) && (burst p =? burst q)
  && (priority p =? priority q) && (remaining p =? remaining q).

(** [p is q] *)
Definition Proc_is (p q : Proc) : bool := Nat.eqb (oid p) (oid q).

(** [[Proc(p.pid, p.arrival, p.burst, p.priority) for p in procs]]: fresh
    objects, numbered from [i]. *)
Fixpoint copy_from (i : nat) (procs : list Proc) : list Proc :=
  match procs with
  | [] => []
  | p :: rest =>
      new_Proc i (pid p) (arrival p) (burst p) (priority p) :: copy_from (Datatypes.S i) rest
  end.

Definition copy_procs (procs : list Proc) : list Proc := copy_from 0 procs.

(** ** Timeline *)

Definition interval : Type := string * Z * Z.
Definition timeline : Type := list interval.

Definition actor (x : interval) : string := fst (fst x).
Definition i_start (x : interval) : Z := snd (fst x).
Definition i_end (x : interval) : Z := snd x.

Definition idle : string := "idle"%string.

(** ** Python list and tuple operations *)

(** [l.remove(x)]: drops the first element equal to [x]; [ValueError]
    ([None]) when there is none. *)
Fixpoint py_remove (x : Proc) (l : list Proc) : option (list Proc) :=
  match l with
  | [] => None
  | y :: l' =>
      if Proc_eqb y x then Some l'
      else match py_remove x l' with
           | Some r => Some (y :: r)
           | None => None
           end
  end.

(** [x in l] *)
Definition py_in (x : Proc) (l : list Proc) : bool := existsb (fun y => Proc_eqb y x) l.

(** Tuples of integers compare lexicographically. *)
Fixpoint tuple_ltb (a b : list Z) : bool :=
  match a, b with
  | [], [] => false
  | [], _ :: _ => true
  | _ :: _, [] => false
  | x :: a', y :: b' =>
      if x <? y then true else if y <? x then false else tuple_ltb a' b'
  end.

Section Sort.
Variable key : Proc -> list Z.

(** [x] comes from further left than every element of [s]: it goes before
    the first element whose key is not smaller, so equal keys keep their
    order (the sort is stable). *)
Fixpoint insert_sorted (x : Proc) (s : list Proc) : list Proc :=
  match s with
  | [] => [x]
  | y :: s' =>
      if tuple_ltb (key y) (key x) then y :: insert_sorted x s'
      else x :: y :: s'
  end.

(** [sorted(l, key=key)] and [l.sort(key=key)] *)
Fixpoint py_sort (l : list Proc) : list Proc :=
  match l with
  | [] => []
  | x :: l' => insert_sorted x (py_sort l')
  end.
End Sort.

(** [min(l, key=lambda x: x.arrival)]: the first element of least arrival;
    [ValueError] ([None]) on the empty list. *)
Definition py_min_arrival (l : list Proc) : option Proc :=
  match l with
  | [] => None
  | p :: rest =>
      Some (fold_left (fun m x => if arrival x <? arrival m then x else m) rest p)
  end.

(** ** Shared admission loop

    [for p in remaining[:]: if p.arrival <= time: ready.append(p); remaining.remove(p)]
    iterates over a snapshot of [remaining] while changing both lists. *)
Fixpoint admission_loop (time : Z) (snapshot ready remaining_ : list Proc)
  : option (list Proc * list Proc) :=
  match snapshot with
  | [] => Some (ready, remaining_)
  | p :: rest =>
      if arrival p <=? time then
        match py_remove p remaining_ with
        | Some remaining' => admission_loop time rest (ready ++ [p]) remaining'
        | None => None
        end
      else admission_loop time rest ready remaining_
  end.

Definition admission (time : Z) (ready remaining_ : list Proc) : option (list Proc * list Proc) :=
  admission_loop time remaining_ ready remaining_.

(** ** The policies *)

Definition nonempty {A} (l : list A) : bool :=
  match l with [] => false | _ :: _ => true end.

(** *** fcfs *)

Definition key_arrival (p : Proc) : list Z := [arrival p].

Definition fcfs_body (st : Z * timeline) (p : Proc) : Z * timeline :=
  let '(time, gantt) := st in
  let '(time, gantt) :=
    if time <? arrival p then (arrival p, gantt ++ [(idle, time, arrival p)])
    else (time, gantt) in
  let start := time in
  let end_ := time + burst p in
  (end_, gantt ++ [(pid p, start, end_)]).

Definition fcfs (procs : list Proc) : timeline :=
  snd (fold_left fcfs_body (py_sort key_arrival procs) (0, [])).

(** *** Loop state

    The local variables of the five [while] loops: [time], [gantt], [ready]
    ([queue] in [round_robin]), [remaining], and, in the preemptive loops,
    [current] with [interval_start].  The two are assigned together at every
    place but one (line 83 clears [interval_start] alone, and the next
    statements set it again before it is read), so they are one optional
    pair; it stays [None] in the loops that have no [current]. *)
Record loop_state := mkState {
  s_time : Z;
  s_gantt : timeline;
  s_ready : list Proc;
  s_remaining : list Proc;
  s_current : option (Proc * Z)
}.

Definition init_state (procs : list Proc) : loop_state :=
  mkState 0 [] [] procs None.

(** [nxt = min(remaining, key=lambda x: x.arrival).arrival;
     gantt.append(("idle", time, nxt)); time = nxt; continue] *)
Definition idle_jump (st : loop_state) (ready1 remaining1 : list Proc)
  : flow loop_state timeline :=
  match py_min_arrival remaining1 with
  | Some m =>
      let nxt := arrival m in
      Next (mkState nxt (s_gantt st ++ [(idle, s_time st, nxt)]) ready1 remaining1
              (s_current st))
  | None => Throw ValueError
  end.

(** *** sjf_nonpreemptive and priority_nonpreemptive

    The two loops differ in the sort key and in the way they reach the idle
    jump: [priority_nonpreemptive] tests [if remaining:] first and breaks
    otherwise ([guarded]), [sjf_nonpreemptive] calls [min] at once. *)
Definition key_sjf_np (p : Proc) : list Z := [burst p; arrival p].
Definition key_priority_np (p : Proc) : list Z := [priority p; arrival p].

Definition np_body (key : Proc -> list Z) (guarded : bool) (st : loop_state)
  : flow loop_state timeline :=
  if nonempty (s_remaining st) || nonempty (s_ready st) then
    match admission (s_time st) (s_ready st) (s_remaining st) with
    | None => Throw ValueError
    | Some (ready1, remaining1) =>
        if negb (nonempty ready1) then
          if guarded && negb (nonempty remaining1) then Stop (s_gantt st)
          else idle_jump st ready1 remaining1
        else
          match py_sort key ready1 with
          | [] => Throw IndexError
          | p :: ready2 =>
              let start := s_time st in
              let end_ := s_time st + burst p in
              Next (mkState end_ (s_gantt st ++ [(pid p, start, end_)]) ready2 remaining1
                      (s_current st))
          end
    end
  else Stop (s_gantt st).

Definition sjf_nonpreemptive (fuel : nat) (procs : list Proc) : outcome timeline :=
  while_loop (np_body key_sjf_np false) fuel (init_state (copy_procs procs)).

Definition priority_nonpreemptive (fuel : nat) (procs : list Proc) : outcome timeline :=
  while_loop (np_body key_priority_np true) fuel (init_state (copy_procs procs)).

(** *** sjf_preemptive and priority_preemptive *)
Definition key_sjf_p (p : Proc) : list Z := [remaining p; arrival p].
Definition key_priority_p (p : Proc) : list Z := [priority p; arrival p; remaining p].

Definition is_some {A} (o : option A) : bool :=
  match o with Some _ => true | None => false end.

Definition p_body (key : Proc -> list Z) (st : loop_state) : flow loop_state timeline :=
  if nonempty (s_remaining st) || nonempty (s_ready st) || is_some (s_current st) then
    match admission (s_time st) (s_ready st) (s_remaining st) with
    | None => Throw ValueError
    | Some (ready1, remaining1) =>
        let candidates :=
          ready1 ++ match s_current st with Some (c, _) => [c] | None => [] end in
        if negb (nonempty candidates) then
          if nonempty remaining1 then idle_jump st ready1 remaining1
          else Stop (s_gantt st)
        else
          match py_sort key candidates with
          | [] => Throw IndexError
          | chosen :: _ =>
              (* if current is not None and chosen.pid != current.pid: close *)
              let gantt1 :=
                match s_current st with
                | Some (c, istart) =>
                    if negb (String.eqb (pid chosen) (pid c))
                    then s_gantt st ++ [(pid c, istart, s_time st)]
                    else s_gantt st
                | None => s_gantt st
                end in
              (* if chosen in ready: ready.remove(chosen) *)
              match (if py_in chosen ready1 then py_remove chosen ready1 else Some ready1) with
              | None => Throw ValueError
              | Some ready2 =>
                  (* if chosen is not current: current = chosen; interval_start = time *)
                  let '(cur, istart) :=
                    match s_current st with
                    | Some (c, i) => if Proc_is chosen c then (c, i) else (chosen, s_time st)
                    | None => (chosen, s_time st)
                    end in
                  (* current.remaining -= 1; time += 1 *)
                  let cur' := set_remaining cur (remaining cur - 1) in
                  let time' := s_time st + 1 in
                  if remaining cur' =? 0 then
                    Next (mkState time' (gantt1 ++ [(pid cur', istart, time')]) ready2
                            remaining1 None)
                  else
                    Next (mkState time' gantt1 ready2 remaining1 (Some (cur', istart)))
              end
          end
    end
  else Stop (s_gantt st).

Definition sjf_preemptive (fuel : nat) (procs : list Proc) : outcome timeline :=
  while_loop (p_body key_sjf_p) fuel (init_state (copy_procs procs)).

Definition priority_preemptive (fuel : nat) (procs : list Proc) : outcome timeline :=
  while_loop (p_body key_priority_p) fuel (init_state (copy_procs procs)).

(** *** round_robin ([s_ready] is [queue]) *)
Definition rr_body (quantum : Z) (st : loop_state) : flow loop_state timeline :=
  if nonempty (s_remaining st) || nonempty (s_ready st) then
    match admission (s_time st) (s_ready st) (s_remaining st) with
    | None => Throw ValueError
    | Some (queue1, remaining1) =>
        match queue1 with
        | [] =>
            if nonempty remaining1 then idle_jump st queue1 remaining1
            else Stop (s_gantt st)
        | p :: queue2 =>
            if remaining p <=? 0 then
              Next (mkState (s_time st) (s_gantt st) queue2 remaining1 (s_current st))
            else
              let run := Z.min quantum (remaining p) in
              let start := s_time st in
              let end_ := s_time st + run in
              let gantt1 := s_gantt st ++ [(pid p, start, end_)] in
              let p' := set_remaining p (remaining p - run) in
              match admission end_ queue2 remaining1 with
              | None => Throw ValueError
              | Some (queue3, remaining2) =>
                  let queue4 := if remaining p' >? 0 then queue3 ++ [p'] else queue3 in
                  Next (mkState end_ gantt1 queue4 remaining2 (s_current st))
              end
        end
    end
  else Stop (s_gantt st).

Definition round_robin (fuel : nat) (procs : list Proc) (quantum : Z) : outcome timeline :=
  while_loop (rr_body quantum) fuel (init_state (copy_procs procs)).

(** ** Metrics helper *)

(** A descriptor dict [{'pid': .., 'arrival': .., 'burst': .., 'priority': ..}]. *)
Record Desc := mkDesc {
  d_pid : string;
  d_arrival : Z;
  d_burst : Z;
  d_priority : Z
}.

(** A Python dict keeps its keys in insertion order; assigning to a key that
    is present replaces the value where it stands. *)
Definition dict (V : Type) : Type := list (string * V).

Fixpoint dict_get {V} (k : string) (d : dict V) : option V :=
  match d with
  | [] => None
  | (k', v) :: d' => if String.eqb k' k then Some v else dict_get k d'
  end.

Fixpoint dict_set {V} (k : string) (v : V) (d : dict V) : dict V :=
  match d with
  | [] => [(k, v)]
  | (k', v') :: d' =>
      if String.eqb k' k then (k', v) :: d' else (k', v') :: dict_set k v d'
  end.

(** [d[k]] as an expression: [KeyError] when the key is absent. *)
Definition dict_item {V} (k : string) (d : dict V) : outcome V :=
  match dict_get k d with
  | Some v => Returned v
  | None => Raised KeyError
  end.

Record Info := mkInfo {
  i_arrival : Z;
  i_burst : Z;
  i_priority : Z
}.

Record Row := mkRow {
  r_pid : string;
  r_arrival : Z;
  r_burst : Z;
  r_start : option Z;
  r_completion : option Z;
  r_TAT : option Z;
  r_WT : option Z;
  r_RT : option Z;
  r_priority : Z
}.

(** A Python float is an IEEE 754 binary64 number: the Standard Library's
    [spec_float] at 53 bits of precision and exponent bound 1024. *)
Definition py_float : Type := spec_float.

(** The int [a] as the binary number [a * 2^0], not rounded. *)
Definition binary_of_int (a : Z) : spec_float :=
  match a with
  | Z0 => S754_zero false
  | Zpos m => S754_finite false m 0
  | Zneg m => S754_finite true m 0
  end.

(** [a / b] on ints: the quotient, rounded once to the nearest float (ties
    to even); [ZeroDivisionError] when [b] is 0, and [OverflowError]
    ("integer division result too large for a float") when the rounded
    quotient is beyond the largest float. *)
Definition py_truediv (a b : Z) : outcome py_float :=
  if b =? 0 then Raised ZeroDivisionError
  else
    match SFdiv 53 1024 (binary_of_int a) (binary_of_int b) with
    | S754_infinity _ => Raised OverflowError
    | q => Returned q
    end.

Record Avgs := mkAvgs {
  avg_tat : option py_float;
  avg_wt : option py_float;
  avg_rt : option py_float
}.

(** [{p['pid']: {...} for p in proc_desc}] *)
Definition build_info (proc_desc : list Desc) : dict Info :=
  fold_left
    (fun info p => dict_set (d_pid p) (mkInfo (d_arrival p) (d_burst p) (d_priority p)) info)
    proc_desc [].

(** [{pid: None for pid in info}] *)
Definition none_for {V} (info : dict V) : dict (option Z) :=
  fold_left (fun d kv => dict_set (fst kv) None d) info [].

(** [for pid, s, e in gantt: ...] *)
Fixpoint scan_gantt (gantt : timeline) (starts completions : dict (option Z))
  : outcome (dict (option Z) * dict (option Z)) :=
  match gantt with
  | [] => Returned (starts, completions)
  | (pid_, s, e) :: rest =>
      if String.eqb pid_ idle then scan_gantt rest starts completions
      else
        st <- dict_item pid_ starts ;;
        let starts' :=
          match st with
          | None => dict_set pid_ (Some s) starts
          | Some _ => starts
          end in
        scan_gantt rest starts' (dict_set pid_ (Some e) completions)
  end.

(** [for pid, d in info.items(): ...] *)
Fixpoint build_rows (items : dict Info) (starts completions : dict (option Z))
  : outcome (list Row) :=
  match items with
  | [] => Returned []
  | (pid_, d) :: rest =>
      st <- dict_item pid_ starts ;;
      row <-
        match st with
        | None =>
            Returned (mkRow pid_ (i_arrival d) (i_burst d) None None None None None
                        (i_priority d))
        | Some start =>
            co <- dict_item pid_ completions ;;
            match co with
            | None =>
                Returned (mkRow pid_ (i_arrival d) (i_burst d) None None None None None
                            (i_priority d))
            | Some completion =>
                let tat := completion - i_arrival d in
                let wt := tat - i_burst d in
                let rt := start - i_arrival d in
                Returned (mkRow pid_ (i_arrival d) (i_burst d) (Some start) (Some completion)
                            (Some tat) (Some wt) (Some rt) (i_priority d))
            end
        end ;;
      rows <- build_rows rest starts completions ;;
      Returned (row :: rows)
  end.

(** [sum(r[f] for r in completed)]: adding [None] is a [TypeError]. *)
Fixpoint py_sum (f : Row -> option Z) (rows : list Row) : outcome Z :=
  match rows with
  | [] => Returned 0
  | r :: rest =>
      match f r with
      | Some v => s <- py_sum f rest ;; Returned (v + s)
      | None => Raised TypeError
      end
  end.

(** [sum(r[f] for r in completed)/len(completed) if completed else None] *)
Definition average (f : Row -> option Z) (completed : list Row)
  : outcome (option py_float) :=
  if nonempty completed then
    s <- py_sum f completed ;;
    q <- py_truediv s (Z.of_nat (List.length completed)) ;;
    Returned (Some q)
  else Returned None.

Definition compute_metrics_from_gantt (proc_desc : list Desc) (gantt : timeline)
  : outcome (list Row * Avgs) :=
  let info := build_info proc_desc in
  let starts := none_for info in
  let completions := none_for info in
  '(starts, completions) <- scan_gantt gantt starts completions ;;
  rows <- build_rows info starts completions ;;
  let completed := filter (fun r => is_some (r_TAT r)) rows in
  a_tat <- average r_TAT completed ;;
  a_wt <- average r_WT completed ;;
  a_rt <- average r_RT completed ;;
  Returned (rows, mkAvgs a_tat a_wt a_rt).

(** ** simulate: policy selection and metrics

    The text of the form is parsed before this point; the model starts from
    the descriptor list, the [algorithm] key and the integer [quantum]. *)

(** [[Proc(d['pid'], d['arrival'], d['burst'], d['priority']) for d in proc_desc]] *)
Fixpoint procs_from (i : nat) (proc_desc : list Desc) : list Proc :=
  match proc_desc with
  | [] => []
  | d :: rest =>
      new_Proc i (d_pid d) (d_arrival d) (d_burst d) (d_priority d)
        :: procs_from (Datatypes.S i) rest
  end.

Definition proc_objs_of (proc_desc : list Desc) : list Proc := procs_from 0 proc_desc.

(** The [if]/[elif] chain of lines 239-252. *)
Definition select_algorithm (fuel : nat) (algorithm : string) (quantum : Z)
  (proc_objs : list Proc) : outcome timeline :=
  if String.eqb algorithm "fcfs" then Returned (fcfs proc_objs)
  else if String.eqb algorithm "sjf-np" then sjf_nonpreemptive fuel proc_objs
  else if String.eqb algorithm "sjf-p" then sjf_preemptive fuel proc_objs
  else if String.eqb algorithm "rr" then round_robin fuel proc_objs quantum
  else if String.eqb algorithm "priority-np" then priority_nonpreemptive fuel proc_objs
  else if String.eqb algorithm "priority-p" then priority_preemptive fuel proc_objs
  else Returned (fcfs proc_objs).

Record Result := mkResult {
  res_gantt : timeline;
  res_rows : list Row;
  res_avgs : Avgs
}.

Definition simulate (fuel : nat) (algorithm : string) (quantum : Z) (proc_desc : list Desc)
  : outcome Result :=
  let proc_objs := proc_objs_of proc_desc in
  gantt <- select_algorithm fuel algorithm quantum proc_objs ;;
  '(rows, avgs) <- compute_metrics_from_gantt proc_desc gantt ;;
  Returned (mkResult gantt rows avgs).

Definition known_keys : list string :=
  ["fcfs"; "sjf-np"; "sjf-p"; "rr"; "priority-np"; "priority-p"]%string.

(** ** Vocabulary of the properties *)

(** The engine's input contract: [arrival >= 0], [burst > 0], non-empty and
    pairwise distinct pids. *)
Definition well_formed (procs : list Proc) : Prop :=
  Forall (fun p => 0 <= arrival p /\ 0 < burst p /\ pid p <> ""%string) procs
  /\ NoDup (map pid procs).

Definition duration (x : interval) : Z := i_end x - i_start x.

(** Total length of the intervals of [g] attributed to [who]. *)
Fixpoint served (who : string) (g : timeline) : Z :=
  match g with
  | [] => 0
  | x :: g' => (if String.eqb (actor x) who then duration x else 0) + served who g'
  end.

(** The part of [x] that lies before tick [t]. *)
Definition duration_before (t : Z) (x : interval) : Z :=
  Z.max 0 (Z.min t (i_end x) - i_start x).

Fixpoint served_before (t : Z) (who : string) (g : timeline) : Z :=
  match g with
  | [] => 0
  | x :: g' =>
      (if String.eqb (actor x) who then duration_before t x else 0) + served_before t who g'
  end.

(** Who holds the CPU during tick [t] (the unit of time from [t] to [t+1]). *)
Fixpoint occupant (t : Z) (g : timeline) : option string :=
  match g with
  | [] => None
  | x :: g' => if (i_start x <=? t) && (t <? i_end x) then Some (actor x) else occupant t g'
  end.

(** Every interval is non-empty and starts where the one before it ended,
    the first one at [t]. *)
Fixpoint contiguous_from (t : Z) (g : timeline) : Prop :=
  match g with
  | [] => True
  | x :: g' => i_start x = t /\ i_start x < i_end x /\ contiguous_from (i_end x) g'
  end.

Definition max_completion (g : timeline) : Z :=
  fold_right (fun x m => Z.max (i_end x) m) 0 g.

(** [g] is contiguous from [t0] and ends at [t1] ([t0] itself when empty). *)
Definition end_from (t : Z) (g : timeline) : Z :=
  fold_left (fun _ x => i_end x) g t.

Definition chain (t0 : Z) (g : timeline) (t1 : Z) : Prop :=
  contiguous_from t0 g /\ end_from t0 g = t1.

(** *** Decision points

    What the engine sees when it decides who gets the CPU: the clock, the
    ready set after the arrivals up to the clock were admitted, the process
    that holds the CPU (preemptive loops), and the processes that have not
    arrived. *)
Record decision := mkDecision {
  at_time : Z;
  ready_set : list Proc;
  running : option Proc;
  not_arrived : list Proc
}.

Definition arrived (time : Z) (p : Proc) : bool := arrival p <=? time.
Definition waiting (time : Z) (p : Proc) : bool := negb (arrival p <=? time).

(** The guard of the [while] loops; [current] is [None] outside the
    preemptive ones. *)
Definition loop_guard (st : loop_state) : bool :=
  nonempty (s_remaining st) || nonempty (s_ready st) || is_some (s_current st).

(** The decision point of the pass that starts in [st]: the lists are those
    the admission loop leaves (lemma [admission_spec]). *)
Definition decision_of (st : loop_state) : decision :=
  mkDecision (s_time st)
    (s_ready st ++ filter (arrived (s_time st)) (s_remaining st))
    (option_map fst (s_current st))
    (filter (waiting (s_time st)) (s_remaining st)).

(** [fcfs] keeps no ready list: at clock [t], with [rest] still to serve,
    the ready processes are those of [rest] that have arrived. *)
Definition decision_at (t : Z) (rest : list Proc) : decision :=
  mkDecision t (filter (arrived t) rest) None (filter (waiting t) rest).

(** Ready processes and the running one. *)
Definition candidates (d : decision) : list Proc :=
  ready_set d ++ match running d with Some c => [c] | None => [] end.

(** Nothing ready, nothing running, somebody still to come. *)
Definition idle_condition (d : decision) : Prop :=
  candidates d = [] /\ not_arrived d <> [].

Definition earliest_arrival (l : list Proc) (e : Z) : Prop :=
  (exists m, In m l /\ arrival m = e) /\ Forall (fun p => e <= arrival p) l.

(** [x] is the idle jump taken at [d]. *)
Definition gap_at (d : decision) (x : interval) : Prop :=
  idle_condition d /\ actor x = idle /\ i_start x = at_time d
  /\ earliest_arrival (not_arrived d) (i_end x).

(** [x] is a run, begun at [d], of a process that was ready or running there. *)
Definition runs_at (d : decision) (x : interval) : Prop :=
  i_start x = at_time d /\ exists p, In p (candidates d) /\ pid p = actor x.

(** The decision points of a run of a [while] loop: its loop-head states
    that pass the guard. *)
Definition loop_decisions (body : loop_state -> flow loop_state timeline)
  (s0 : loop_state) (d : decision) : Prop :=
  exists st, reach body s0 st /\ loop_guard st = true /\ d = decision_of st.

(** The decision points of [fcfs]: before each process [p] of the sorted
    list, at the clock reached so far and, when that is before [p] arrives,
    again at [p]'s arrival. *)
Definition fcfs_decisions (procs : list Proc) (d : decision) : Prop :=
  exists done p rest,
    py_sort key_arrival procs = done ++ p :: rest
    /\ let time := fst (fold_left fcfs_body done (0, [])) in
       d = decision_at time (p :: rest)
       \/ (time < arrival p /\ d = decision_at (arrival p) (p :: rest)).

Definition decision_points (algorithm : string) (quantum : Z) (procs : list Proc)
  : decision -> Prop :=
  let s0 := init_state (copy_procs procs) in
  if String.eqb algorithm "fcfs" then fcfs_decisions procs
  else if String.eqb algorithm "sjf-np" then loop_decisions (np_body key_sjf_np false) s0
  else if String.eqb algorithm "sjf-p" then loop_decisions (p_body key_sjf_p) s0
  else if String.eqb algorithm "rr" then loop_decisions (rr_body quantum) s0
  else if String.eqb algorithm "priority-np" then loop_decisions (np_body key_priority_np true) s0
  else if String.eqb algorithm "priority-p" then loop_decisions (p_body key_priority_p) s0
  else fcfs_decisions procs.

(** Every interval of a timeline is an idle jump or a run decided at some
    decision point of [DP]; [who] has a run in [g]. *)
Definition explained (DP : decision -> Prop) (x : interval) : Prop :=
  exists d, DP d /\ (gap_at d x \/ runs_at d x).

Definition scheduled (DP : decision -> Prop) (who : string) (g : timeline) : Prop :=
  exists x, In x g /\ actor x = who /\ exists d, DP d /\ runs_at d x.

(** *** Loop states: their processes and a termination measure *)
Definition current_list (st : loop_state) : list Proc :=
  match s_current st with Some (c, _) => [c] | None => [] end.

Definition procs_of (st : loop_state) : list Proc :=
  s_remaining st ++ s_ready st ++ current_list st.

(** Where the interval that is still open began; the clock when none is. *)
Definition open_start (st : loop_state) : Z :=
  match s_current st with Some (_, i) => i | None => s_time st end.

Fixpoint weight (l : list Proc) : nat :=
  match l with
  | [] => 0
  | p :: l' => Datatypes.S (Z.to_nat (remaining p)) + weight l'
  end.

Definition loop_measure (st : loop_state) : nat :=
  2 * weight (procs_of st) + (if nonempty (candidates (decision_of st)) then 0 else 1).

(** The state after the idle jump to the arrival of [m]. *)
Definition idle_state (st : loop_state) (m : Proc) : loop_state :=
  mkState (arrival m) (s_gantt st ++ [(idle, s_time st, arrival m)])
    (ready_set (decision_of st)) (not_arrived (decision_of st)) (s_current st).

(** What a run of a policy on [procs] guarantees about its timeline [g],
    [DP] being the decision points of the run: [g] is contiguous from 0;
    every interval is an idle jump or a run decided at a decision point; its
    actors are [idle] or pids of [procs]; every process gets a run; an idle
    jump is taken at every decision point where nothing is ready; and the
    processes ready or running at a decision point are processes of [procs]. *)
Definition run_ok (DP : decision -> Prop) (procs : list Proc) (g : timeline) : Prop :=
  contiguous_from 0 g
  /\ Forall (explained DP) g
  /\ Forall (fun x => actor x = idle \/ In (actor x) (map pid procs)) g
  /\ (forall who, In who (map pid procs) -> scheduled DP who g)
  /\ (forall d, DP d -> idle_condition d -> exists x, In x g /\ gap_at d x)
  /\ (forall d p, DP d -> In p (candidates d) -> In (pid p) (map pid procs)).

(** *** Metrics vocabulary *)

(** The non-idle intervals of [g] that carry [who], in order. *)
Definition runs_of (who : string) (g : timeline) : timeline :=
  filter (fun x => String.eqb (actor x) who && negb (String.eqb (actor x) idle)) g.

(** The start of the first interval and the end of the last one. *)
Definition start_of_first (l : timeline) : option Z :=
  match l with
  | [] => None
  | x :: _ => Some (i_start x)
  end.

Fixpoint end_of_last (l : timeline) : option Z :=
  match l with
  | [] => None
  | x :: l' =>
      match end_of_last l' with
      | Some e => Some e
      | None => Some (i_end x)
      end
  end.

Definition keys {V} (d : dict V) : list string := map fst d.

Definition values_of (f : Row -> option Z) (rows : list Row) : list Z :=
  flat_map (fun r => match f r with Some v => [v] | None => [] end) rows.

Definition sum_Z (l : list Z) : Z := fold_right Z.add 0 l.

(** The mean of [l] as a float, the sum over the count rounded to the
    nearest float: none for the empty list, [OverflowError] when the mean is
    too large for a float. *)
Definition float_mean (l : list Z) : outcome (option py_float) :=
  match l with
  | [] => Returned None
  | _ :: _ => q <- py_truediv (sum_Z l) (Z.of_nat (List.length l)) ;; Returned (Some q)
  end.

(** The rows that count for the averages. *)
Definition completed_rows (rows : list Row) : list Row :=
  filter (fun r => is_some (r_TAT r)) rows.

(** The row the metrics helper builds for [pid_] with descriptor data [d]
    from the timeline [g]. *)
Definition row_of (g : timeline) (kv : string * Info) : Row :=
  let '(pid_, d) := kv in
  match start_of_first (runs_of pid_ g), end_of_last (runs_of pid_ g) with
  | Some start, Some completion =>
      mkRow pid_ (i_arrival d) (i_burst d) (Some start) (Some completion)
        (Some (completion - i_arrival d)) (Some (completion - i_arrival d - i_burst d))
        (Some (start - i_arrival d)) (i_priority d)
  | _, _ =>
      mkRow pid_ (i_arrival d) (i_burst d) None None None None None (i_priority d)
  end.

(** [o] is the mean of [l] as a float: the float nearest to the sum over
    the count, and nothing when [l] is empty. *)
Definition is_mean (l : list Z) (o : option py_float) : Prop :=
  match l, o with
  | [], None => True
  | _ :: _, Some q => py_truediv (sum_Z l) (Z.of_nat (List.length l)) = Returned q
  | _, _ => False
  end.

(** The three averages of the rows that have times. *)
Definition averages (rows : list Row) : outcome Avgs :=
  a_tat <- float_mean (values_of r_TAT (completed_rows rows)) ;;
  a_wt <- float_mean (values_of r_WT (completed_rows rows)) ;;
  a_rt <- float_mean (values_of r_RT (completed_rows rows)) ;;
  Returned (mkAvgs a_tat a_wt a_rt).

(** Timeline shape: sorted by start, pairwise disjoint, covering. *)
Definition sorted_by_start (g : timeline) : Prop :=
  ForallOrdPairs (fun x y => i_start x < i_start y) g.

Definition disjoint (x y : interval) : Prop :=
  i_end x <= i_start y \/ i_end y <= i_start x.

Definition non_overlapping (g : timeline) : Prop := ForallOrdPairs disjoint g.

(** Every tick of [[0, max_completion g)] lies in exactly the intervals that
    contain it, and there is one; its actor is [idle] or a pid of [procs]. *)
Definition covers (procs : list Proc) (g : timeline) : Prop :=
  forall t, 0 <= t < max_completion g ->
    exists x, In x g /\ i_start x <= t < i_end x
              /\ (actor x = idle \/ In (actor x) (map pid procs)).

(** *** Scenarios *)

Definition rr_scenario : list Proc :=
  [new_Proc 0 "P1" 0 5 0; new_Proc 1 "P2" 1 3 0].

(** The timeline so far and the queue, as [(pid, remaining)] pairs, after
    [n] passes of the loop of [round_robin]. *)
Definition rr_after (quantum : Z) (procs : list Proc) (n : nat)
  : option (timeline * list (string * Z)) :=
  option_map (fun st => (s_gantt st, map (fun p => (pid p, remaining p)) (s_ready st)))
    (iterate (rr_body quantum) n (init_state (copy_procs procs))).

Definition preempt_scenario : list Proc :=
  [new_Proc 0 "P1" 0 8 0; new_Proc 1 "P2" 1 4 0].

Definition starve_scenario : list Proc :=
  [new_Proc 0 "P1" 0 5 2; new_Proc 1 "P2" 1 2 1; new_Proc 2 "P3" 1 10 3].

(** What is left of [p]'s burst at tick [t] of the timeline [g], and [p] as
    the selection keys see it then. *)
Definition remaining_at (t : Z) (g : timeline) (p : Proc) : Z :=
  burst p - served_before t (pid p) g.

Definition proc_at (t : Z) (g : timeline) (p : Proc) : Proc :=
  set_remaining p (remaining_at t g p).

Definition idle_named : list Proc := [new_Proc 0 idle 0 1 0].

(** *** The states a pass of a loop leads to *)

Definition np_run_state (st : loop_state) (p : Proc) (ready2 : list Proc) : loop_state :=
  mkState (s_time st + burst p)
    (s_gantt st ++ [(pid p, s_time st, s_time st + burst p)])
    ready2 (not_arrived (decision_of st)) None.

Definition rr_skip_state (st : loop_state) (queue2 : list Proc) : loop_state :=
  mkState (s_time st) (s_gantt st) queue2 (not_arrived (decision_of st)) None.

Definition rr_run_state (quantum : Z) (st : loop_state) (p : Proc) (queue2 : list Proc)
  : loop_state :=
  let run := Z.min quantum (remaining p) in
  let end_ := s_time st + run in
  let p' := set_remaining p (remaining p - run) in
  let queue3 := queue2 ++ filter (arrived end_) (not_arrived (decision_of st)) in
  mkState end_ (s_gantt st ++ [(pid p, s_time st, end_)])
    (if remaining p' >? 0 then queue3 ++ [p'] else queue3)
    (filter (waiting end_) (not_arrived (decision_of st))) None.

Definition closing (st : loop_state) : timeline :=
  match s_current st with
  | Some (c, i) => [(pid c, i, s_time st)]
  | None => []
  end.

(** The state after [cur], running since [istart], has had the CPU for the
    tick at [s_time st]. *)
Definition tick_state (st : loop_state) (gantt1 : timeline) (ready2 : list Proc)
  (cur : Proc) (istart : Z) : loop_state :=
  let cur' := set_remaining cur (remaining cur - 1) in
  let time' := s_time st + 1 in
  if remaining cur' =? 0 then
    mkState time' (gantt1 ++ [(pid cur', istart, time')]) ready2
      (not_arrived (decision_of st)) None
  else
    mkState time' gantt1 ready2 (not_arrived (decision_of st)) (Some (cur', istart)).

(** *** The invariant of the scheduling loops

    [procs0] are the copies the loop starts from. *)
Section InvariantDef.
Variable body : loop_state -> flow loop_state timeline.
Variable procs0 : list Proc.
Variable preemptive : bool.

Definition DP0 : decision -> Prop := loop_decisions body (init_state procs0).

Definition proc_ok (p : Proc) : Prop :=
  In (pid p) (map pid procs0) /\ 0 < burst p /\ 0 < remaining p.

Definition actor_ok (x : interval) : Prop :=
  actor x = idle \/ In (actor x) (map pid procs0).

Record inv (st : loop_state) : Prop := mkInv {
  inv_reach : reach body (init_state procs0) st;
  inv_cur : preemptive = false -> s_current st = None;
  inv_pids : NoDup (map pid (procs_of st));
  inv_oids : NoDup (map oid (procs_of st));
  inv_from : Forall proc_ok (procs_of st);
  inv_chain : chain 0 (s_gantt st) (open_start st);
  inv_open : forall c i, s_current st = Some (c, i) ->
    i < s_time st
    /\ exists d, DP0 d /\ at_time d = i /\ exists q, In q (candidates d) /\ pid q = pid c;
  inv_explained : Forall (explained DP0) (s_gantt st);
  inv_actors : Forall actor_ok (s_gantt st);
  inv_scheduled : forall who, In who (map pid procs0) ->
    In who (map pid (procs_of st)) \/ scheduled DP0 who (s_gantt st)
}.

Definition post (g : timeline) : Prop :=
  contiguous_from 0 g
  /\ Forall (explained DP0) g
  /\ Forall actor_ok g
  /\ forall who, In who (map pid procs0) -> scheduled DP0 who g.
End InvariantDef.

(** *** fcfs and the metrics helper *)

Definition info_of (d : Desc) : string * Info :=
  (d_pid d, mkInfo (d_arrival d) (d_burst d) (d_priority d)).

(** The decision points met while serving the first [n] processes. *)
Definition fcfs_decisions_upto (procs : list Proc) (n : nat) (d : decision) : Prop :=
  exists done p rest,
    py_sort key_arrival procs = done ++ p :: rest
    /\ (List.length done < n)%nat
    /\ let time := fst (fold_left fcfs_body done (0, [])) in
       d = decision_at time (p :: rest)
       \/ (time < arrival p /\ d = decision_at (arrival p) (p :: rest)).

Definition fcfs_inv (procs : list Proc) (done : list Proc) (st : Z * timeline) : Prop :=
  chain 0 (snd st) (fst st)
  /\ Forall (explained (fcfs_decisions procs)) (snd st)
  /\ Forall (fun x => actor x = idle \/ In (actor x) (map pid procs)) (snd st)
  /\ (forall p, In p done -> scheduled (fcfs_decisions procs) (pid p) (snd st))
  /\ (forall d, fcfs_decisions_upto procs (List.length done) d -> idle_condition d ->
        exists x, In x (snd st) /\ gap_at d x).

(** *** Vocabulary of the further properties *)

(** The distinct elements of [l], each at its first occurrence. *)
Fixpoint dedup (l : list string) : list string :=
  match l with
  | [] => []
  | k :: l' => k :: filter (fun k' => negb (String.eqb k' k)) (dedup l')
  end.

(** The data columns of a row and of a descriptor. *)
Definition row_data (r : Row) : string * Z * Z * Z :=
  (r_pid r, r_arrival r, r_burst r, r_priority r).

Definition desc_data (d : Desc) : string * Z * Z * Z :=
  (d_pid d, d_arrival d, d_burst d, d_priority d).

(** The intervals that are not labelled "idle". *)
Definition busy (g : timeline) : timeline :=
  filter (fun x => negb (String.eqb (actor x) idle)) g.

Definition mem (k : string) (K : list string) : bool := existsb (String.eqb k) K.

(** The timeline with the interval that is still open closed at the clock. *)
Definition full_gantt (st : loop_state) : timeline := s_gantt st ++ closing st.

Section AccountDef.
Variable procs0 : list Proc.

(** [q] is one of the processes of [procs0], up to its remaining time. *)
Definition from_input (q : Proc) : Prop :=
  exists p0, In p0 procs0 /\ pid q = pid p0 /\ arrival q = arrival p0 /\ burst q = burst p0.

(** [x] is labelled "idle" or is a run of a process that had arrived. *)
Definition on_time (x : interval) : Prop :=
  actor x = idle \/ exists p0, In p0 procs0 /\ pid p0 = actor x /\ arrival p0 <= i_start x.

(** Nothing is ready, running or in the timeline before it has arrived. *)
Record timely (st : loop_state) : Prop := mkTimely {
  tm_from : Forall from_input (procs_of st);
  tm_ready : Forall (fun q => arrival q <= s_time st) (s_ready st);
  tm_open : forall c i, s_current st = Some (c, i) -> arrival c <= i;
  tm_gantt : Forall on_time (s_gantt st)
}.
End AccountDef.

Section ServiceDef.
Variable procs0 : list Proc.
Variable exact : bool.

(** Service accounting: what a process of the state has been served is
    its burst less its remaining time; a process that has left the state was
    served some of its burst, all of it in the loops that drop nobody
    ([exact]). *)
Record account (st : loop_state) : Prop := mkAccount {
  ac_state : Forall (fun q => remaining q <= burst q
                       /\ (pid q <> idle ->
                           served (pid q) (full_gantt st) = burst q - remaining q))
               (procs_of st);
  ac_open : forall c i, s_current st = Some (c, i) -> remaining c < burst c;
  ac_exact : exact = true -> s_current st = None;
  ac_gone : forall p0, In p0 procs0 -> pid p0 <> idle ->
    In (pid p0) (map pid (procs_of st))
    \/ (0 < served (pid p0) (full_gantt st) <= burst p0
        /\ (exact = true -> served (pid p0) (full_gantt st) = burst p0))
}.
End ServiceDef.

(** A run of Round Robin lasts at most a quantum. *)
Definition slice_ok (quantum : Z) (x : interval) : Prop :=
  actor x = idle \/ duration x <= quantum.

(** The processes that are not named "idle". *)
Definition named (l : list Proc) : list Proc :=
  filter (fun p => negb (String.eqb (pid p) idle)) l.

(** [x] is a run of [p] for its whole burst, begun when [p] had arrived. *)
Definition run_of (x : interval) (p : Proc) : Prop :=
  actor x = pid p /\ arrival p <= i_start x /\ i_end x = i_start x + burst p.

(** [runs] are the runs of the processes of [order], one each and in that
    order; and when a run begins, no process that runs later or is in [rest],
    and has arrived by then, has a smaller key than the one that runs. *)
Fixpoint picks (key : Proc -> list Z) (runs : timeline) (order rest : list Proc) : Prop :=
  match runs, order with
  | [], [] => True
  | x :: runs', p :: order' =>
      run_of x p
      /\ (forall q, In q (order' ++ rest) -> arrival q <= i_start x ->
            tuple_ltb (key q) (key p) = false)
      /\ picks key runs' order' rest
  | _, _ => False
  end.

(** [q] is a copy of [p]: [Proc(p.pid, p.arrival, p.burst, p.priority)]. *)
Definition copy_of (q p : Proc) : Prop :=
  pid q = pid p /\ arrival q = arrival p /\ burst q = burst p /\ priority q = priority p.

(** The runs so far are those of the processes that have left the state,
    each picked with the smallest key. *)
Definition picked (key : Proc -> list Z) (procs0 : list Proc) (st : loop_state) : Prop :=
  exists done,
    Permutation procs0 (done ++ procs_of st)
    /\ picks key (busy (s_gantt st)) (named done) (procs_of st).

(** The times of the row are below 2^1023 in magnitude. *)
Definition small_row (r : Row) : Prop :=
  forall v, In (Some v) [r_TAT r; r_WT r; r_RT r] -> Z.abs v < 2 ^ 1023.

(** The time the processes of [l] have still to run, the sum of their
    bursts, and their latest arrival (0 when there is none). *)
Definition work (l : list Proc) : Z := fold_right (fun p w => remaining p + w) 0 l.

Definition total_burst (l : list Proc) : Z := fold_right (fun p w => burst p + w) 0 l.

Definition max_arrival (l : list Proc) : Z := fold_right (fun p m => Z.max (arrival p) m) 0 l.

(** The time by which every process has arrived and could have been served. *)
Definition horizon (procs : list Proc) : Z := max_arrival procs + total_burst procs.

(** The clock, and every arrival still to come, leave room for the work
    that is left before [H]. *)
Record within (H : Z) (st : loop_state) : Prop := mkWithin {
  wi_time : 0 <= s_time st /\ s_time st + work (procs_of st) <= H;
  wi_arrivals : Forall (fun q => arrival q + work (procs_of st) <= H) (procs_of st)
}.

(** The outcome [out] of [simulate] is the timeline [g] with the rows
    [rows] and their three averages, or the [OverflowError] of a mean too
    large for a float. *)
Definition ends_with (out : outcome Result) (g : timeline) (rows : list Row) : Prop :=
  (exists avgs,
     out = Returned (mkResult g rows avgs)
     /\ is_mean (values_of r_TAT (completed_rows rows)) (avg_tat avgs)
     /\ is_mean (values_of r_WT (completed_rows rows)) (avg_wt avgs)
     /\ is_mean (values_of r_RT (completed_rows rows)) (avg_rt avgs))
  \/ out = Raised OverflowError.

(** *** Readiness read off the timeline

    A process of the input is ready at [t] when it has arrived and the
    timeline has given it less than its burst before [t]; it is still to
    come when it arrives after [t].  Neither reads the variables of a loop. *)
Definition unfinished_at (g : timeline) (t : Z) (p : Proc) : bool :=
  (arrival p <=? t) && (served_before t (pid p) g <? burst p).

Definition ready_at (procs : list Proc) (g : timeline) (t : Z) : list Proc :=
  filter (unfinished_at g t) procs.

Definition to_come (procs : list Proc) (t : Z) : list Proc := filter (waiting t) procs.

(** [x], appended to the timeline [g], is an idle jump taken while every
    process that has arrived has had its burst, to the earliest arrival
    among the others; or it is a run of a process that has arrived and has
    had less than its burst. *)
Definition step_ok (procs : list Proc) (g : timeline) (x : interval) : Prop :=
  (actor x = idle
   /\ (forall p, In p procs -> arrival p <= i_start x -> burst p <= served (pid p) g)
   /\ (exists m, In m procs /\ i_start x < arrival m /\ arrival m = i_end x)
   /\ (forall p, In p procs -> i_start x < arrival p -> i_end x <= arrival p))
  \/ (actor x <> idle
      /\ exists p, In p procs /\ pid p = actor x /\ arrival p <= i_start x
                   /\ served (pid p) g < burst p).

(** Every interval of [g] is such a step after the intervals before it. *)
Definition decided (procs : list Proc) (g : timeline) : Prop :=
  forall g1 x g2, g = g1 ++ x :: g2 -> step_ok procs g1 x.

(** An input with two gaps: nothing has arrived at 0, and nothing is left
    between 5 and 10. *)
Definition gap_scenario : list Proc :=
  [new_Proc 0 "P1" 2 3 1; new_Proc 1 "P2" 10 1 2].

(** A preemption followed by a gap: P2 preempts P1 at 1, and nothing
    arrives between 5 and 10. *)
Definition idle_drop_scenario : list Proc :=
  [new_Proc 0 "P1" 0 8 2; new_Proc 1 "P2" 1 4 1; new_Proc 2 "P3" 10 1 3].

Definition idle_drop_timeline : timeline :=
  [("P1"%string, 0, 1); ("P2"%string, 1, 5); (idle, 5, 10); ("P3"%string, 10, 11)].

(** [who] can run at [s] after the timeline [g]: it is a process of the
    input that has arrived by [s] and has had less than its burst in [g]. *)
Definition run_ready (procs : list Proc) (g : timeline) (who : string) (s : Z) : Prop :=
  who <> idle
  /\ exists p, In p procs /\ pid p = who /\ arrival p <= s /\ served (pid p) g < burst p.

(** [x] is a jump to the earliest arrival after its start. *)
Definition jump_ok (procs : list Proc) (x : interval) : Prop :=
  actor x = idle
  /\ (exists m, In m procs /\ i_start x < arrival m /\ arrival m = i_end x)
  /\ (forall p, In p procs -> i_start x < arrival p -> i_end x <= arrival p).

(** Every interval of [g] is such a jump, or a run of a process that can
    run at its start after the intervals before it. *)
Definition move_ok (procs : list Proc) (g : timeline) (x : interval) : Prop :=
  jump_ok procs x \/ run_ready procs g (actor x) (i_start x).

Definition moves (procs : list Proc) (g : timeline) : Prop :=
  forall g1 x g2, g = g1 ++ x :: g2 -> move_ok procs g1 x.

(** The same for a state of a preemptive loop, whose last run may be open. *)
Record sound (procs0 : list Proc) (st : loop_state) : Prop := mkSound {
  sd_gantt : moves procs0 (s_gantt st);
  sd_open : forall c i, s_current st = Some (c, i) ->
    run_ready procs0 (s_gantt st) (pid c) i
}.

(** * Properties *)

(** ** Loops *)
Section WhileFacts.
Variables S R : Type.
Variable body : S -> flow S R.

Lemma while_loop_more fuel : forall s r k,
  while_loop body fuel s = Returned r -> while_loop body (fuel + k) s = Returned r.
Proof.
  induction fuel as [|fuel IH]; intros s r k H; simpl in *; [discriminate|].
  destruct (body s); auto.
Qed.

Lemma while_loop_le fuel fuel' s r :
  (fuel <= fuel')%nat ->
  while_loop body fuel s = Returned r -> while_loop body fuel' s = Returned r.
Proof.
  intros Hle H. replace fuel' with (fuel + (fuel' - fuel))%nat by lia.
  now apply while_loop_more.
Qed.

Lemma while_loop_det f1 f2 s r1 r2 :
  while_loop body f1 s = Returned r1 -> while_loop body f2 s = Returned r2 -> r1 = r2.
Proof.
  intros H1 H2.
  apply (while_loop_le (fuel' := Nat.max f1 f2)) in H1; [|lia].
  apply (while_loop_le (fuel' := Nat.max f1 f2)) in H2; [|lia].
  congruence.
Qed.

Lemma reach_returns s0 s : reach body s0 s ->
  forall fuel r, while_loop body fuel s0 = Returned r ->
  exists fuel', while_loop body fuel' s = Returned r.
Proof.
  induction 1 as [|s s' Hr IH Hb]; intros fuel r Hw; [eauto|].
  destruct (IH _ _ Hw) as [[|f] Hf]; simpl in Hf; [discriminate|].
  rewrite Hb in Hf. eauto.
Qed.

(** Total correctness: an invariant kept by every pass, a measure that
    every pass decreases, no exception raised under the invariant. *)
Section Total.
Variable Inv : S -> Prop.
Variable Post : R -> Prop.
Variable measure : S -> nat.
Hypothesis body_ok : forall s, Inv s ->
  match body s with
  | Next s' => Inv s' /\ (measure s' < measure s)%nat
  | Stop r => Post r
  | Throw _ => False
  end.

Lemma while_loop_total_aux : forall n s, (measure s < n)%nat -> Inv s ->
  exists r, while_loop body n s = Returned r /\ Post r.
Proof.
  induction n as [|n IH]; intros s Hm Hi; [lia|].
  simpl. specialize (body_ok Hi). destruct (body s) as [s'|r|e].
  - destruct body_ok as [Hi' Hm']. apply IH; [lia|assumption].
  - eauto.
  - contradiction.
Qed.

Lemma while_loop_total s : Inv s ->
  exists r, while_loop body (Datatypes.S (measure s)) s = Returned r /\ Post r.
Proof. intros. apply while_loop_total_aux; [lia|assumption]. Qed.
End Total.
End WhileFacts.

(** ** Lists: removal, admission, sorting *)

Lemma Proc_eqb_refl p : Proc_eqb p p = true.
Proof.
  unfold Proc_eqb. now rewrite String.eqb_refl, !Z.eqb_refl.
Qed.

Lemma Proc_eqb_arrival p q : Proc_eqb p q = true -> arrival p = arrival q.
Proof.
  unfold Proc_eqb. rewrite !andb_true_iff. intros [[[[_ H] _] _] _].
  now apply Z.eqb_eq.
Qed.

Lemma py_remove_here kept x rest :
  Forall (fun y => Proc_eqb y x = false) kept ->
  py_remove x (kept ++ x :: rest) = Some (kept ++ rest).
Proof.
  induction 1 as [|y kept Hy _ IH]; simpl.
  - now rewrite Proc_eqb_refl.
  - now rewrite Hy, IH.
Qed.

Lemma admission_loop_spec time : forall snapshot ready kept,
  Forall (fun p => waiting time p = true) kept ->
  admission_loop time snapshot ready (kept ++ snapshot)
  = Some (ready ++ filter (arrived time) snapshot, kept ++ filter (waiting time) snapshot).
Proof.
  induction snapshot as [|p rest IH]; intros ready kept Hk; simpl.
  - now rewrite !app_nil_r.
  - unfold arrived, waiting in *. destruct (arrival p <=? time) eqn:Hp; simpl.
    + rewrite py_remove_here.
      * rewrite IH by assumption. now rewrite <- app_assoc.
      * eapply Forall_impl; [|exact Hk]. intros y Hy. simpl in Hy.
        destruct (Proc_eqb y p) eqn:E; [|reflexivity].
        apply Proc_eqb_arrival in E. rewrite E, Hp in Hy. discriminate.
    + replace (kept ++ p :: rest) with ((kept ++ [p]) ++ rest) by now rewrite <- app_assoc.
      rewrite IH.
      * now rewrite <- app_assoc.
      * apply Forall_app. split; [assumption|]. constructor; [|constructor].
        now rewrite Hp.
Qed.

(** The admission loop never raises: it moves the arrived processes, in
    order, to the tail of [ready]. *)
Lemma admission_spec time ready remaining_ :
  admission time ready remaining_
  = Some (ready ++ filter (arrived time) remaining_, filter (waiting time) remaining_).
Proof.
  unfold admission. apply (admission_loop_spec time remaining_ ready (kept := [])). constructor.
Qed.

Lemma insert_sorted_perm key x s : Permutation (insert_sorted key x s) (x :: s).
Proof.
  induction s as [|y s IH]; simpl; [reflexivity|].
  destruct (tuple_ltb (key y) (key x)); [|reflexivity].
  rewrite IH. apply perm_swap.
Qed.

Lemma py_sort_perm key l : Permutation (py_sort key l) l.
Proof.
  induction l as [|x l IH]; simpl; [reflexivity|].
  rewrite insert_sorted_perm. now constructor.
Qed.

Lemma py_sort_length key l : List.length (py_sort key l) = List.length l.
Proof. apply Permutation_length, py_sort_perm. Qed.

Lemma py_sort_in key l x : In x (py_sort key l) <-> In x l.
Proof.
  split; apply Permutation_in; [|symmetry]; apply py_sort_perm.
Qed.

Lemma py_sort_nil key l : py_sort key l = [] -> l = [].
Proof.
  intros H. apply (f_equal (@List.length Proc)) in H. rewrite py_sort_length in H.
  destruct l; [reflexivity|discriminate].
Qed.

(** [min] over a non-empty list returns a member of least arrival. *)
Lemma py_min_arrival_spec l :
  l <> [] ->
  exists m, py_min_arrival l = Some m /\ In m l /\ Forall (fun p => arrival m <= arrival p) l.
Proof.
  destruct l as [|p rest]; [congruence|]. intros _. simpl.
  eexists; split; [reflexivity|].
  assert (G : forall rest m0 (seen : list Proc),
             In m0 seen -> Forall (fun p => arrival m0 <= arrival p) seen ->
             let m := fold_left (fun m x => if arrival x <? arrival m then x else m) rest m0 in
             In m (seen ++ rest) /\ Forall (fun p => arrival m <= arrival p) (seen ++ rest)).
  { clear. induction rest as [|x rest IH]; intros m0 seen Hin Hall; simpl.
    - now rewrite app_nil_r.
    - replace (seen ++ x :: rest) with ((seen ++ [x]) ++ rest) by now rewrite <- app_assoc.
      apply IH.
      + destruct (arrival x <? arrival m0); apply in_or_app; [right; now left | now left].
      + apply Forall_app. destruct (Z.ltb_spec (arrival x) (arrival m0)).
        * split; [|repeat constructor; lia].
          eapply Forall_impl; [|exact Hall]. simpl. intros; lia.
        * split; [assumption|]. repeat constructor; lia. }
  apply (G rest p [p]); [now left | repeat constructor; lia].
Qed.

(** ** Scenarios *)

(** C9. Round Robin with quantum 2 on [(P1,0,5), (P2,1,3)] returns
    [(P1,0,2), (P2,2,4), (P1,4,6), (P2,6,7), (P1,7,8)].  After the first
    slice the queue is P2 then P1: P2, which arrived during the slice, was
    queued before P1 was put back.  The queue after each pass shows the
    remaining times 3, 1, 1 of the spec; a process leaves the queue with the
    slice that brings its remaining time to 0 (P2 with its slice of length 1
    at 6, P1 with its slice of length 1 at 7), and the time each one is served
    is exactly its burst. *)
Theorem C9_round_robin_scenario :
  let P1 := "P1"%string in
  let P2 := "P2"%string in
  let g := [(P1, 0, 2); (P2, 2, 4); (P1, 4, 6); (P2, 6, 7); (P1, 7, 8)] in
  (forall k, round_robin (6 + k) rr_scenario 2 = Returned g)
  /\ rr_after 2 rr_scenario 1 = Some ([(P1, 0, 2)], [(P2, 3); (P1, 3)])
  /\ rr_after 2 rr_scenario 2 = Some ([(P1, 0, 2); (P2, 2, 4)], [(P1, 3); (P2, 1)])
  /\ rr_after 2 rr_scenario 3
     = Some ([(P1, 0, 2); (P2, 2, 4); (P1, 4, 6)], [(P2, 1); (P1, 1)])
  /\ rr_after 2 rr_scenario 4
     = Some ([(P1, 0, 2); (P2, 2, 4); (P1, 4, 6); (P2, 6, 7)], [(P1, 1)])
  /\ rr_after 2 rr_scenario 5 = Some (g, [])
  /\ served P1 g = 5 /\ served P2 g = 3.
Proof.
  cbv zeta. split.
  - intros k. unfold round_robin. apply while_loop_more. reflexivity.
  - repeat split; reflexivity.
Qed.

(** C4 fails on the preemptive policies.  On [(P1,0,8), (P2,1,4)]
    [sjf_preemptive] returns [(P1,0,1), (P2,1,5)]: when P2 preempts P1 at
    tick 1, P1 is in neither [ready] nor [current] any more and never runs
    again; its intervals add up to 1, its burst is 8.  [priority_preemptive]
    loses it on the same input when P2 has the better priority. *)
Theorem C4_preempted_process_is_dropped :
  let g := [("P1"%string, 0, 1); ("P2"%string, 1, 5)] in
  (forall k, sjf_preemptive (6 + k) preempt_scenario = Returned g)
  /\ (forall k, priority_preemptive (6 + k)
                  [new_Proc 0 "P1" 0 8 2; new_Proc 1 "P2" 1 4 1] = Returned g)
  /\ served "P1" g = 1
  /\ Forall (fun p => pid p = "P1"%string -> burst p = 8) preempt_scenario
  /\ well_formed preempt_scenario.
Proof.
  cbv zeta. split; [|split; [|split; [|split]]].
  - intros k. unfold sjf_preemptive. apply while_loop_more. reflexivity.
  - intros k. unfold priority_preemptive. apply while_loop_more. reflexivity.
  - reflexivity.
  - repeat constructor; simpl; intros; try reflexivity; discriminate.
  - split.
    + repeat constructor; simpl; try lia; discriminate.
    + repeat constructor; simpl; intuition discriminate.
Qed.

(** C7 fails on both preemptive policies.  On [(P1,0,5), (P2,1,2), (P3,1,10)]
    with priorities 2, 1, 3 both return [(P1,0,1), (P2,1,3), (P3,3,13)]: P2
    preempts P1 at tick 1 and P1 is dropped.  At tick 3 the CPU goes to P3
    although P1 has arrived, has 4 of its 5 units left, and has the strictly
    smaller key under either policy. *)
Theorem C7_smaller_key_left_behind :
  let g := [("P1"%string, 0, 1); ("P2"%string, 1, 3); ("P3"%string, 3, 13)] in
  let P1 := new_Proc 0 "P1" 0 5 2 in
  let P3 := new_Proc 2 "P3" 1 10 3 in
  well_formed starve_scenario
  /\ In P1 starve_scenario /\ In P3 starve_scenario
  /\ (forall k, sjf_preemptive (14 + k) starve_scenario = Returned g)
  /\ (forall k, priority_preemptive (14 + k) starve_scenario = Returned g)
  /\ occupant 3 g = Some (pid P3)
  /\ arrival P1 <= 3 /\ remaining_at 3 g P1 = 4 /\ remaining_at 3 g P3 = 10
  /\ tuple_ltb (key_sjf_p (proc_at 3 g P1)) (key_sjf_p (proc_at 3 g P3)) = true
  /\ tuple_ltb (key_priority_p (proc_at 3 g P1)) (key_priority_p (proc_at 3 g P3)) = true.
Proof.
  cbv zeta. split; [|split; [|split; [|split; [|split]]]].
  - split.
    + repeat constructor; simpl; try lia; discriminate.
    + repeat constructor; simpl; intuition discriminate.
  - now left.
  - right; right; now left.
  - intros k. unfold sjf_preemptive. apply while_loop_more. reflexivity.
  - intros k. unfold priority_preemptive. apply while_loop_more. reflexivity.
  - repeat apply conj; try reflexivity. simpl. lia.
Qed.

(** C2 as stated fails: an unknown key is not rejected, the request is
    served by FCFS. *)
Lemma C2_unknown_key_example :
  ~ In "bogus"%string known_keys
  /\ simulate 0 "bogus" 2 [mkDesc "P1" 0 1 0]
     = Returned (mkResult [("P1"%string, 0, 1)]
                   [mkRow "P1" 0 1 (Some 0) (Some 1) (Some 1) (Some 0) (Some 0) 0]
                   (mkAvgs (Some (S754_finite false 4503599627370496 (-52)))
                      (Some (S754_zero false)) (Some (S754_zero false)))).
Proof.
  split; [|reflexivity].
  simpl. intuition discriminate.
Qed.

Lemma rr_quantum_zero_spins : forall fuel g,
  while_loop (rr_body 0) fuel (mkState 0 g [new_Proc 0 "P1" 0 1 0] [] None) = OutOfFuel.
Proof.
  induction fuel as [|fuel IH]; intros g; [reflexivity|].
  simpl. apply IH.
Qed.

(** C1 as stated fails: with [quantum = 0] the request is not rejected, and
    the loop of [round_robin] never ends: every pass appends an empty slice
    [(P1,0,0)] and puts P1 back with its remaining time unchanged. *)
Lemma C1_quantum_zero_never_returns :
  ~ exists fuel, simulate fuel "rr" 0 [mkDesc "P1" 0 1 0] <> OutOfFuel.
Proof.
  intros [fuel H]. apply H. clear H.
  unfold simulate, select_algorithm, round_robin. simpl String.eqb. cbv iota.
  destruct fuel as [|fuel]; [reflexivity|].
  change (bind (while_loop (rr_body 0) fuel
                  (mkState 0 ([] ++ [("P1"%string, 0, 0 + 0)]) [new_Proc 0 "P1" 0 1 0] [] None))
               (fun gantt => '(rows, avgs) <- compute_metrics_from_gantt [mkDesc "P1" 0 1 0] gantt ;;
                             Returned (mkResult gantt rows avgs)) = OutOfFuel).
  now rewrite rr_quantum_zero_spins.
Qed.

(** ** Timelines *)

Lemma end_from_cons t x g : end_from t (x :: g) = end_from (i_end x) g.
Proof. reflexivity. Qed.

Lemma end_from_snoc g : forall t x, end_from t (g ++ [x]) = i_end x.
Proof.
  induction g as [|y g IH]; intros t x; [reflexivity|].
  simpl app. rewrite end_from_cons. apply IH.
Qed.

Lemma contiguous_from_snoc g : forall t x,
  contiguous_from t (g ++ [x])
  <-> contiguous_from t g /\ i_start x = end_from t g /\ i_start x < i_end x.
Proof.
  induction g as [|y g IH]; intros t x; simpl app.
  - simpl. unfold end_from. simpl. tauto.
  - simpl contiguous_from. rewrite end_from_cons, IH. tauto.
Qed.

Lemma chain_nil t : chain t [] t.
Proof. split; [exact I | reflexivity]. Qed.

Lemma chain_snoc t0 g t1 a e :
  chain t0 g t1 -> t1 < e -> chain t0 (g ++ [(a, t1, e)]) e.
Proof.
  intros [Hc He] Hlt. split.
  - apply contiguous_from_snoc. split; [assumption|]. split; [now rewrite He | exact Hlt].
  - apply end_from_snoc.
Qed.

Lemma contiguous_le g : forall t, contiguous_from t g -> t <= end_from t g.
Proof.
  induction g as [|x g IH]; intros t H.
  - unfold end_from; simpl; lia.
  - destruct H as (Hs & Hlt & Hc). rewrite end_from_cons.
    specialize (IH _ Hc). lia.
Qed.

Lemma contiguous_positive g : forall t,
  contiguous_from t g -> Forall (fun x => i_start x < i_end x) g.
Proof.
  induction g as [|x g IH]; intros t H; constructor.
  - apply H.
  - apply (IH (i_end x)), H.
Qed.

Lemma contiguous_after g : forall t,
  contiguous_from t g -> Forall (fun x => t <= i_start x) g.
Proof.
  induction g as [|x g IH]; intros t H; constructor.
  - destruct H as (Hs & _). lia.
  - destruct H as (Hs & Hlt & Hc).
    eapply Forall_impl; [|apply (IH _ Hc)]. simpl. intros; lia.
Qed.

Lemma contiguous_non_overlapping g : forall t,
  contiguous_from t g -> ForallOrdPairs (fun x y => i_end x <= i_start y) g.
Proof.
  induction g as [|x g IH]; intros t H; constructor.
  - destruct H as (_ & _ & Hc). now apply contiguous_after in Hc.
  - apply (IH (i_end x)), H.
Qed.

Lemma ForallOrdPairs_impl {A} (P Q : A -> A -> Prop) l :
  (forall x y, In x l -> In y l -> P x y -> Q x y) ->
  ForallOrdPairs P l -> ForallOrdPairs Q l.
Proof.
  induction l as [|a l IH]; intros Himp H; [constructor|].
  inversion H as [|? ? Ha Hl]; subst. constructor.
  - apply Forall_forall. intros y Hy. apply Himp; [now left | now right |].
    now apply (proj1 (Forall_forall _ _) Ha).
  - apply IH; [|assumption]. intros x y Hx Hy. apply Himp; now right.
Qed.

Lemma contiguous_sorted t g : contiguous_from t g -> sorted_by_start g.
Proof.
  intros H. pose proof (contiguous_positive _ _ H) as Hp.
  apply contiguous_non_overlapping in H.
  eapply ForallOrdPairs_impl; [|exact H]. simpl. intros x y Hx _ Hxy.
  pose proof (proj1 (Forall_forall _ _) Hp x Hx). simpl in *. lia.
Qed.

Lemma contiguous_disjoint t g : contiguous_from t g -> non_overlapping g.
Proof.
  intros H. apply contiguous_non_overlapping in H.
  eapply ForallOrdPairs_impl; [|exact H]. intros x y _ _ Hxy. now left.
Qed.

Lemma contiguous_max g : forall t,
  0 <= t -> contiguous_from t g -> Z.max t (max_completion g) = end_from t g.
Proof.
  induction g as [|x g IH]; intros t Ht H.
  - unfold end_from; simpl; lia.
  - destruct H as (Hs & Hlt & Hc). rewrite end_from_cons. simpl max_completion.
    assert (0 <= i_end x) by lia.
    specialize (IH _ H Hc). lia.
Qed.

Lemma contiguous_cover g : forall t u,
  contiguous_from t g -> t <= u < end_from t g ->
  exists x, In x g /\ i_start x <= u < i_end x.
Proof.
  induction g as [|x g IH]; intros t u H Hu.
  - unfold end_from in Hu; simpl in Hu; lia.
  - destruct H as (Hs & Hlt & Hc). rewrite end_from_cons in Hu.
    destruct (Z_lt_ge_dec u (i_end x)).
    + exists x. split; [now left | lia].
    + destruct (IH (i_end x) u Hc) as (y & Hy & Hin); [lia|].
      exists y. split; [now right | assumption].
Qed.

(** ** Admission facts *)

Lemma filter_arrived_waiting t l :
  Permutation (filter (arrived t) l ++ filter (waiting t) l) l.
Proof.
  induction l as [|p l IH]; simpl; [reflexivity|].
  unfold arrived, waiting in *. destruct (arrival p <=? t); simpl.
  - now constructor.
  - rewrite <- Permutation_middle. now constructor.
Qed.

Lemma filter_waiting_all t l : filter (arrived t) l = [] -> filter (waiting t) l = l.
Proof.
  induction l as [|p l IH]; simpl; [reflexivity|].
  unfold arrived, waiting in *. destruct (arrival p <=? t); simpl; [discriminate|].
  intros H. now rewrite IH.
Qed.

Lemma in_waiting t l p : In p (filter (waiting t) l) -> In p l /\ t < arrival p.
Proof.
  rewrite filter_In. unfold waiting. intros [H1 H2]. split; [assumption|].
  destruct (Z.leb_spec (arrival p) t); [discriminate | lia].
Qed.

Lemma in_arrived t l p : In p (filter (arrived t) l) <-> In p l /\ arrival p <= t.
Proof.
  rewrite filter_In. unfold arrived. now rewrite Z.leb_le.
Qed.

Lemma nonempty_false {A} (l : list A) : nonempty l = false <-> l = [].
Proof. destruct l; simpl; split; congruence. Qed.

Lemma nonempty_true {A} (l : list A) : nonempty l = true <-> l <> [].
Proof. destruct l; simpl; split; congruence. Qed.

Lemma idle_jump_next st m :
  py_min_arrival (not_arrived (decision_of st)) = Some m ->
  idle_jump st (ready_set (decision_of st)) (not_arrived (decision_of st))
  = Next (idle_state st m).
Proof. unfold idle_jump. now intros ->. Qed.

(** ** Weights *)

Lemma weight_app l1 l2 : weight (l1 ++ l2) = (weight l1 + weight l2)%nat.
Proof. induction l1 as [|p l1 IH]; simpl; [reflexivity|]. rewrite IH. lia. Qed.

Lemma weight_perm l1 l2 : Permutation l1 l2 -> weight l1 = weight l2.
Proof. induction 1; simpl; lia. Qed.

(** A pass that serves [sel] (keeping it with less remaining time, or
    letting it go) and possibly drops other processes loses weight. *)
Lemma weight_step l l' sel others dropped r' (keep : bool) :
  Permutation l (sel :: others ++ dropped) ->
  Permutation l' (if keep then set_remaining sel r' :: others else others) ->
  (keep = true -> 0 <= r' < remaining sel) ->
  (weight l' < weight l)%nat.
Proof.
  intros H1 H2 Hk. rewrite (weight_perm H1), (weight_perm H2).
  simpl. rewrite weight_app. destruct keep; simpl; [|lia].
  specialize (Hk eq_refl). assert (Z.to_nat r' < Z.to_nat (remaining sel))%nat by lia. lia.
Qed.

Lemma measure_step st st' :
  (weight (procs_of st') < weight (procs_of st))%nat ->
  (loop_measure st' < loop_measure st)%nat.
Proof.
  unfold loop_measure. intros H.
  destruct (nonempty (candidates (decision_of st'))),
           (nonempty (candidates (decision_of st))); lia.
Qed.

(** ** The invariant of the scheduling loops *)

Section Invariant.
Variable body : loop_state -> flow loop_state timeline.
Variable procs0 : list Proc.
Variable preemptive : bool.

Local Abbreviation DP0 := (DP0 body procs0).
Local Abbreviation proc_ok := (proc_ok procs0).
Local Abbreviation actor_ok := (actor_ok procs0).
Local Abbreviation inv := (inv body procs0 preemptive).
Local Abbreviation post := (post body procs0).

Lemma scheduled_app who g news : scheduled DP0 who g -> scheduled DP0 who (g ++ news).
Proof.
  intros (x & Hx & H). exists x. split; [|assumption]. apply in_or_app. now left.
Qed.

Lemma decision_here st : inv st -> loop_guard st = true -> DP0 (decision_of st).
Proof. intros Hi Hg. exists st. split; [apply Hi | auto]. Qed.

(** The invariant passes from [st] to [st'] when the pass serves [sel],
    drops [dropped], and appends intervals that are accounted for. *)
Lemma inv_step st st' news sel others dropped r' (keep : bool) :
  inv st ->
  body st = Next st' ->
  s_gantt st' = s_gantt st ++ news ->
  Permutation (procs_of st) (sel :: others ++ dropped) ->
  Permutation (procs_of st') (if keep then set_remaining sel r' :: others else others) ->
  (keep = true -> 0 < r') ->
  (preemptive = false -> s_current st' = None) ->
  chain 0 (s_gantt st') (open_start st') ->
  (forall c i, s_current st' = Some (c, i) ->
     i < s_time st'
     /\ exists d, DP0 d /\ at_time d = i /\ exists q, In q (candidates d) /\ pid q = pid c) ->
  Forall (explained DP0) news ->
  Forall (fun x => actor x = idle \/ In (actor x) (map pid (procs_of st))) news ->
  (forall p, In p dropped \/ (keep = false /\ p = sel) -> scheduled DP0 (pid p) (s_gantt st')) ->
  inv st'.
Proof.
  intros Hi Hb Hg Hp Hp' Hk Hc Hch Ho He Ha Hs.
  assert (Hsub : forall q, In q (procs_of st') ->
            exists q0, In q0 (procs_of st) /\ pid q0 = pid q /\ oid q0 = oid q
                       /\ burst q0 = burst q /\ (q = q0 \/ (keep = true /\ q = set_remaining sel r'))).
  { intros q Hq. apply (Permutation_in _ Hp') in Hq.
    assert (Hl : forall x, In x (sel :: others) -> In x (procs_of st)).
    { intros x Hx. apply (Permutation_in _ (Permutation_sym Hp)).
      destruct Hx as [->|Hx]; [now left|]. right. apply in_or_app. now left. }
    destruct keep.
    - destruct Hq as [<-|Hq].
      + exists sel. repeat split; auto. apply Hl. now left.
      + exists q. repeat split; auto. apply Hl. now right.
    - exists q. repeat split; auto. apply Hl. now right. }
  assert (Hmap : forall (A : Type) (f : Proc -> A),
            (forall r, f (set_remaining sel r) = f sel) ->
            NoDup (map f (procs_of st)) -> NoDup (map f (procs_of st'))).
  { intros A f Hf Hn.
    apply (Permutation_NoDup (Permutation_map f Hp)) in Hn.
    apply (Permutation_NoDup (Permutation_sym (Permutation_map f Hp'))).
    simpl in Hn. rewrite map_app in Hn. inversion Hn as [|? ? Hnin Hn']; subst.
    apply NoDup_app_remove_r in Hn'.
    destruct keep; [|assumption]. simpl. rewrite Hf. constructor; [|assumption].
    intros Hin. apply Hnin. apply in_or_app. now left. }
  constructor.
  - eapply reach_next; [apply Hi | exact Hb].
  - exact Hc.
  - apply Hmap; [reflexivity | apply Hi].
  - apply Hmap; [reflexivity | apply Hi].
  - apply Forall_forall. intros q Hq. destruct (Hsub q Hq) as (q0 & Hq0 & Hpid & _ & Hbu & Hor).
    pose proof (proj1 (Forall_forall _ _) (inv_from Hi) q0 Hq0) as (H1 & H2 & H3).
    unfold proc_ok. rewrite <- Hpid, <- Hbu.
    destruct Hor as [->|[Hkeep ->]]; [auto|]. simpl. auto.
  - exact Hch.
  - exact Ho.
  - rewrite Hg. apply Forall_app. split; [apply Hi | exact He].
  - rewrite Hg. apply Forall_app. split; [apply Hi|].
    eapply Forall_impl; [|exact Ha]. intros x [H|H]; [now left|right].
    apply in_map_iff in H. destruct H as (q & Hq1 & Hq2).
    pose proof (proj1 (Forall_forall _ _) (inv_from Hi) q Hq2) as (H1 & _).
    now rewrite <- Hq1.
  - intros who Hwho. destruct (inv_scheduled Hi who Hwho) as [Hin|Hsch].
    + apply in_map_iff in Hin. destruct Hin as (q & Hq1 & Hq2). subst who.
      apply (Permutation_in _ Hp) in Hq2.
      destruct Hq2 as [<-|Hq2].
      * destruct keep eqn:Ek.
        -- left. apply in_map_iff. exists (set_remaining sel r'). split; [reflexivity|].
           apply (Permutation_in _ (Permutation_sym Hp')). now left.
        -- right. apply Hs. right. auto.
      * apply in_app_or in Hq2. destruct Hq2 as [Hq2|Hq2].
        -- left. apply in_map. apply (Permutation_in _ (Permutation_sym Hp')).
           destruct keep; [now right | assumption].
        -- right. apply Hs. now left.
    + right. rewrite Hg. now apply scheduled_app.
Qed.

Lemma candidates_nil st :
  candidates (decision_of st) = [] ->
  s_ready st = [] /\ s_current st = None
  /\ filter (arrived (s_time st)) (s_remaining st) = []
  /\ not_arrived (decision_of st) = s_remaining st.
Proof.
  unfold candidates. simpl. intros H. apply app_eq_nil in H. destruct H as [H1 H2].
  apply app_eq_nil in H1. destruct H1 as [H1 H3].
  repeat split; auto.
  - destruct (s_current st) as [[c i]|]; [discriminate|reflexivity].
  - now apply filter_waiting_all.
Qed.

Lemma min_arrival_earliest l m :
  py_min_arrival l = Some m -> In m l /\ earliest_arrival l (arrival m).
Proof.
  intros H. destruct (py_min_arrival_spec (l := l)) as (m' & H1 & H2 & H3).
  - intros ->. discriminate.
  - rewrite H in H1. injection H1 as <-. split; [assumption|]. split; [eauto|assumption].
Qed.

Lemma gap_at_idle st m :
  loop_guard st = true -> candidates (decision_of st) = [] ->
  py_min_arrival (not_arrived (decision_of st)) = Some m ->
  gap_at (decision_of st) (idle, s_time st, arrival m) /\ s_time st < arrival m.
Proof.
  intros Hg Hc Hm. apply min_arrival_earliest in Hm. destruct Hm as [Hin He].
  split.
  - repeat split; try assumption; try apply He.
    intros E. rewrite E in Hin. contradiction.
  - simpl in Hin. now apply in_waiting in Hin.
Qed.

Lemma inv_idle st m :
  inv st -> loop_guard st = true -> candidates (decision_of st) = [] ->
  py_min_arrival (not_arrived (decision_of st)) = Some m ->
  body st = Next (idle_state st m) ->
  inv (idle_state st m) /\ (loop_measure (idle_state st m) < loop_measure st)%nat.
Proof.
  intros Hi Hg Hc Hm Hb.
  destruct (gap_at_idle st Hg Hc Hm) as [Hgap Hlt].
  destruct (candidates_nil st Hc) as (Hr & Hcur & Hf & Hn).
  pose proof (min_arrival_earliest _ Hm) as [Hin _]. rewrite Hn in Hin.
  assert (Hp : procs_of (idle_state st m) = procs_of st).
  { unfold procs_of, current_list, idle_state. simpl. rewrite Hr, Hf, Hcur. simpl.
    change (filter (waiting (s_time st)) (s_remaining st)) with (not_arrived (decision_of st)).
    now rewrite Hn. }
  split.
  - constructor; try (rewrite Hp; apply Hi).
    + eapply reach_next; [apply Hi | exact Hb].
    + intros _. exact Hcur.
    + unfold open_start, idle_state. simpl. rewrite Hcur.
      apply chain_snoc; [|assumption].
      pose proof (inv_chain Hi) as H. unfold open_start in H. now rewrite Hcur in H.
    + unfold idle_state. simpl. rewrite Hcur. intros; discriminate.
    + unfold idle_state. simpl. apply Forall_app. split; [apply Hi|].
      constructor; [|constructor]. exists (decision_of st).
      split; [now apply decision_here | now left].
    + unfold idle_state. simpl. apply Forall_app. split; [apply Hi|].
      constructor; [now left | constructor].
    + intros who Hw. destruct (inv_scheduled Hi who Hw) as [H|H]; [left; now rewrite Hp|].
      right. unfold idle_state. simpl. now apply scheduled_app.
  - unfold loop_measure. rewrite Hp, Hc. simpl nonempty.
    assert (E : nonempty (candidates (decision_of (idle_state st m))) = true).
    { apply nonempty_true. intros E.
      apply candidates_nil in E. destruct E as (_ & _ & E & _).
      assert (Hm' : In m (filter (arrived (s_time (idle_state st m)))
                           (s_remaining (idle_state st m)))).
      { apply in_arrived. unfold idle_state. simpl.
        change (filter (waiting (s_time st)) (s_remaining st))
          with (not_arrived (decision_of st)).
        rewrite Hn. split; [assumption | lia]. }
      rewrite E in Hm'. contradiction. }
    rewrite E. lia.
Qed.

Lemma inv_stop st : inv st -> loop_guard st = false -> post (s_gantt st).
Proof.
  intros Hi Hg. unfold loop_guard in Hg.
  apply orb_false_iff in Hg. destruct Hg as [Hg Hc].
  apply orb_false_iff in Hg. destruct Hg as [Hr Hq].
  apply nonempty_false in Hr, Hq.
  assert (Hcur : s_current st = None) by (destruct (s_current st); [discriminate|reflexivity]).
  assert (Hp : procs_of st = []).
  { unfold procs_of, current_list. now rewrite Hr, Hq, Hcur. }
  split; [apply (inv_chain Hi)|]. split; [apply Hi|]. split; [apply Hi|].
  intros who Hw. destruct (inv_scheduled Hi who Hw) as [H|H]; [|assumption].
  rewrite Hp in H. contradiction.
Qed.

Lemma inv_init :
  NoDup (map pid procs0) -> NoDup (map oid procs0) ->
  Forall (fun p => 0 < burst p /\ remaining p = burst p) procs0 ->
  inv (init_state procs0).
Proof.
  intros Hp Ho Hb.
  assert (E : procs_of (init_state procs0) = procs0).
  { unfold procs_of, current_list. simpl. now rewrite app_nil_r. }
  constructor; try (rewrite E); try assumption.
  - constructor.
  - reflexivity.
  - apply Forall_forall. intros p Hin.
    pose proof (proj1 (Forall_forall _ _) Hb p Hin) as [H1 H2].
    repeat split; [now apply in_map | assumption | lia].
  - apply chain_nil.
  - intros c i H. discriminate.
  - constructor.
  - constructor.
  - intros who Hw. now left.
Qed.

(** A gap is emitted at every decision point where nothing is ready. *)
Section Gaps.
Hypothesis body_keeps : forall st, inv st ->
  match body st with
  | Next st' => inv st' /\ exists news, s_gantt st' = s_gantt st ++ news
  | Stop g => g = s_gantt st
  | Throw _ => False
  end.
Hypothesis body_idle : forall st, inv st ->
  loop_guard st = true -> candidates (decision_of st) = [] ->
  exists m, py_min_arrival (not_arrived (decision_of st)) = Some m
            /\ body st = Next (idle_state st m).

Lemma reach_inv st :
  inv (init_state procs0) -> reach body (init_state procs0) st -> inv st.
Proof.
  intros H0. induction 1 as [|s s' Hr IH Hb]; [assumption|].
  pose proof (body_keeps IH) as H. rewrite Hb in H. apply H.
Qed.

Lemma gantt_grows : forall fuel st g,
  inv st -> while_loop body fuel st = Returned g -> exists rest, g = s_gantt st ++ rest.
Proof.
  induction fuel as [|fuel IH]; intros st g Hi H; simpl in H; [discriminate|].
  pose proof (body_keeps Hi) as Hb. destruct (body st) as [st'|r|e].
  - destruct Hb as [Hi' [news Hn]]. destruct (IH _ _ Hi' H) as [rest Hr].
    exists (news ++ rest). rewrite Hr, Hn. now rewrite app_assoc.
  - injection H as <-. exists []. now rewrite app_nil_r.
  - discriminate.
Qed.

Lemma gap_emitted fuel g d :
  inv (init_state procs0) ->
  while_loop body fuel (init_state procs0) = Returned g ->
  DP0 d -> idle_condition d -> exists x, In x g /\ gap_at d x.
Proof.
  intros H0 Hw (st & Hr & Hg & ->) [Hc Hn].
  pose proof (reach_inv H0 Hr) as Hi.
  destruct (body_idle Hi Hg Hc) as (m & Hm & Hb).
  destruct (reach_returns Hr _ Hw) as [[|f] Hf]; simpl in Hf; [discriminate|].
  pose proof (body_keeps Hi) as Hk. rewrite Hb in Hf, Hk. destruct Hk as [Hi' _].
  apply gantt_grows in Hf; [|assumption]. destruct Hf as [rest ->].
  exists (idle, s_time st, arrival m). split.
  - unfold idle_state. simpl. apply in_or_app. left. apply in_or_app. right. now left.
  - now apply gap_at_idle.
Qed.
End Gaps.
End Invariant.

(** ** One pass of each loop *)

Lemma procs_perm st :
  Permutation (procs_of st)
    (candidates (decision_of st) ++ not_arrived (decision_of st)).
Proof.
  unfold procs_of, candidates, current_list. simpl.
  destruct (s_current st) as [[c i]|]; simpl;
    rewrite <- (filter_arrived_waiting (s_time st) (s_remaining st)) at 1;
    set (a := filter (arrived (s_time st)) (s_remaining st));
    set (w := filter (waiting (s_time st)) (s_remaining st));
    set (r := s_ready st).
  - rewrite <- !app_assoc.
    transitivity (w ++ a ++ r ++ [c]).
    { rewrite !app_assoc. apply Permutation_app_tail, Permutation_app_tail,
        Permutation_app_comm. }
    transitivity ((a ++ r ++ [c]) ++ w); [apply Permutation_app_comm|].
    rewrite <- !app_assoc. rewrite !app_assoc.
    apply Permutation_app_tail, Permutation_app_tail, Permutation_app_comm.
  - rewrite !app_nil_r.
    transitivity (w ++ a ++ r).
    { rewrite !app_assoc. apply Permutation_app_tail, Permutation_app_comm. }
    transitivity ((a ++ r) ++ w); [apply Permutation_app_comm|].
    apply Permutation_app_tail, Permutation_app_comm.
Qed.

Lemma guard_remaining st :
  loop_guard st = true -> candidates (decision_of st) = [] ->
  not_arrived (decision_of st) <> [].
Proof.
  intros Hg Hc. destruct (candidates_nil st Hc) as (Hr & Hcur & _ & Hn).
  rewrite Hn. unfold loop_guard in Hg. rewrite Hr, Hcur in Hg. simpl in Hg.
  rewrite !orb_false_r in Hg. now apply nonempty_true.
Qed.

Lemma idle_case st :
  loop_guard st = true -> candidates (decision_of st) = [] ->
  nonempty (not_arrived (decision_of st)) = true
  /\ exists m, py_min_arrival (not_arrived (decision_of st)) = Some m
               /\ idle_jump st (ready_set (decision_of st)) (not_arrived (decision_of st))
                  = Next (idle_state st m).
Proof.
  intros Hg Hc. pose proof (guard_remaining st Hg Hc) as Hn. split.
  - now apply nonempty_true.
  - destruct (py_min_arrival_spec Hn) as (m & Hm & _). exists m. split; [assumption|].
    now apply idle_jump_next.
Qed.

(** *** The non-preemptive loops *)

Lemma np_body_cases key guarded st :
  s_current st = None ->
  (loop_guard st = false /\ np_body key guarded st = Stop (s_gantt st))
  \/ (loop_guard st = true /\ candidates (decision_of st) = []
      /\ exists m, py_min_arrival (not_arrived (decision_of st)) = Some m
                   /\ np_body key guarded st = Next (idle_state st m))
  \/ (loop_guard st = true
      /\ exists p ready2, py_sort key (ready_set (decision_of st)) = p :: ready2
                          /\ np_body key guarded st = Next (np_run_state st p ready2)).
Proof.
  intros Hcur. unfold np_body, loop_guard. rewrite Hcur. simpl is_some. rewrite orb_false_r.
  destruct (nonempty (s_remaining st) || nonempty (s_ready st)) eqn:Hg; [|now left].
  right. rewrite admission_spec.
  change (s_ready st ++ filter (arrived (s_time st)) (s_remaining st))
    with (ready_set (decision_of st)).
  change (filter (waiting (s_time st)) (s_remaining st)) with (not_arrived (decision_of st)).
  assert (Hg' : loop_guard st = true).
  { unfold loop_guard. rewrite Hcur. simpl. now rewrite orb_false_r. }
  destruct (ready_set (decision_of st)) as [|p0 l] eqn:Hr.
  - left. assert (Hc : candidates (decision_of st) = []).
    { unfold candidates. rewrite Hr. simpl. now rewrite Hcur. }
    destruct (idle_case st Hg' Hc) as (Hn & m & Hm & Hj). rewrite Hr in Hj.
    rewrite Hn. simpl negb. rewrite andb_false_r. cbv iota.
    repeat split; eauto.
  - right. split; [reflexivity|]. simpl nonempty. simpl negb. cbv iota.
    destruct (py_sort key (p0 :: l)) as [|p ready2] eqn:Hs.
    + apply py_sort_nil in Hs. discriminate.
    + exists p, ready2. split; reflexivity.
Qed.

Lemma np_pass key guarded procs0 st :
  inv (np_body key guarded) procs0 false st ->
  match np_body key guarded st with
  | Next st' =>
      inv (np_body key guarded) procs0 false st' /\ (loop_measure st' < loop_measure st)%nat
  | Stop g => post (np_body key guarded) procs0 g
  | Throw _ => False
  end.
Proof.
  intros Hi. pose proof (inv_cur Hi eq_refl) as Hcur.
  destruct (np_body_cases key guarded st Hcur)
    as [[Hg ->]|[(Hg & Hc & m & Hm & Hb)|(Hg & p & ready2 & Hs & Hb)]].
  - now apply inv_stop with (preemptive := false).
  - rewrite Hb. now apply inv_idle.
  - rewrite Hb.
    assert (Hcand : candidates (decision_of st) = ready_set (decision_of st)).
    { unfold candidates. simpl. rewrite Hcur. simpl. now rewrite app_nil_r. }
    assert (Hperm : Permutation (procs_of st)
                      (p :: (ready2 ++ not_arrived (decision_of st)) ++ [])).
    { rewrite procs_perm, Hcand, app_nil_r.
      transitivity (py_sort key (ready_set (decision_of st)) ++ not_arrived (decision_of st)).
      - apply Permutation_app_tail. symmetry. apply py_sort_perm.
      - rewrite Hs. reflexivity. }
    assert (Hperm' : Permutation (procs_of (np_run_state st p ready2))
                       (ready2 ++ not_arrived (decision_of st))).
    { unfold procs_of, current_list, np_run_state. simpl. rewrite app_nil_r.
      apply Permutation_app_comm. }
    assert (Hin : In p (procs_of st)).
    { apply (Permutation_in _ (Permutation_sym Hperm)). now left. }
    assert (Hinc : In p (candidates (decision_of st))).
    { rewrite Hcand. apply (py_sort_in key). rewrite Hs. now left. }
    pose proof (proj1 (Forall_forall _ _) (inv_from Hi) p Hin) as (_ & Hburst & _).
    assert (Hrun : runs_at (decision_of st) (pid p, s_time st, s_time st + burst p)).
    { split; [reflexivity|]. exists p. auto. }
    split.
    + eapply inv_step with (keep := false) (r' := 0)
        (news := [(pid p, s_time st, s_time st + burst p)]);
        [exact Hi | exact Hb | reflexivity | exact Hperm | exact Hperm' | | | | | | |].
      * discriminate.
      * reflexivity.
      * unfold open_start, np_run_state. simpl. apply chain_snoc; [|lia].
        pose proof (inv_chain Hi) as H. unfold open_start in H. now rewrite Hcur in H.
      * intros c i H. discriminate.
      * constructor; [|constructor]. exists (decision_of st).
        split; [now apply decision_here with (preemptive := false) | now right].
      * constructor; [|constructor]. right. exact (in_map pid _ p Hin).
      * intros q [[]|[_ ->]]. exists (pid p, s_time st, s_time st + burst p).
        split; [apply in_or_app; right; now left|]. split; [reflexivity|].
        exists (decision_of st). split; [now apply decision_here with (preemptive := false)|].
        assumption.
    + apply measure_step.
      eapply weight_step with (keep := false) (r' := 0); [exact Hperm | exact Hperm' |].
      discriminate.
Qed.

(** *** Round Robin *)

Lemma rr_body_cases quantum st :
  s_current st = None ->
  (loop_guard st = false /\ rr_body quantum st = Stop (s_gantt st))
  \/ (loop_guard st = true /\ candidates (decision_of st) = []
      /\ exists m, py_min_arrival (not_arrived (decision_of st)) = Some m
                   /\ rr_body quantum st = Next (idle_state st m))
  \/ (loop_guard st = true
      /\ exists p queue2, ready_set (decision_of st) = p :: queue2
           /\ ((remaining p <= 0 /\ rr_body quantum st = Next (rr_skip_state st queue2))
               \/ (0 < remaining p
                   /\ rr_body quantum st = Next (rr_run_state quantum st p queue2)))).
Proof.
  intros Hcur. unfold rr_body, loop_guard. rewrite Hcur. simpl is_some. rewrite orb_false_r.
  destruct (nonempty (s_remaining st) || nonempty (s_ready st)) eqn:Hg; [|now left].
  right. rewrite admission_spec.
  change (s_ready st ++ filter (arrived (s_time st)) (s_remaining st))
    with (ready_set (decision_of st)).
  change (filter (waiting (s_time st)) (s_remaining st)) with (not_arrived (decision_of st)).
  assert (Hg' : loop_guard st = true).
  { unfold loop_guard. rewrite Hcur. simpl. now rewrite orb_false_r. }
  destruct (ready_set (decision_of st)) as [|p queue2] eqn:Hr.
  - left. assert (Hc : candidates (decision_of st) = []).
    { unfold candidates. rewrite Hr. simpl. now rewrite Hcur. }
    destruct (idle_case st Hg' Hc) as (Hn & m & Hm & Hj). rewrite Hr in Hj.
    rewrite Hn. repeat split; eauto.
  - right. split; [reflexivity|]. exists p, queue2. split; [reflexivity|].
    destruct (Z.leb_spec (remaining p) 0) as [Hle|Hlt].
    + left. split; [assumption | reflexivity].
    + right. split; [assumption|]. rewrite admission_spec. reflexivity.
Qed.

Lemma rr_run_perm quantum st p queue2 :
  Permutation
    (procs_of (rr_run_state quantum st p queue2))
    (if remaining p - Z.min quantum (remaining p) >? 0
     then set_remaining p (remaining p - Z.min quantum (remaining p))
            :: queue2 ++ not_arrived (decision_of st)
     else queue2 ++ not_arrived (decision_of st)).
Proof.
  unfold procs_of, current_list, rr_run_state. cbv zeta. simpl s_remaining. simpl s_ready.
  simpl s_current. rewrite app_nil_r.
  set (e := s_time st + Z.min quantum (remaining p)).
  set (na := not_arrived (decision_of st)).
  simpl remaining.
  pose proof (filter_arrived_waiting e na) as Hsplit.
  assert (H0 : Permutation (filter (waiting e) na ++ queue2 ++ filter (arrived e) na)
                 (queue2 ++ na)).
  { rewrite Permutation_app_comm, <- app_assoc. apply Permutation_app_head. exact Hsplit. }
  destruct (remaining p - Z.min quantum (remaining p) >? 0).
  - rewrite app_assoc. rewrite <- Permutation_cons_append. constructor. exact H0.
  - exact H0.
Qed.

(** Every pass of Round Robin with a positive quantum makes progress, on
    any input. *)
Lemma rr_decreases quantum st :
  0 < quantum -> s_current st = None ->
  match rr_body quantum st with
  | Next st' => s_current st' = None /\ (loop_measure st' < loop_measure st)%nat
  | Stop _ => True
  | Throw _ => False
  end.
Proof.
  intros Hq Hcur.
  assert (Hcand : candidates (decision_of st) = ready_set (decision_of st)).
  { unfold candidates. simpl. rewrite Hcur. simpl. now rewrite app_nil_r. }
  destruct (rr_body_cases quantum st Hcur)
    as [[Hg ->]|[(Hg & Hc & m & Hm & Hb)|(Hg & p & queue2 & Hr & [[Hle Hb]|[Hlt Hb]])]];
    [exact I | | |]; rewrite Hb.
  - split; [exact Hcur|].
    destruct (candidates_nil st Hc) as (Hr & _ & Hf & Hn).
    pose proof (min_arrival_earliest _ Hm) as [Hin _]. rewrite Hn in Hin.
    unfold loop_measure. rewrite Hc. simpl nonempty.
    assert (Hp : procs_of (idle_state st m) = procs_of st).
    { unfold procs_of, current_list, idle_state. simpl. rewrite Hr, Hf, Hcur. simpl.
      change (filter (waiting (s_time st)) (s_remaining st))
        with (not_arrived (decision_of st)).
      now rewrite Hn. }
    rewrite Hp.
    assert (E : nonempty (candidates (decision_of (idle_state st m))) = true).
    { apply nonempty_true. intros E. apply candidates_nil in E. destruct E as (_ & _ & E & _).
      assert (Hm' : In m (filter (arrived (s_time (idle_state st m)))
                           (s_remaining (idle_state st m)))).
      { apply in_arrived. unfold idle_state. simpl.
        change (filter (waiting (s_time st)) (s_remaining st))
          with (not_arrived (decision_of st)).
        rewrite Hn. split; [assumption | lia]. }
      rewrite E in Hm'. contradiction. }
    rewrite E. lia.
  - split; [reflexivity|]. apply measure_step.
    eapply weight_step with (sel := p) (keep := false) (r' := 0) (dropped := [])
      (others := queue2 ++ not_arrived (decision_of st)); [| |discriminate].
    + rewrite procs_perm, Hcand, Hr, app_nil_r. reflexivity.
    + unfold procs_of, current_list, rr_skip_state. simpl. rewrite app_nil_r.
      apply Permutation_app_comm.
  - split; [reflexivity|]. apply measure_step.
    eapply weight_step with (sel := p) (dropped := [])
      (others := queue2 ++ not_arrived (decision_of st)).
    + rewrite procs_perm, Hcand, Hr, app_nil_r. reflexivity.
    + apply rr_run_perm.
    + intros _. lia.
Qed.

Lemma rr_pass quantum procs0 st :
  0 < quantum ->
  inv (rr_body quantum) procs0 false st ->
  match rr_body quantum st with
  | Next st' =>
      inv (rr_body quantum) procs0 false st' /\ (loop_measure st' < loop_measure st)%nat
  | Stop g => post (rr_body quantum) procs0 g
  | Throw _ => False
  end.
Proof.
  intros Hq Hi. pose proof (inv_cur Hi eq_refl) as Hcur.
  pose proof (rr_decreases st Hq Hcur) as Hd.
  assert (Hcand : candidates (decision_of st) = ready_set (decision_of st)).
  { unfold candidates. simpl. rewrite Hcur. simpl. now rewrite app_nil_r. }
  destruct (rr_body_cases quantum st Hcur)
    as [[Hg Hb]|[(Hg & Hc & m & Hm & Hb)|(Hg & p & queue2 & Hr & Hb)]].
  - rewrite Hb. now apply inv_stop with (preemptive := false).
  - rewrite Hb. now apply inv_idle.
  - assert (Hperm : Permutation (procs_of st)
                      (p :: (queue2 ++ not_arrived (decision_of st)) ++ [])).
    { rewrite procs_perm, Hcand, Hr, app_nil_r. reflexivity. }
    assert (Hin : In p (procs_of st)).
    { apply (Permutation_in _ (Permutation_sym Hperm)). now left. }
    pose proof (proj1 (Forall_forall _ _) (inv_from Hi) p Hin) as (_ & _ & Hrem).
    destruct Hb as [[Hle _]|[_ Hb]]; [lia|].
    rewrite Hb in Hd |- *. destruct Hd as [_ Hd]. split; [|exact Hd].
    set (run := Z.min quantum (remaining p)).
    assert (Hrun : 0 < run) by (unfold run; lia).
    assert (Hinc : In p (candidates (decision_of st))).
    { rewrite Hcand, Hr. now left. }
    eapply inv_step with (sel := p) (dropped := [])
      (news := [(pid p, s_time st, s_time st + run)]);
      [exact Hi | exact Hb | reflexivity | exact Hperm | apply rr_run_perm | | | | | | |].
    + intros H. fold run in H. lia.
    + reflexivity.
    + unfold open_start, rr_run_state. simpl. apply chain_snoc; [|fold run; lia].
      pose proof (inv_chain Hi) as H. unfold open_start in H. now rewrite Hcur in H.
    + intros c i H. discriminate.
    + constructor; [|constructor]. exists (decision_of st).
      split; [now apply decision_here with (preemptive := false)|]. right.
      split; [reflexivity|]. exists p. auto.
    + constructor; [|constructor]. right. exact (in_map pid _ p Hin).
    + intros q [[]|[_ ->]]. exists (pid p, s_time st, s_time st + run).
      split; [apply in_or_app; right; now left|]. split; [reflexivity|].
      exists (decision_of st). split; [now apply decision_here with (preemptive := false)|].
      split; [reflexivity|]. exists p. auto.
Qed.

(** *** The preemptive loops *)

Lemma Proc_eqb_pid p q : Proc_eqb p q = true -> pid p = pid q.
Proof.
  unfold Proc_eqb. rewrite !andb_true_iff. intros [[[[H _] _] _] _].
  now apply String.eqb_eq.
Qed.

Lemma py_in_true x l : In x l -> py_in x l = true.
Proof.
  intros H. apply existsb_exists. exists x. split; [assumption | apply Proc_eqb_refl].
Qed.

Lemma py_in_false x l : (forall y, In y l -> pid y <> pid x) -> py_in x l = false.
Proof.
  intros H. destruct (py_in x l) eqn:E; [|reflexivity].
  apply existsb_exists in E. destruct E as (y & Hy & Hq).
  apply Proc_eqb_pid in Hq. now apply H in Hy.
Qed.

Lemma NoDup_map_split {A} (f : Proc -> A) l1 x l2 :
  NoDup (map f (l1 ++ x :: l2)) -> forall y, In y (l1 ++ l2) -> f y <> f x.
Proof.
  rewrite map_app. simpl. intros H y Hy E.
  apply NoDup_remove_2 in H. apply H. rewrite <- map_app, <- E. now apply in_map.
Qed.

Lemma py_remove_nodup x l :
  In x l -> NoDup (map pid l) ->
  exists l1 l2, l = l1 ++ x :: l2 /\ py_remove x l = Some (l1 ++ l2).
Proof.
  intros Hin Hn. apply in_split in Hin. destruct Hin as (l1 & l2 & ->).
  exists l1, l2. split; [reflexivity|]. apply py_remove_here.
  apply Forall_forall. intros y Hy.
  destruct (Proc_eqb y x) eqn:E; [|reflexivity].
  apply Proc_eqb_pid in E. exfalso.
  apply (NoDup_map_split pid l1 x l2 Hn y); [|assumption].
  apply in_or_app. now left.
Qed.

Lemma nonempty_snoc {A} (l : list A) x : nonempty (l ++ [x]) = true.
Proof. destruct l; reflexivity. Qed.

Lemma p_body_cases key st :
  NoDup (map pid (procs_of st)) -> NoDup (map oid (procs_of st)) ->
  (loop_guard st = false /\ p_body key st = Stop (s_gantt st))
  \/ (loop_guard st = true /\ candidates (decision_of st) = []
      /\ exists m, py_min_arrival (not_arrived (decision_of st)) = Some m
                   /\ p_body key st = Next (idle_state st m))
  \/ (loop_guard st = true
      /\ exists chosen l1 l2,
           ready_set (decision_of st) = l1 ++ chosen :: l2
           /\ p_body key st
              = Next (tick_state st (s_gantt st ++ closing st) (l1 ++ l2) chosen (s_time st)))
  \/ (loop_guard st = true
      /\ exists c i, s_current st = Some (c, i)
           /\ p_body key st = Next (tick_state st (s_gantt st) (ready_set (decision_of st)) c i)).
Proof.
  intros Hpid Hoid.
  pose proof (Permutation_NoDup (Permutation_map pid (procs_perm st)) Hpid) as Hpid'.
  pose proof (Permutation_NoDup (Permutation_map oid (procs_perm st)) Hoid) as Hoid'.
  rewrite map_app in Hpid', Hoid'.
  apply NoDup_app_remove_r in Hpid', Hoid'.
  unfold p_body.
  change (nonempty (s_remaining st) || nonempty (s_ready st) || is_some (s_current st))
    with (loop_guard st).
  destruct (loop_guard st) eqn:Hg; [|now left].
  right. rewrite admission_spec.
  change (s_ready st ++ filter (arrived (s_time st)) (s_remaining st))
    with (ready_set (decision_of st)).
  change (filter (waiting (s_time st)) (s_remaining st)) with (not_arrived (decision_of st)).
  unfold candidates in Hpid', Hoid'. unfold closing.
  change (running (decision_of st)) with (option_map fst (s_current st)) in Hpid', Hoid'.
  destruct (s_current st) as [[c i]|] eqn:Hcur; simpl option_map in Hpid', Hoid'.
  - (* a process holds the CPU *)
    right. rewrite nonempty_snoc. simpl negb. cbv iota.
    destruct (py_sort key (ready_set (decision_of st) ++ [c])) as [|chosen tl] eqn:Hs.
    { apply py_sort_nil in Hs. now destruct (ready_set (decision_of st)). }
    assert (Hin : In chosen (ready_set (decision_of st) ++ [c])).
    { apply (py_sort_in key). rewrite Hs. now left. }
    apply in_app_or in Hin. destruct Hin as [Hin|[<-|[]]].
    + (* a ready process takes over *)
      left. split; [reflexivity|].
      assert (Hn : NoDup (map pid (ready_set (decision_of st)))).
      { rewrite map_app in Hpid'. now apply NoDup_app_remove_r in Hpid'. }
      destruct (py_remove_nodup chosen _ Hin Hn) as (l1 & l2 & Hsplit & Hrm).
      exists chosen, l1, l2. split; [assumption|].
      rewrite (py_in_true _ _ Hin), Hrm.
      assert (Hne : pid chosen <> pid c).
      { intros E. rewrite map_app in Hpid'. simpl in Hpid'.
        apply NoDup_remove_2 in Hpid'. apply Hpid'. rewrite app_nil_r, <- E.
        now apply in_map. }
      assert (One : oid chosen <> oid c).
      { intros E. rewrite map_app in Hoid'. simpl in Hoid'.
        apply NoDup_remove_2 in Hoid'. apply Hoid'. rewrite app_nil_r, <- E.
        now apply in_map. }
      apply String.eqb_neq in Hne. rewrite Hne. simpl negb. cbv iota.
      unfold Proc_is. apply Nat.eqb_neq in One. rewrite One.
      unfold tick_state. cbv zeta.
      destruct (remaining (set_remaining chosen (remaining chosen - 1)) =? 0); reflexivity.
    + (* the running process goes on *)
      right. split; [reflexivity|]. exists c, i. split; [reflexivity|].
      rewrite String.eqb_refl. simpl negb. cbv iota.
      rewrite py_in_false.
      * unfold Proc_is. rewrite Nat.eqb_refl. unfold tick_state. cbv zeta.
        destruct (remaining (set_remaining c (remaining c - 1)) =? 0); reflexivity.
      * intros y Hy.
        apply (NoDup_map_split pid _ c [] Hpid'). now rewrite app_nil_r.
  - (* the CPU is free *)
    rewrite app_nil_r.
    destruct (ready_set (decision_of st)) as [|r0 l] eqn:Hr.
    + left. assert (Hc : candidates (decision_of st) = []).
      { unfold candidates. rewrite Hr. simpl. now rewrite Hcur. }
      destruct (idle_case st Hg Hc) as (Hn & m & Hm & Hj). rewrite Hr in Hj.
      simpl negb. cbv iota. rewrite Hn. repeat split; eauto.
    + right. left. split; [reflexivity|]. simpl nonempty. simpl negb. cbv iota.
      destruct (py_sort key (r0 :: l)) as [|chosen tl] eqn:Hs.
      { apply py_sort_nil in Hs. discriminate. }
      assert (Hin : In chosen (r0 :: l)).
      { apply (py_sort_in key). rewrite Hs. now left. }
      assert (Hn : NoDup (map pid (r0 :: l))).
      { now rewrite app_nil_r in Hpid'. }
      destruct (py_remove_nodup chosen _ Hin Hn) as (l1 & l2 & Hsplit & Hrm).
      exists chosen, l1, l2. split; [assumption|].
      rewrite (py_in_true _ _ Hin), Hrm. rewrite app_nil_r.
      unfold tick_state. cbv zeta.
      destruct (remaining (set_remaining chosen (remaining chosen - 1)) =? 0); reflexivity.
Qed.

Lemma tick_state_done st gantt1 ready2 cur istart :
  remaining cur - 1 = 0 ->
  tick_state st gantt1 ready2 cur istart
  = mkState (s_time st + 1) (gantt1 ++ [(pid cur, istart, s_time st + 1)]) ready2
      (not_arrived (decision_of st)) None.
Proof.
  intros H. unfold tick_state. cbv zeta. simpl remaining. rewrite H. reflexivity.
Qed.

Lemma tick_state_going st gantt1 ready2 cur istart :
  remaining cur - 1 <> 0 ->
  tick_state st gantt1 ready2 cur istart
  = mkState (s_time st + 1) gantt1 ready2 (not_arrived (decision_of st))
      (Some (set_remaining cur (remaining cur - 1), istart)).
Proof.
  intros H. unfold tick_state. cbv zeta. simpl remaining.
  apply Z.eqb_neq in H. rewrite H. reflexivity.
Qed.

Lemma tick_pass key procs0 st gantt1 ready2 cur istart news0 dropped :
  inv (p_body key) procs0 true st ->
  loop_guard st = true ->
  p_body key st = Next (tick_state st gantt1 ready2 cur istart) ->
  gantt1 = s_gantt st ++ news0 ->
  Permutation (procs_of st) (cur :: (ready2 ++ not_arrived (decision_of st)) ++ dropped) ->
  chain 0 gantt1 istart -> istart <= s_time st ->
  (exists d, DP0 (p_body key) procs0 d /\ at_time d = istart
             /\ exists q, In q (candidates d) /\ pid q = pid cur) ->
  Forall (explained (DP0 (p_body key) procs0)) news0 ->
  Forall (fun x => actor x = idle \/ In (actor x) (map pid (procs_of st))) news0 ->
  (forall p, In p dropped -> scheduled (DP0 (p_body key) procs0) (pid p) gantt1) ->
  inv (p_body key) procs0 true (tick_state st gantt1 ready2 cur istart)
  /\ (loop_measure (tick_state st gantt1 ready2 cur istart) < loop_measure st)%nat.
Proof.
  intros Hi Hg Hb Hg1 Hperm Hch Hle Hd He Ha Hs.
  assert (Hin : In cur (procs_of st)).
  { apply (Permutation_in _ (Permutation_sym Hperm)). now left. }
  pose proof (proj1 (Forall_forall _ _) (inv_from Hi) cur Hin) as (_ & _ & Hrem).
  assert (Hrun : forall e, exists d, DP0 (p_body key) procs0 d
                   /\ runs_at d (pid cur, istart, e)).
  { intros e. destruct Hd as (d & Hd1 & Hd2 & q & Hq1 & Hq2). exists d. split; [assumption|].
    split; [now rewrite Hd2|]. exists q. auto. }
  destruct (Z.eq_dec (remaining cur - 1) 0) as [E|E].
  - (* the process completes *)
    rewrite (tick_state_done st gantt1 ready2 cur istart E) in Hb |- *.
    set (x := (pid cur, istart, s_time st + 1)).
    set (st' := mkState _ _ _ _ _) in Hb |- *.
    assert (Hperm' : Permutation (procs_of st') (ready2 ++ not_arrived (decision_of st))).
    { unfold procs_of, current_list, st'. simpl. rewrite app_nil_r.
      apply Permutation_app_comm. }
    split.
    + eapply inv_step with (sel := cur) (keep := false) (r' := 0) (news := news0 ++ [x]);
        [exact Hi | exact Hb | | exact Hperm | exact Hperm' | | | | | | |].
      * unfold st'. simpl. rewrite Hg1. now rewrite app_assoc.
      * discriminate.
      * discriminate.
      * unfold open_start, st'. simpl. apply chain_snoc; [assumption | lia].
      * intros c i H. discriminate.
      * apply Forall_app. split; [assumption|]. constructor; [|constructor].
        destruct (Hrun (s_time st + 1)) as (d & Hd1 & Hd2). exists d. auto.
      * apply Forall_app. split; [assumption|]. constructor; [|constructor].
        right. exact (in_map pid _ cur Hin).
      * intros p [Hp|[_ ->]].
        -- unfold st'. simpl. apply scheduled_app. now apply Hs.
        -- exists x. split; [unfold st'; simpl; apply in_or_app; right; now left|].
           split; [reflexivity|]. apply Hrun.
    + apply measure_step.
      eapply weight_step with (keep := false) (r' := 0); [exact Hperm | exact Hperm' |].
      discriminate.
  - (* the process keeps the CPU *)
    rewrite (tick_state_going st gantt1 ready2 cur istart E) in Hb |- *.
    set (cur' := set_remaining cur (remaining cur - 1)) in Hb |- *.
    set (st' := mkState _ _ _ _ _) in Hb |- *.
    assert (Hperm' : Permutation (procs_of st')
                       (cur' :: ready2 ++ not_arrived (decision_of st))).
    { unfold procs_of, current_list, st'. simpl.
      rewrite app_assoc. rewrite <- Permutation_cons_append. constructor.
      apply Permutation_app_comm. }
    split.
    + eapply inv_step with (sel := cur) (keep := true) (r' := remaining cur - 1)
        (news := news0);
        [exact Hi | exact Hb | | exact Hperm | exact Hperm' | | | | | | |].
      * unfold st'. simpl. exact Hg1.
      * intros _. lia.
      * discriminate.
      * unfold open_start, st'. simpl. assumption.
      * intros c i H. unfold st' in H. simpl in H. injection H as <- <-.
        split; [simpl; lia|]. destruct Hd as (d & Hd1 & Hd2 & q & Hq1 & Hq2).
        exists d. repeat split; auto. exists q. auto.
      * assumption.
      * assumption.
      * intros p [Hp|[H _]]; [|discriminate].
        unfold st'. simpl. now apply Hs.
    + apply measure_step.
      eapply weight_step with (keep := true) (r' := remaining cur - 1);
        [exact Hperm | exact Hperm' |]. intros _. lia.
Qed.

Lemma candidates_eq st :
  candidates (decision_of st) = ready_set (decision_of st) ++ current_list st.
Proof.
  unfold candidates, current_list. simpl. now destruct (s_current st) as [[c i]|].
Qed.

Lemma p_pass key procs0 st :
  inv (p_body key) procs0 true st ->
  match p_body key st with
  | Next st' => inv (p_body key) procs0 true st' /\ (loop_measure st' < loop_measure st)%nat
  | Stop g => post (p_body key) procs0 g
  | Throw _ => False
  end.
Proof.
  intros Hi.
  destruct (p_body_cases key st (inv_pids Hi) (inv_oids Hi))
    as [[Hg ->]|[(Hg & Hc & m & Hm & Hb)
       |[(Hg & chosen & l1 & l2 & Hr & Hb)|(Hg & c & i & Hcur & Hb)]]].
  - now apply inv_stop with (preemptive := true).
  - rewrite Hb. now apply inv_idle.
  - rewrite Hb.
    assert (Hinc : In chosen (candidates (decision_of st))).
    { rewrite candidates_eq, Hr. apply in_or_app. left. apply in_or_app. right. now left. }
    eapply tick_pass with (news0 := closing st) (dropped := current_list st);
      [exact Hi | exact Hg | exact Hb | reflexivity | | | lia | | | |].
    + rewrite procs_perm, candidates_eq, Hr.
      rewrite <- !app_assoc. simpl.
      rewrite <- Permutation_middle. constructor.
      apply Permutation_app_head, Permutation_app_head, Permutation_app_comm.
    + pose proof (inv_chain Hi) as H. unfold open_start, closing in *.
      destruct (s_current st) as [[c i]|] eqn:Hcur.
      * apply chain_snoc; [assumption|]. apply (inv_open Hi Hcur).
      * now rewrite app_nil_r.
    + exists (decision_of st). split; [now apply decision_here with (preemptive := true)|].
      split; [reflexivity|]. exists chosen. auto.
    + unfold closing. destruct (s_current st) as [[c i]|] eqn:Hcur; [|constructor].
      constructor; [|constructor].
      destruct (inv_open Hi Hcur) as (_ & d & Hd1 & Hd2 & q & Hq1 & Hq2).
      exists d. split; [assumption|]. right. split; [now rewrite Hd2|]. exists q. auto.
    + unfold closing. destruct (s_current st) as [[c i]|] eqn:Hcur; [|constructor].
      constructor; [|constructor]. right.
      apply (in_map pid (procs_of st) c). unfold procs_of, current_list. rewrite Hcur.
      apply in_or_app. right. apply in_or_app. right. now left.
    + unfold current_list, closing. intros p Hp.
      destruct (s_current st) as [[c i]|] eqn:Hcur; [|contradiction].
      destruct Hp as [<-|[]].
      destruct (inv_open Hi Hcur) as (_ & d & Hd1 & Hd2 & q & Hq1 & Hq2).
      exists (pid c, i, s_time st). split; [apply in_or_app; right; now left|].
      split; [reflexivity|]. exists d. split; [assumption|].
      split; [now rewrite Hd2|]. exists q. auto.
  - rewrite Hb.
    destruct (inv_open Hi Hcur) as (Hlt & Hd).
    eapply tick_pass with (news0 := []) (dropped := []);
      [exact Hi | exact Hg | exact Hb | symmetry; apply app_nil_r | | | lia | exact Hd
      | constructor | constructor | intros p []].
    + rewrite procs_perm, candidates_eq. unfold current_list. rewrite Hcur.
      rewrite app_nil_r, <- app_assoc. simpl. symmetry. apply Permutation_middle.
    + pose proof (inv_chain Hi) as H. unfold open_start in H. now rewrite Hcur in H.
Qed.

(** ** Running a loop to its end *)

Section Run.
Variable body : loop_state -> flow loop_state timeline.
Variable procs0 : list Proc.
Variable preemptive : bool.

(** What the case analyses of the three loops have in common. *)
Hypothesis body_spec : forall st, inv body procs0 preemptive st ->
  (loop_guard st = false /\ body st = Stop (s_gantt st))
  \/ (loop_guard st = true /\ candidates (decision_of st) = []
      /\ exists m, py_min_arrival (not_arrived (decision_of st)) = Some m
                   /\ body st = Next (idle_state st m))
  \/ (loop_guard st = true /\ candidates (decision_of st) <> []
      /\ exists st' news, body st = Next st' /\ s_gantt st' = s_gantt st ++ news
           /\ inv body procs0 preemptive st' /\ (loop_measure st' < loop_measure st)%nat).

Lemma run_pass st : inv body procs0 preemptive st ->
  match body st with
  | Next st' => inv body procs0 preemptive st' /\ (loop_measure st' < loop_measure st)%nat
  | Stop g => post body procs0 g
  | Throw _ => False
  end.
Proof.
  intros Hi.
  destruct (body_spec Hi)
    as [[Hg ->]|[(Hg & Hc & m & Hm & Hb)|(Hg & Hc & st' & news & -> & _ & H)]].
  - now apply inv_stop with (preemptive := preemptive).
  - rewrite Hb. now apply inv_idle.
  - exact H.
Qed.

Lemma run_keeps st : inv body procs0 preemptive st ->
  match body st with
  | Next st' => inv body procs0 preemptive st' /\ exists news, s_gantt st' = s_gantt st ++ news
  | Stop g => g = s_gantt st
  | Throw _ => False
  end.
Proof.
  intros Hi. pose proof (run_pass Hi) as Hp.
  destruct (body_spec Hi)
    as [[Hg Hb]|[(Hg & Hc & m & Hm & Hb)|(Hg & Hc & st' & news & Hb & Hn & _)]];
    rewrite Hb in Hp |- *.
  - reflexivity.
  - split; [apply Hp|]. eexists. reflexivity.
  - split; [apply Hp|]. eauto.
Qed.

Lemma run_idle st : inv body procs0 preemptive st ->
  loop_guard st = true -> candidates (decision_of st) = [] ->
  exists m, py_min_arrival (not_arrived (decision_of st)) = Some m
            /\ body st = Next (idle_state st m).
Proof.
  intros Hi Hg Hc.
  destruct (body_spec Hi) as [[Hg' _]|[(_ & _ & H)|(_ & Hc' & _)]];
    [congruence | exact H | contradiction].
Qed.

Theorem loop_total :
  inv body procs0 preemptive (init_state procs0) ->
  exists g,
    while_loop body (Datatypes.S (loop_measure (init_state procs0))) (init_state procs0)
    = Returned g
    /\ post body procs0 g
    /\ (forall d, DP0 body procs0 d -> idle_condition d -> exists x, In x g /\ gap_at d x)
    /\ (forall d p, DP0 body procs0 d -> In p (candidates d) ->
          In (pid p) (map pid procs0)).
Proof.
  intros H0.
  destruct (while_loop_total body (inv body procs0 preemptive) (post body procs0)
              loop_measure run_pass (init_state procs0) H0) as (g & Hw & Hp).
  exists g. split; [exact Hw|]. split; [exact Hp|]. split.
  - intros d Hd Hidle.
    exact (gap_emitted (preemptive := preemptive) run_keeps run_idle _ H0 Hw Hd Hidle).
  - intros d p (st & Hr & _ & ->) Hin.
    pose proof (reach_inv (preemptive := preemptive) run_keeps H0 Hr) as Hi.
    assert (Hp' : In p (procs_of st)).
    { apply (Permutation_in _ (Permutation_sym (procs_perm st))).
      apply in_or_app. now left. }
    apply (proj1 (Forall_forall _ _) (inv_from Hi) p Hp').
Qed.
End Run.

Lemma np_spec key guarded procs0 st :
  inv (np_body key guarded) procs0 false st ->
  (loop_guard st = false /\ np_body key guarded st = Stop (s_gantt st))
  \/ (loop_guard st = true /\ candidates (decision_of st) = []
      /\ exists m, py_min_arrival (not_arrived (decision_of st)) = Some m
                   /\ np_body key guarded st = Next (idle_state st m))
  \/ (loop_guard st = true /\ candidates (decision_of st) <> []
      /\ exists st' news, np_body key guarded st = Next st'
           /\ s_gantt st' = s_gantt st ++ news
           /\ inv (np_body key guarded) procs0 false st'
           /\ (loop_measure st' < loop_measure st)%nat).
Proof.
  intros Hi. pose proof (np_pass Hi) as Hp. pose proof (inv_cur Hi eq_refl) as Hcur.
  destruct (np_body_cases key guarded st Hcur)
    as [H|[H|(Hg & p & ready2 & Hs & Hb)]]; [now left | right; now left |].
  right. right. split; [assumption|]. split.
  - rewrite candidates_eq. unfold current_list. rewrite Hcur, app_nil_r.
    intros E. rewrite E in Hs. discriminate.
  - rewrite Hb in Hp. eexists. eexists. split; [exact Hb|]. split; [reflexivity | exact Hp].
Qed.

Lemma rr_spec quantum procs0 st :
  0 < quantum ->
  inv (rr_body quantum) procs0 false st ->
  (loop_guard st = false /\ rr_body quantum st = Stop (s_gantt st))
  \/ (loop_guard st = true /\ candidates (decision_of st) = []
      /\ exists m, py_min_arrival (not_arrived (decision_of st)) = Some m
                   /\ rr_body quantum st = Next (idle_state st m))
  \/ (loop_guard st = true /\ candidates (decision_of st) <> []
      /\ exists st' news, rr_body quantum st = Next st'
           /\ s_gantt st' = s_gantt st ++ news
           /\ inv (rr_body quantum) procs0 false st'
           /\ (loop_measure st' < loop_measure st)%nat).
Proof.
  intros Hq Hi. pose proof (rr_pass Hq Hi) as Hp. pose proof (inv_cur Hi eq_refl) as Hcur.
  destruct (rr_body_cases quantum st Hcur)
    as [H|[H|(Hg & p & queue2 & Hr & Hb)]]; [now left | right; now left |].
  right. right. split; [assumption|]. split.
  - rewrite candidates_eq. unfold current_list. rewrite Hcur, app_nil_r, Hr. discriminate.
  - destruct Hb as [[_ Hb]|[_ Hb]]; rewrite Hb in Hp.
    + exists (rr_skip_state st queue2), []. split; [exact Hb|].
      split; [symmetry; apply app_nil_r | exact Hp].
    + eexists. eexists. split; [exact Hb|]. split; [reflexivity | exact Hp].
Qed.

Lemma tick_state_gantt st gantt1 ready2 cur istart :
  exists news, s_gantt (tick_state st gantt1 ready2 cur istart) = gantt1 ++ news.
Proof.
  unfold tick_state. cbv zeta.
  destruct (remaining (set_remaining cur (remaining cur - 1)) =? 0); simpl.
  - eexists. reflexivity.
  - exists []. now rewrite app_nil_r.
Qed.

Lemma p_spec key procs0 st :
  inv (p_body key) procs0 true st ->
  (loop_guard st = false /\ p_body key st = Stop (s_gantt st))
  \/ (loop_guard st = true /\ candidates (decision_of st) = []
      /\ exists m, py_min_arrival (not_arrived (decision_of st)) = Some m
                   /\ p_body key st = Next (idle_state st m))
  \/ (loop_guard st = true /\ candidates (decision_of st) <> []
      /\ exists st' news, p_body key st = Next st'
           /\ s_gantt st' = s_gantt st ++ news
           /\ inv (p_body key) procs0 true st'
           /\ (loop_measure st' < loop_measure st)%nat).
Proof.
  intros Hi. pose proof (p_pass Hi) as Hp.
  destruct (p_body_cases key st (inv_pids Hi) (inv_oids Hi))
    as [H|[H|[(Hg & chosen & l1 & l2 & Hr & Hb)|(Hg & c & i & Hcur & Hb)]]];
    [now left | right; now left | |]; right; right; (split; [assumption|]);
    rewrite Hb in Hp.
  - split.
    + rewrite candidates_eq, Hr. now destruct l1.
    + destruct (tick_state_gantt st (s_gantt st ++ closing st) (l1 ++ l2) chosen (s_time st))
        as [news Hn].
      eexists. exists (closing st ++ news). split; [exact Hb|].
      split; [now rewrite Hn, app_assoc | exact Hp].
  - split.
    + rewrite candidates_eq. unfold current_list. rewrite Hcur.
      now destruct (ready_set (decision_of st)).
    + destruct (tick_state_gantt st (s_gantt st) (ready_set (decision_of st)) c i)
        as [news Hn].
      eexists. exists news. split; [exact Hb|]. split; [exact Hn | exact Hp].
Qed.

(** ** The copies the loops work on *)

Lemma copy_from_pid procs : forall i, map pid (copy_from i procs) = map pid procs.
Proof. induction procs as [|p l IH]; intros i; simpl; [reflexivity|]. now rewrite IH. Qed.

Lemma copy_from_oid procs : forall i,
  map oid (copy_from i procs) = seq i (List.length procs).
Proof. induction procs as [|p l IH]; intros i; simpl; [reflexivity|]. now rewrite IH. Qed.

Lemma copy_from_burst procs : forall i,
  Forall (fun p => 0 < burst p) procs ->
  Forall (fun p => 0 < burst p /\ remaining p = burst p) (copy_from i procs).
Proof.
  induction procs as [|p l IH]; intros i H; simpl; constructor.
  - inversion H; subst. simpl. auto.
  - inversion H; subst. now apply IH.
Qed.

Lemma well_formed_burst procs : well_formed procs -> Forall (fun p => 0 < burst p) procs.
Proof.
  intros [H _]. eapply Forall_impl; [|exact H]. simpl. intros p Hp. apply Hp.
Qed.

Lemma inv_copies body preemptive procs :
  well_formed procs ->
  inv body (copy_procs procs) preemptive (init_state (copy_procs procs)).
Proof.
  intros Hwf. apply inv_init.
  - unfold copy_procs. rewrite copy_from_pid. apply Hwf.
  - unfold copy_procs. rewrite copy_from_oid. apply seq_NoDup.
  - apply copy_from_burst. now apply well_formed_burst.
Qed.

Lemma loop_run_ok body preemptive procs :
  (forall st, inv body (copy_procs procs) preemptive st ->
     (loop_guard st = false /\ body st = Stop (s_gantt st))
     \/ (loop_guard st = true /\ candidates (decision_of st) = []
         /\ exists m, py_min_arrival (not_arrived (decision_of st)) = Some m
                      /\ body st = Next (idle_state st m))
     \/ (loop_guard st = true /\ candidates (decision_of st) <> []
         /\ exists st' news, body st = Next st' /\ s_gantt st' = s_gantt st ++ news
              /\ inv body (copy_procs procs) preemptive st'
              /\ (loop_measure st' < loop_measure st)%nat)) ->
  well_formed procs ->
  exists g fuel,
    while_loop body fuel (init_state (copy_procs procs)) = Returned g
    /\ run_ok (loop_decisions body (init_state (copy_procs procs))) procs g.
Proof.
  intros Hspec Hwf.
  destruct (loop_total Hspec (inv_copies body preemptive Hwf)) as (g & Hw & Hp & Hgap & Hc).
  exists g. eexists. split; [exact Hw|].
  destruct Hp as (H1 & H2 & H3 & H4).
  unfold actor_ok, copy_procs in H3, H4, Hc. rewrite copy_from_pid in H3, H4, Hc.
  repeat split; assumption.
Qed.

(** ** fcfs *)

Lemma insert_sorted_in key x s y : In y (insert_sorted key x s) <-> y = x \/ In y s.
Proof.
  split.
  - intros H. apply (Permutation_in _ (insert_sorted_perm key x s)) in H.
    destruct H; auto.
  - intros H. apply (Permutation_in _ (Permutation_sym (insert_sorted_perm key x s))).
    destruct H; [left | right]; auto.
Qed.

Lemma py_sort_arrival l :
  StronglySorted (fun a b => arrival a <= arrival b) (py_sort key_arrival l).
Proof.
  induction l as [|x l IH]; simpl; [constructor|].
  induction IH as [|y s Hs IHs Hy]; simpl; [repeat constructor|].
  destruct (Z.ltb_spec (arrival y) (arrival x)) as [Hlt|Hge].
  - constructor; [exact IHs|].
    apply Forall_forall. intros z Hz. apply insert_sorted_in in Hz.
    destruct Hz as [->|Hz]; [lia|].
    now apply (proj1 (Forall_forall _ _) Hy).
  - destruct (Z.ltb_spec (arrival x) (arrival y)) as [Hlt|Hge'].
    + constructor; [now constructor|]. constructor; [lia|].
      eapply Forall_impl; [|exact Hy]. simpl. intros; lia.
    + constructor; [now constructor|]. constructor; [lia|].
      eapply Forall_impl; [|exact Hy]. simpl. intros; lia.
Qed.

Lemma sorted_suffix done : forall p rest,
  StronglySorted (fun a b => arrival a <= arrival b) (done ++ p :: rest) ->
  Forall (fun q => arrival p <= arrival q) rest.
Proof.
  induction done as [|x done IH]; intros p rest H; simpl in H; inversion H; subst.
  - assumption.
  - now apply IH.
Qed.

Lemma split_unique {A} (l1 : list A) : forall l1' x x' l2 l2',
  l1 ++ x :: l2 = l1' ++ x' :: l2' -> List.length l1 = List.length l1' ->
  l1 = l1' /\ x = x' /\ l2 = l2'.
Proof.
  induction l1 as [|a l1 IH]; intros [|a' l1'] x x' l2 l2' H Hl; simpl in *; try discriminate.
  - injection H as -> ->. auto.
  - injection H as -> H. injection Hl as Hl.
    destruct (IH _ _ _ _ _ H Hl) as (-> & -> & ->). auto.
Qed.

Lemma fold_left_prefix_ind {A B} (f : A -> B -> A) (P : list B -> A -> Prop)
  (l : list B) (a0 : A) :
  P [] a0 ->
  (forall done x rest, l = done ++ x :: rest ->
     P done (fold_left f done a0) -> P (done ++ [x]) (f (fold_left f done a0) x)) ->
  P l (fold_left f l a0).
Proof.
  intros H0 Hstep.
  assert (G : forall rest done, l = done ++ rest ->
                P done (fold_left f done a0) -> P l (fold_left f l a0)).
  { induction rest as [|x rest IH]; intros done Hl Hd.
    - rewrite app_nil_r in Hl. now subst.
    - apply (IH (done ++ [x])).
      + now rewrite <- app_assoc.
      + rewrite fold_left_app. simpl. now apply (Hstep done x rest). }
  apply (G l []); auto.
Qed.

Lemma candidates_at t l : candidates (decision_at t l) = filter (arrived t) l.
Proof. unfold candidates, decision_at. cbn [ready_set running]. apply app_nil_r. Qed.

Lemma decision_at_ready t p rest :
  arrival p <= t -> In p (candidates (decision_at t (p :: rest))).
Proof.
  intros H. unfold candidates, decision_at. simpl. rewrite app_nil_r.
  unfold arrived at 1. apply Z.leb_le in H. rewrite H. now left.
Qed.

Lemma decision_at_gap t p rest :
  t < arrival p -> Forall (fun q => arrival p <= arrival q) rest ->
  gap_at (decision_at t (p :: rest)) (idle, t, arrival p).
Proof.
  intros Hlt Hs.
  assert (Hall : Forall (fun q => t < arrival q) (p :: rest)).
  { constructor; [assumption|]. eapply Forall_impl; [|exact Hs]. simpl. intros; lia. }
  assert (Ha : filter (arrived t) (p :: rest) = []).
  { apply (proj1 (Forall_forall _ _)) with (x := p) in Hall as Hp; [|now left].
    destruct (filter (arrived t) (p :: rest)) as [|q l] eqn:E; [reflexivity|].
    assert (Hq : In q (filter (arrived t) (p :: rest))) by (rewrite E; now left).
    apply in_arrived in Hq. destruct Hq as [Hq1 Hq2].
    pose proof (proj1 (Forall_forall _ _) Hall q Hq1). simpl in *. lia. }
  assert (Hw : filter (waiting t) (p :: rest) = p :: rest) by now apply filter_waiting_all.
  unfold gap_at, idle_condition.
  change (candidates (decision_at t (p :: rest))) with (filter (arrived t) (p :: rest) ++ []).
  change (not_arrived (decision_at t (p :: rest))) with (filter (waiting t) (p :: rest)).
  rewrite Ha, Hw.
  split; [split; [reflexivity | discriminate]|].
  split; [reflexivity|]. split; [reflexivity|]. split.
  - exists p. split; [now left | reflexivity].
  - constructor; [simpl; lia | assumption].
Qed.

Lemma scheduled_mono DP who g news : scheduled DP who g -> scheduled DP who (g ++ news).
Proof.
  intros (x & Hx & H). exists x. split; [|assumption]. apply in_or_app. now left.
Qed.

Lemma gap_mono (d : decision) (g news : timeline) :
  (exists x, In x g /\ gap_at d x) -> exists x, In x (g ++ news) /\ gap_at d x.
Proof.
  intros (x & Hx & H). exists x. split; [|assumption]. apply in_or_app. now left.
Qed.

Lemma fcfs_step procs done p rest st :
  well_formed procs ->
  py_sort key_arrival procs = done ++ p :: rest ->
  st = fold_left fcfs_body done (0, []) ->
  fcfs_inv procs done st -> fcfs_inv procs (done ++ [p]) (fcfs_body st p).
Proof.
  intros Hwf Hsort Hst (Hch & Hex & Hac & Hsc & Hgap).
  assert (Hp : In p procs).
  { apply (py_sort_in key_arrival). rewrite Hsort. apply in_or_app. right. now left. }
  pose proof (proj1 (Forall_forall _ _) (well_formed_burst Hwf) p Hp) as Hburst.
  simpl in Hburst.
  assert (Hs : Forall (fun q => arrival p <= arrival q) rest).
  { apply (sorted_suffix done). rewrite <- Hsort. apply py_sort_arrival. }
  destruct st as [t g]. simpl fst in *. simpl snd in *.
  assert (Ht : fst (fold_left fcfs_body done (0, [])) = t) by now rewrite <- Hst.
  assert (Hd1 : fcfs_decisions procs (decision_at t (p :: rest))).
  { exists done, p, rest. split; [assumption|]. cbv zeta. rewrite Ht. now left. }
  assert (Hnew : forall d, fcfs_decisions_upto procs (List.length (done ++ [p])) d ->
            fcfs_decisions_upto procs (List.length done) d
            \/ d = decision_at t (p :: rest)
            \/ (t < arrival p /\ d = decision_at (arrival p) (p :: rest))).
  { intros d (done' & p' & rest' & Hs' & Hlen & Hd).
    rewrite length_app in Hlen. simpl in Hlen.
    destruct (Nat.eq_dec (List.length done') (List.length done)) as [E|E].
    - right. rewrite Hsort in Hs'.
      destruct (split_unique _ _ _ _ _ _ Hs' (eq_sym E)) as (E1 & E2 & E3). subst done' p' rest'.
      cbv zeta in Hd. now rewrite Ht in Hd.
    - left. exists done', p', rest'. repeat split; [assumption | lia | assumption]. }
  assert (Hpid : In (pid p) (map pid procs)) by now apply in_map.
  unfold fcfs_body.
  destruct (Z.ltb_spec t (arrival p)) as [Hlt|Hge].
  - (* the CPU waits for [p] *)
    set (x1 := (idle, t, arrival p)).
    set (x2 := (pid p, arrival p, arrival p + burst p)).
    assert (Hd2 : fcfs_decisions procs (decision_at (arrival p) (p :: rest))).
    { exists done, p, rest. split; [assumption|]. cbv zeta. rewrite Ht. now right. }
    assert (Hg1 : gap_at (decision_at t (p :: rest)) x1) by now apply decision_at_gap.
    assert (Hr2 : runs_at (decision_at (arrival p) (p :: rest)) x2).
    { split; [reflexivity|]. exists p. split; [apply decision_at_ready; lia | reflexivity]. }
    split; [|split; [|split; [|split]]]; simpl fst; simpl snd.
    + apply chain_snoc; [|lia]. now apply chain_snoc.
    + apply Forall_app. split; [apply Forall_app; split; [assumption|]|].
      * constructor; [|constructor]. exists (decision_at t (p :: rest)). auto.
      * constructor; [|constructor]. exists (decision_at (arrival p) (p :: rest)). auto.
    + apply Forall_app. split; [apply Forall_app; split; [assumption|]|].
      * constructor; [now left | constructor].
      * constructor; [now right | constructor].
    + intros q Hq. apply in_app_or in Hq. destruct Hq as [Hq|[<-|[]]].
      * rewrite <- app_assoc. apply scheduled_mono. now apply Hsc.
      * exists x2. split; [apply in_or_app; right; now left|].
        split; [reflexivity|]. eauto.
    + intros d Hd Hidle. destruct (Hnew d Hd) as [Hold|[->|[_ ->]]].
      * rewrite <- app_assoc. apply gap_mono. now apply Hgap.
      * exists x1. split; [|assumption].
        apply in_or_app. left. apply in_or_app. right. now left.
      * exfalso. destruct Hidle as [Hc _].
        pose proof (@decision_at_ready (arrival p) p rest (Z.le_refl _)) as Hin.
        rewrite Hc in Hin. contradiction.
  - (* [p] has arrived *)
    set (x2 := (pid p, t, t + burst p)).
    assert (Hr2 : runs_at (decision_at t (p :: rest)) x2).
    { split; [reflexivity|]. exists p. split; [apply decision_at_ready; lia | reflexivity]. }
    split; [|split; [|split; [|split]]]; simpl fst; simpl snd.
    + apply chain_snoc; [assumption | lia].
    + apply Forall_app. split; [assumption|].
      constructor; [|constructor]. exists (decision_at t (p :: rest)). auto.
    + apply Forall_app. split; [assumption|].
      constructor; [now right | constructor].
    + intros q Hq. apply in_app_or in Hq. destruct Hq as [Hq|[<-|[]]].
      * apply scheduled_mono. now apply Hsc.
      * exists x2. split; [apply in_or_app; right; now left|].
        split; [reflexivity|]. eauto.
    + intros d Hd Hidle. destruct (Hnew d Hd) as [Hold|[->|[Hlt _]]]; [| |lia].
      * apply gap_mono. now apply Hgap.
      * exfalso. destruct Hidle as [Hc _].
        pose proof (@decision_at_ready t p rest Hge) as Hin.
        rewrite Hc in Hin. contradiction.
Qed.

Lemma fcfs_run_ok procs :
  well_formed procs -> run_ok (fcfs_decisions procs) procs (fcfs procs).
Proof.
  intros Hwf.
  assert (H : fcfs_inv procs (py_sort key_arrival procs)
                (fold_left fcfs_body (py_sort key_arrival procs) (0, []))).
  { apply (fold_left_prefix_ind fcfs_body (fcfs_inv procs)).
    - split; [apply chain_nil|]. split; [constructor|]. split; [constructor|].
      split; [intros p []|]. intros d (done & p & rest & _ & Hlen & _). simpl in Hlen. lia.
    - intros done x rest Hsort Hinv. now apply (@fcfs_step procs done x rest _ Hwf Hsort eq_refl). }
  destruct H as (Hch & Hex & Hac & Hsc & Hgap). unfold fcfs.
  split; [apply Hch|]. split; [assumption|]. split; [assumption|]. split.
  - intros who Hw. apply in_map_iff in Hw. destruct Hw as (p & <- & Hp).
    apply Hsc. now apply (py_sort_in key_arrival).
  - split.
    + intros d (done & p & rest & Hsort & Hd) Hidle. apply Hgap; [|assumption].
      exists done, p, rest. split; [assumption|]. split; [|assumption].
      rewrite Hsort, length_app. simpl. lia.
    + intros d q (done & p & rest & Hsort & Hd) Hq.
      assert (Hin : In q (p :: rest)).
      { cbv zeta in Hd. destruct Hd as [->|[_ ->]];
          rewrite candidates_at in Hq; apply filter_In in Hq; apply Hq. }
      apply in_map. apply (py_sort_in key_arrival). rewrite Hsort.
      apply in_or_app. now right.
Qed.

(** ** The six policies *)

Lemma known_key_cases (algorithm : string) :
  In algorithm known_keys ->
  algorithm = "fcfs"%string \/ algorithm = "sjf-np"%string \/ algorithm = "sjf-p"%string
  \/ algorithm = "rr"%string \/ algorithm = "priority-np"%string
  \/ algorithm = "priority-p"%string.
Proof.
  unfold known_keys. simpl. intuition.
Qed.

(** Every policy, on a well-formed input (and a positive quantum for
    Round Robin), returns a timeline with the guarantees of [run_ok]. *)
Lemma engine_ok algorithm quantum procs :
  In algorithm known_keys -> well_formed procs ->
  (algorithm = "rr"%string -> 0 < quantum) ->
  exists g fuel,
    select_algorithm fuel algorithm quantum procs = Returned g
    /\ run_ok (decision_points algorithm quantum procs) procs g.
Proof.
  intros Hk Hwf Hq.
  destruct (known_key_cases Hk) as [-> | [-> | [-> | [-> | [-> | ->]]]]];
    unfold select_algorithm, decision_points; simpl String.eqb; cbv iota.
  - exists (fcfs procs), 0%nat. split; [reflexivity | now apply fcfs_run_ok].
  - apply loop_run_ok with (preemptive := false); [|assumption].
    intros st. apply np_spec.
  - apply loop_run_ok with (preemptive := true); [|assumption].
    intros st. apply p_spec.
  - apply loop_run_ok with (preemptive := false); [|assumption].
    intros st. apply rr_spec. now apply Hq.
  - apply loop_run_ok with (preemptive := false); [|assumption].
    intros st. apply np_spec.
  - apply loop_run_ok with (preemptive := true); [|assumption].
    intros st. apply p_spec.
Qed.

(** Round Robin with a positive quantum returns on every input, well-formed
    or not. *)
Lemma round_robin_returns procs quantum :
  0 < quantum -> exists fuel g, round_robin fuel procs quantum = Returned g.
Proof.
  intros Hq. unfold round_robin.
  destruct (while_loop_total (rr_body quantum) (fun st => s_current st = None)
              (fun _ => True) loop_measure) with (s := init_state (copy_procs procs))
    as (g & Hw & _).
  - intros st Hcur. pose proof (rr_decreases st Hq Hcur) as H.
    destruct (rr_body quantum st); auto.
  - reflexivity.
  - eauto.
Qed.

(** ** Dictionaries *)

Lemma dict_get_set_same {V} k (v : V) d : dict_get k (dict_set k v d) = Some v.
Proof.
  induction d as [|[k' v'] d IH]; simpl.
  - now rewrite String.eqb_refl.
  - destruct (String.eqb k' k) eqn:E; simpl; rewrite E; [reflexivity | exact IH].
Qed.

Lemma dict_get_set_other {V} k k' (v : V) d :
  k <> k' -> dict_get k' (dict_set k v d) = dict_get k' d.
Proof.
  intros Hne. induction d as [|[k0 v0] d IH]; simpl.
  - apply String.eqb_neq in Hne. now rewrite Hne.
  - destruct (String.eqb k0 k) eqn:E; simpl.
    + apply String.eqb_eq in E. subst k0.
      apply String.eqb_neq in Hne. now rewrite Hne.
    + now rewrite IH.
Qed.

Lemma dict_get_in {V} k (d : dict V) : In k (keys d) <-> dict_get k d <> None.
Proof.
  induction d as [|[k' v'] d IH]; simpl.
  - split; [contradiction | congruence].
  - destruct (String.eqb k' k) eqn:E.
    + apply String.eqb_eq in E. split; [discriminate | auto].
    + apply String.eqb_neq in E. rewrite <- IH. split; [intros [H|H]; [contradiction|auto] | auto].
Qed.

Lemma keys_set_old {V} k (v : V) d : In k (keys d) -> keys (dict_set k v d) = keys d.
Proof.
  induction d as [|[k' v'] d IH]; simpl; [contradiction|].
  intros H. destruct (String.eqb k' k) eqn:E; simpl; [reflexivity|].
  apply String.eqb_neq in E. destruct H as [H|H]; [contradiction|]. now rewrite IH.
Qed.

Lemma dict_set_new {V} k (v : V) d : ~ In k (keys d) -> dict_set k v d = d ++ [(k, v)].
Proof.
  induction d as [|[k' v'] d IH]; simpl; [reflexivity|].
  intros H. destruct (String.eqb k' k) eqn:E.
  - apply String.eqb_eq in E. subst. exfalso. apply H. now left.
  - rewrite IH; [reflexivity|]. intros Hin. apply H. now right.
Qed.

Lemma keys_set_in {V} k (v : V) d k' :
  In k' (keys (dict_set k v d)) <-> k' = k \/ In k' (keys d).
Proof.
  induction d as [|[k0 v0] d IH]; simpl.
  - intuition.
  - destruct (String.eqb k0 k) eqn:E; simpl.
    + apply String.eqb_eq in E. subst. intuition.
    + rewrite IH. intuition.
Qed.

Lemma keys_set_NoDup {V} k (v : V) d : NoDup (keys d) -> NoDup (keys (dict_set k v d)).
Proof.
  induction d as [|[k0 v0] d IH]; simpl; intros H.
  - repeat constructor. intros [].
  - inversion H as [|? ? Hn Hd]; subst.
    destruct (String.eqb k0 k) eqn:E; simpl; [assumption|].
    constructor; [|now apply IH].
    rewrite keys_set_in. intros [->|Hin]; [|contradiction].
    now rewrite String.eqb_refl in E.
Qed.

Lemma dict_set_entries {V} k (v : V) d kv :
  In kv (dict_set k v d) -> kv = (k, v) \/ In kv d.
Proof.
  induction d as [|[k0 v0] d IH]; simpl.
  - intuition.
  - destruct (String.eqb k0 k) eqn:E; simpl.
    + apply String.eqb_eq in E. subst. intuition.
    + intros [H|H]; [auto|]. apply IH in H. intuition.
Qed.

Lemma dict_get_entry {V} k (v : V) d : NoDup (keys d) -> In (k, v) d -> dict_get k d = Some v.
Proof.
  induction d as [|[k0 v0] d IH]; simpl; [contradiction|].
  intros Hn [H|H]; inversion Hn as [|? ? Hnin Hd]; subst.
  - injection H as -> ->. now rewrite String.eqb_refl.
  - destruct (String.eqb k0 k) eqn:E.
    + apply String.eqb_eq in E. subst. exfalso. apply Hnin.
      change k with (fst (k, v)). now apply in_map.
    + now apply IH.
Qed.

(** ** compute_metrics_from_gantt *)

Lemma build_info_gen l : forall acc,
  NoDup (keys acc) ->
  let r := fold_left
             (fun info p =>
                dict_set (d_pid p) (mkInfo (d_arrival p) (d_burst p) (d_priority p)) info)
             l acc in
  NoDup (keys r)
  /\ (forall k, In k (keys r) <-> In k (keys acc) \/ In k (map d_pid l))
  /\ (forall kv, In kv r -> In kv acc \/ exists d, In d l /\ kv = info_of d).
Proof.
  induction l as [|p l IH]; intros acc Hn; simpl.
  - repeat split; auto. intros [H|[]]. exact H.
  - destruct (IH (dict_set (d_pid p) (mkInfo (d_arrival p) (d_burst p) (d_priority p)) acc))
      as (H1 & H2 & H3).
    { now apply keys_set_NoDup. }
    split; [exact H1|]. split.
    + intros k. rewrite H2, keys_set_in. intuition.
    + intros kv Hkv. apply H3 in Hkv. destruct Hkv as [Hkv|(d & Hd & ->)].
      * apply dict_set_entries in Hkv. destruct Hkv as [->|Hkv]; [|now left].
        right. exists p. split; [now left | reflexivity].
      * right. exists d. split; [now right | reflexivity].
Qed.

Lemma build_info_spec proc_desc :
  NoDup (keys (build_info proc_desc))
  /\ (forall k, In k (keys (build_info proc_desc)) <-> In k (map d_pid proc_desc))
  /\ (forall kv, In kv (build_info proc_desc) -> exists d, In d proc_desc /\ kv = info_of d).
Proof.
  destruct (@build_info_gen proc_desc [] (NoDup_nil _)) as (H1 & H2 & H3).
  split; [exact H1|]. split.
  - intros k. rewrite H2. simpl. intuition.
  - intros kv Hkv. destruct (H3 kv Hkv) as [[]|H]. exact H.
Qed.

Lemma none_for_gen {V} (l : dict V) : forall acc,
  NoDup (keys l) -> (forall k, In k (keys l) -> ~ In k (keys acc)) ->
  fold_left (fun d kv => dict_set (fst kv) (@None Z) d) l acc
  = acc ++ map (fun kv => (fst kv, None)) l.
Proof.
  induction l as [|[k v] l IH]; intros acc Hn Hd; simpl.
  - now rewrite app_nil_r.
  - inversion Hn as [|? ? Hnin Hn']; subst.
    rewrite dict_set_new by (apply Hd; now left).
    rewrite IH; [now rewrite <- app_assoc | assumption |].
    intros k' Hk' Hin. unfold keys in Hin. rewrite map_app in Hin.
    apply in_app_or in Hin. destruct Hin as [Hin|[<-|[]]].
    + apply (Hd k'); [now right | assumption].
    + contradiction.
Qed.

Lemma none_for_spec {V} (info : dict V) :
  NoDup (keys info) ->
  keys (none_for info) = keys info
  /\ forall k, In k (keys info) -> dict_get k (none_for info) = Some None.
Proof.
  intros Hn. unfold none_for. rewrite none_for_gen; [|assumption|intros k _ []].
  simpl. split.
  - unfold keys. rewrite map_map. reflexivity.
  - intros k Hk. apply dict_get_entry.
    + unfold keys. rewrite map_map. exact Hn.
    + unfold keys in Hk. apply in_map_iff in Hk. destruct Hk as ([k' v] & <- & Hin).
      apply in_map_iff. exists (k', v). auto.
Qed.

Lemma runs_of_idle g : runs_of idle g = [].
Proof.
  unfold runs_of. induction g as [|x g IH]; simpl; [reflexivity|].
  destruct (String.eqb (actor x) idle); simpl; exact IH.
Qed.

Lemma runs_of_cons who x g :
  runs_of who (x :: g)
  = if String.eqb (actor x) who && negb (String.eqb (actor x) idle)
    then x :: runs_of who g else runs_of who g.
Proof. reflexivity. Qed.

(** The scan of the timeline: every key keeps the start of its first run
    and the end of its last one. *)
Lemma scan_gantt_spec K g : forall starts completions,
  keys starts = K -> keys completions = K ->
  (forall x, In x g -> actor x <> idle -> In (actor x) K) ->
  exists starts' completions',
    scan_gantt g starts completions = Returned (starts', completions')
    /\ keys starts' = K /\ keys completions' = K
    /\ forall k, In k K ->
         dict_get k starts'
         = Some (match dict_get k starts with
                 | Some (Some s) => Some s
                 | _ => start_of_first (runs_of k g)
                 end)
         /\ dict_get k completions'
            = Some (match end_of_last (runs_of k g) with
                    | Some e => Some e
                    | None => match dict_get k completions with
                              | Some v => v
                              | None => None
                              end
                    end).
Proof.
  induction g as [|[[a s] e] g IH]; intros starts completions Hs Hc Hact.
  - exists starts, completions. simpl. repeat split; auto.
    + assert (Hk : In k (keys starts)) by now rewrite Hs.
      apply dict_get_in in Hk. destruct (dict_get k starts) as [[v|]|]; congruence.
    + assert (Hk : In k (keys completions)) by now rewrite Hc.
      apply dict_get_in in Hk. destruct (dict_get k completions) as [v|]; congruence.
  - simpl scan_gantt. destruct (String.eqb a idle) eqn:Ea.
    + destruct (IH starts completions Hs Hc) as (st' & co' & Hr & Hk1 & Hk2 & Hv).
      { intros x Hx. apply Hact. now right. }
      exists st', co'. split; [exact Hr|]. split; [assumption|]. split; [assumption|].
      intros k Hk. destruct (Hv k Hk) as [Hv1 Hv2]. rewrite Hv1, Hv2.
      rewrite runs_of_cons. unfold actor. simpl fst. rewrite Ea, andb_false_r. auto.
    + assert (Ha : In a K).
      { apply (Hact (a, s, e)); [now left|]. unfold actor. simpl.
        now apply String.eqb_neq. }
      assert (Hin : In a (keys starts)) by now rewrite Hs.
      unfold dict_item. apply dict_get_in in Hin.
      destruct (dict_get a starts) as [st|] eqn:Eg; [|congruence]. simpl bind.
      set (starts1 := match st with None => dict_set a (Some s) starts | Some _ => starts end).
      assert (Hs1 : keys starts1 = K).
      { unfold starts1. destruct st; [assumption|].
        rewrite keys_set_old; [assumption | now rewrite Hs]. }
      assert (Hc1 : keys (dict_set a (Some e) completions) = K).
      { rewrite keys_set_old; [assumption | now rewrite Hc]. }
      destruct (IH starts1 (dict_set a (Some e) completions) Hs1 Hc1)
        as (st' & co' & Hr & Hk1 & Hk2 & Hv).
      { intros x Hx. apply Hact. now right. }
      exists st', co'. split; [exact Hr|]. split; [assumption|]. split; [assumption|].
      intros k Hk. destruct (Hv k Hk) as [Hv1 Hv2]. rewrite Hv1, Hv2.
      rewrite runs_of_cons. unfold actor. simpl fst. rewrite Ea. simpl negb.
      rewrite andb_true_r. destruct (String.eqb a k) eqn:Eak.
      * apply String.eqb_eq in Eak. subst k. rewrite Eg.
        simpl start_of_first. simpl end_of_last.
        rewrite dict_get_set_same. unfold starts1. split.
        -- destruct st as [s0|]; [now rewrite Eg | now rewrite dict_get_set_same].
        -- now destruct (end_of_last (runs_of a g)).
      * apply String.eqb_neq in Eak. rewrite dict_get_set_other by assumption.
        split; [|reflexivity]. unfold starts1.
        destruct st; [reflexivity | now rewrite dict_get_set_other].
Qed.

Lemma first_last_none l : start_of_first l = None <-> end_of_last l = None.
Proof.
  destruct l as [|x l]; simpl; [tauto|].
  destruct (end_of_last l); split; discriminate.
Qed.

Lemma build_rows_spec g : forall items starts completions,
  (forall kv, In kv items ->
     dict_get (fst kv) starts = Some (start_of_first (runs_of (fst kv) g))
     /\ dict_get (fst kv) completions = Some (end_of_last (runs_of (fst kv) g))) ->
  build_rows items starts completions = Returned (map (row_of g) items).
Proof.
  induction items as [|[k d] items IH]; intros starts completions H; [reflexivity|].
  simpl build_rows. destruct (H (k, d) (or_introl eq_refl)) as [H1 H2]. simpl fst in H1, H2.
  unfold dict_item. rewrite H1. simpl bind.
  rewrite IH by (intros kv Hkv; apply H; now right).
  simpl map. unfold row_of at 2.
  destruct (start_of_first (runs_of k g)) as [start|] eqn:Es; simpl bind.
  - rewrite H2. simpl bind.
    destruct (end_of_last (runs_of k g)) as [completion|]; reflexivity.
  - reflexivity.
Qed.

Lemma row_of_fields g k d :
  let r := row_of g (k, d) in
  let runs := runs_of k g in
  r_pid r = k /\ r_arrival r = i_arrival d /\ r_burst r = i_burst d
  /\ r_priority r = i_priority d
  /\ r_start r = start_of_first runs /\ r_completion r = end_of_last runs
  /\ r_TAT r = option_map (fun c => c - r_arrival r) (r_completion r)
  /\ r_WT r = option_map (fun t => t - r_burst r) (r_TAT r)
  /\ r_RT r = option_map (fun s => s - r_arrival r) (r_start r).
Proof.
  cbv zeta. unfold row_of.
  destruct (start_of_first (runs_of k g)) as [s|] eqn:Es;
    destruct (end_of_last (runs_of k g)) as [e|] eqn:Ee; simpl; repeat split; auto.
  - apply first_last_none in Ee. congruence.
  - apply first_last_none in Es. congruence.
Qed.

Lemma py_sum_spec f rows :
  (forall r, In r rows -> f r <> None) ->
  py_sum f rows = Returned (sum_Z (values_of f rows))
  /\ List.length (values_of f rows) = List.length rows.
Proof.
  induction rows as [|r rows IH]; intros H; [split; reflexivity|].
  simpl. destruct (f r) as [v|] eqn:E.
  - destruct IH as [IH1 IH2]; [intros r' Hr'; apply H; now right|].
    rewrite IH1. simpl. split; [reflexivity | now rewrite IH2].
  - exfalso. apply (H r); [now left | assumption].
Qed.

Lemma average_spec f rows :
  (forall r, In r rows -> f r <> None) ->
  average f rows = float_mean (values_of f rows).
Proof.
  intros H. unfold average. destruct (py_sum_spec f rows H) as [H1 H2].
  destruct rows as [|r rows]; [reflexivity|]. simpl nonempty. cbv iota.
  rewrite <- H2, H1. unfold float_mean.
  destruct (values_of f (r :: rows)) as [|v l] eqn:E; [discriminate|reflexivity].
Qed.

Lemma float_mean_is_mean l o : float_mean l = Returned o -> is_mean l o.
Proof.
  destruct l as [|v l]; simpl.
  - intros H. now injection H as <-.
  - destruct (py_truediv _ _) as [q| |]; simpl; intros H; try discriminate.
    now injection H as <-.
Qed.

(** ** Floats: the division of two ints

    The quotient is rounded by [binary_round_aux]; below 2^1023 in magnitude
    the result is a float, so the division returns. *)

Lemma digits2_bound p : forall k, 0 <= k -> Zpos p < 2 ^ k -> Zpos (digits2_pos p) <= k.
Proof.
  induction p as [p IH|p IH|]; intros k Hk H; simpl digits2_pos.
  - assert (k <> 0) by (intros ->; simpl in H; lia).
    replace k with (Z.succ (k - 1)) in H by lia. rewrite Z.pow_succ_r in H by lia.
    specialize (IH (k - 1)). lia.
  - assert (k <> 0) by (intros ->; simpl in H; lia).
    replace k with (Z.succ (k - 1)) in H by lia. rewrite Z.pow_succ_r in H by lia.
    specialize (IH (k - 1)). lia.
  - assert (k <> 0) by (intros ->; simpl in H; lia). lia.
Qed.

Lemma Zdigits2_bound m k : 0 <= k -> 0 <= m < 2 ^ k -> Zdigits2 m <= k.
Proof.
  intros Hk [H0 H]. destruct m as [|p|p]; simpl; [lia | now apply digits2_bound | lia].
Qed.

Lemma shr_1_m mrs : 0 <= shr_m mrs -> shr_m (shr_1 mrs) = shr_m mrs / 2.
Proof.
  destruct mrs as [m r s]. simpl. intros H.
  destruct m as [|[p|p|]|p]; cbn [shr_m]; try lia; try reflexivity.
  - apply Z.div_unique with (r := 1); lia.
  - apply Z.div_unique with (r := 0); lia.
Qed.

Lemma pow2_xI p : 2 ^ Zpos p~1 = 2 * 2 ^ Zpos p * 2 ^ Zpos p.
Proof.
  assert (E : Zpos p~1 = 1 + Zpos p + Zpos p) by lia.
  rewrite E, !Z.pow_add_r by lia. reflexivity.
Qed.

Lemma pow2_xO p : 2 ^ Zpos p~0 = 2 ^ Zpos p * 2 ^ Zpos p.
Proof.
  assert (E : Zpos p~0 = Zpos p + Zpos p) by lia.
  now rewrite E, Z.pow_add_r by lia.
Qed.

Lemma iter_shr_m p : forall mrs, 0 <= shr_m mrs ->
  shr_m (iter_pos shr_1 p mrs) = shr_m mrs / 2 ^ Zpos p.
Proof.
  assert (Hnn : forall mrs, 0 <= shr_m mrs -> 0 <= shr_m (shr_1 mrs)).
  { intros mrs H. rewrite shr_1_m by assumption. apply Z.div_pos; lia. }
  induction p as [p IH|p IH|]; intros mrs H; simpl iter_pos.
  - assert (Hp : 0 < 2 ^ Zpos p) by (apply Z.pow_pos_nonneg; lia).
    assert (H1 : 0 <= shr_m (shr_1 mrs)) by auto.
    assert (H2 : 0 <= shr_m (iter_pos shr_1 p (shr_1 mrs))).
    { rewrite IH by assumption. apply Z.div_pos; lia. }
    rewrite IH, IH, shr_1_m by assumption.
    rewrite pow2_xI, !Z.div_div by lia. f_equal. lia.
  - assert (Hp : 0 < 2 ^ Zpos p) by (apply Z.pow_pos_nonneg; lia).
    assert (H2 : 0 <= shr_m (iter_pos shr_1 p mrs)).
    { rewrite IH by assumption. apply Z.div_pos; lia. }
    rewrite IH, IH by assumption.
    rewrite pow2_xO, !Z.div_div by lia. f_equal.
  - rewrite shr_1_m by assumption. reflexivity.
Qed.

(** What [shr_fexp] leaves: a mantissa not above the one given, at an
    exponent that is the larger of the one given and the canonical one. *)
Lemma shr_fexp_spec m e l :
  0 <= m ->
  let '(mrs, e') := shr_fexp 53 1024 m e l in
  e' = Z.max e (fexp 53 1024 (Zdigits2 m + e))
  /\ shr_m mrs = m / 2 ^ (e' - e).
Proof.
  intros Hm. unfold shr_fexp, shr.
  assert (Hr : shr_m (shr_record_of_loc m l) = m) by (destruct l as [|[]]; reflexivity).
  destruct (fexp 53 1024 (Zdigits2 m + e) - e) as [|p|p] eqn:E.
  - split; [lia|]. now rewrite Hr, Z.sub_diag, Z.div_1_r.
  - split; [lia|]. rewrite iter_shr_m by lia. rewrite Hr. f_equal. f_equal. lia.
  - split; [lia|]. now rewrite Hr, Z.sub_diag, Z.div_1_r.
Qed.

Lemma round_nearest_even_bound m l : m <= round_nearest_even m l <= m + 1.
Proof.
  unfold round_nearest_even. destruct l as [|[]]; try lia. destruct (Z.even m); lia.
Qed.

Lemma fexp_le e k : e <= k -> -1074 <= k - 53 -> fexp 53 1024 e <= k - 53.
Proof. unfold fexp, emin. lia. Qed.

Lemma binary_round_aux_finite sx m e l :
  0 <= m -> e <= 0 -> m < 2 ^ (1023 - e) ->
  forall s, binary_round_aux 53 1024 sx m e l <> S754_infinity s.
Proof.
  intros Hm He Hb s. unfold binary_round_aux.
  pose proof (@shr_fexp_spec m e l Hm) as H1.
  destruct (shr_fexp 53 1024 m e l) as [mrs1 e1]. destruct H1 as [He1 Hm1].
  set (mr := round_nearest_even (shr_m mrs1) (loc_of_shr_record mrs1)).
  assert (Hd : Zdigits2 m + e <= 1023).
  { assert (Zdigits2 m <= 1023 - e) by (apply Zdigits2_bound; lia). lia. }
  assert (Hf1 : fexp 53 1024 (Zdigits2 m + e) <= 970)
    by (pose proof (@fexp_le (Zdigits2 m + e) 1023); lia).
  assert (Hk : 0 <= e1 - e) by lia.
  assert (Hp : 0 < 2 ^ (e1 - e)) by (apply Z.pow_pos_nonneg; lia).
  assert (Hm1' : 0 <= shr_m mrs1) by (rewrite Hm1; apply Z.div_pos; lia).
  assert (Hmr : 0 <= mr <= shr_m mrs1 + 1).
  { pose proof (@round_nearest_even_bound (shr_m mrs1) (loc_of_shr_record mrs1)).
    unfold mr. lia. }
  assert (Hdr : Zdigits2 mr + e1 <= 1024).
  { destruct (Z_le_gt_dec (e1 - e) (1023 - e)) as [Hle|Hgt].
    - assert (shr_m mrs1 < 2 ^ (1023 - e - (e1 - e))).
      { rewrite Hm1. apply Z.div_lt_upper_bound; [lia|].
        rewrite <- Z.pow_add_r by lia. replace (e1 - e + (1023 - e - (e1 - e))) with (1023 - e) by lia.
        exact Hb. }
      assert (Zdigits2 mr <= 1023 - e - (e1 - e) + 1).
      { apply Zdigits2_bound; [lia|]. rewrite Z.pow_add_r by lia. change (2 ^ 1) with 2.
        assert (0 < 2 ^ (1023 - e - (e1 - e))) by (apply Z.pow_pos_nonneg; lia). lia. }
      lia.
    - assert (shr_m mrs1 = 0).
      { rewrite Hm1. apply Z.div_small. split; [lia|].
        apply Z.lt_le_trans with (1 := Hb). apply Z.pow_le_mono_r; lia. }
      assert (Zdigits2 mr <= 1) by (apply Zdigits2_bound; [lia | change (2 ^ 1) with 2; lia]).
      lia. }
  pose proof (@shr_fexp_spec mr e1 loc_Exact (proj1 Hmr)) as H2.
  destruct (shr_fexp 53 1024 mr e1 loc_Exact) as [mrs2 e2]. destruct H2 as [He2 _].
  assert (Hf2 : fexp 53 1024 (Zdigits2 mr + e1) <= 971)
    by (pose proof (@fexp_le (Zdigits2 mr + e1) 1024); lia).
  assert (He2' : e2 <= 971) by lia.
  destruct (shr_m mrs2); try discriminate.
  apply Z.leb_le in He2'. change (1024 - 53) with 971. rewrite He2'. discriminate.
Qed.

Lemma SFdiv_core_bound mx my :
  Zpos mx < 2 ^ 1023 * Zpos my ->
  let '(q, e, l) := SFdiv_core_binary 53 1024 (Zpos mx) 0 (Zpos my) 0 in
  0 <= q /\ e <= 0 /\ q < 2 ^ (1023 - e).
Proof.
  intros H. unfold SFdiv_core_binary.
  set (e := Z.min (fexp 53 1024 (Zdigits2 (Zpos mx) + 0 - (Zdigits2 (Zpos my) + 0))) (0 - 0)).
  assert (He : e <= 0) by (unfold e; lia).
  set (m' := match 0 - 0 - e with
             | 0 => Zpos mx
             | Zpos _ => Z.shiftl (Zpos mx) (0 - 0 - e)
             | Zneg _ => 0
             end).
  assert (Hm' : m' = Zpos mx * 2 ^ (- e)).
  { unfold m'. destruct (0 - 0 - e) as [|p|p] eqn:E; [| |lia].
    - replace (- e) with 0 by lia. simpl. lia.
    - rewrite Z.shiftl_mul_pow2 by lia. f_equal. f_equal. lia. }
  pose proof (Z_div_mod m' (Zpos my) eq_refl) as Hd.
  destruct (Z.div_eucl m' (Zpos my)) as [q r]. destruct Hd as [Hq Hr].
  assert (Hp : 0 < 2 ^ (- e)) by (apply Z.pow_pos_nonneg; lia).
  assert (Hq' : q = m' / Zpos my) by (apply Z.div_unique with (r := r); lia).
  split; [|split; [exact He|]].
  - rewrite Hq'. apply Z.div_pos; lia.
  - rewrite Hq'. apply Z.div_lt_upper_bound; [lia|].
    rewrite Hm'. replace (1023 - e) with (1023 + - e) by lia. rewrite Z.pow_add_r by lia. nia.
Qed.

Lemma py_truediv_returns a b :
  0 < b -> Z.abs a < 2 ^ 1023 * b -> exists q, py_truediv a b = Returned q.
Proof.
  intros Hb Ha. unfold py_truediv.
  assert (E : (b =? 0) = false) by (apply Z.eqb_neq; lia). rewrite E.
  destruct b as [|my|my]; try lia.
  assert (G : forall sx mx, Zpos mx < 2 ^ 1023 * Zpos my ->
            exists q, match SFdiv 53 1024 (S754_finite sx mx 0) (S754_finite false my 0) with
                      | S754_infinity _ => Raised OverflowError
                      | q => Returned q
                      end = Returned q).
  { intros sx mx H. unfold SFdiv.
    pose proof (@SFdiv_core_bound mx my H) as Hc.
    destruct (SFdiv_core_binary 53 1024 (Zpos mx) 0 (Zpos my) 0) as [[q e] l].
    destruct Hc as (H0 & He & Hq).
    pose proof (@binary_round_aux_finite (xorb sx false) q e l H0 He Hq) as Hf.
    destruct (binary_round_aux 53 1024 (xorb sx false) q e l) as [s|s| |s m e'];
      try (eexists; reflexivity). exfalso. now apply (Hf s). }
  destruct a as [|mx|mx]; simpl binary_of_int.
  - eexists. reflexivity.
  - apply G. lia.
  - apply G. lia.
Qed.

Lemma sum_Z_bound M l :
  Forall (fun v => Z.abs v <= M) l -> Z.abs (sum_Z l) <= M * Z.of_nat (List.length l).
Proof.
  induction 1 as [|v l Hv _ IH]; [simpl; lia|].
  change (sum_Z (v :: l)) with (v + sum_Z l).
  change (List.length (v :: l)) with (Datatypes.S (List.length l)). lia.
Qed.

(** The mean of numbers below 2^1023 in magnitude is not too large for a
    float. *)
Lemma float_mean_returns l :
  Forall (fun v => Z.abs v < 2 ^ 1023) l -> exists o, float_mean l = Returned o.
Proof.
  intros H. destruct l as [|v l]; [eexists; reflexivity|]. unfold float_mean.
  destruct (@py_truediv_returns (sum_Z (v :: l)) (Z.of_nat (List.length (v :: l))))
    as [q Hq].
  - simpl List.length. lia.
  - set (M := 2 ^ 1023) in *.
    assert (Hb : Z.abs (sum_Z (v :: l)) <= (M - 1) * Z.of_nat (List.length (v :: l))).
    { apply sum_Z_bound. eapply Forall_impl; [|exact H]. simpl. intros; lia. }
    simpl List.length in *. lia.
  - rewrite Hq. eexists. reflexivity.
Qed.

(** The division of a sum by a positive count fails in one way only. *)
Lemma py_truediv_cases a b :
  b <> 0 -> (exists q, py_truediv a b = Returned q) \/ py_truediv a b = Raised OverflowError.
Proof.
  intros Hb. unfold py_truediv. apply Z.eqb_neq in Hb. rewrite Hb.
  destruct (SFdiv 53 1024 (binary_of_int a) (binary_of_int b)); eauto.
Qed.

Lemma float_mean_cases l :
  (exists o, float_mean l = Returned o) \/ float_mean l = Raised OverflowError.
Proof.
  destruct l as [|v l]; [left; eexists; reflexivity|]. unfold float_mean.
  destruct (@py_truediv_cases (sum_Z (v :: l)) (Z.of_nat (List.length (v :: l))))
    as [[q H]|H]; [simpl; lia | |]; rewrite H; simpl; eauto.
Qed.

(** The averages are returned with the means of the three columns, or one
    of the means is too large for a float. *)
Lemma averages_cases rows :
  (exists avgs, averages rows = Returned avgs
     /\ is_mean (values_of r_TAT (completed_rows rows)) (avg_tat avgs)
     /\ is_mean (values_of r_WT (completed_rows rows)) (avg_wt avgs)
     /\ is_mean (values_of r_RT (completed_rows rows)) (avg_rt avgs))
  \/ averages rows = Raised OverflowError.
Proof.
  unfold averages.
  destruct (float_mean_cases (values_of r_TAT (completed_rows rows))) as [[o1 H1]|H1];
    rewrite H1; simpl; [|now right].
  destruct (float_mean_cases (values_of r_WT (completed_rows rows))) as [[o2 H2]|H2];
    rewrite H2; simpl; [|now right].
  destruct (float_mean_cases (values_of r_RT (completed_rows rows))) as [[o3 H3]|H3];
    rewrite H3; simpl; [|now right].
  left. eexists. split; [reflexivity|]. simpl.
  split; [|split]; now apply float_mean_is_mean.
Qed.

Lemma completed_have g info r :
  In r (completed_rows (map (row_of g) info)) ->
  r_TAT r <> None /\ r_WT r <> None /\ r_RT r <> None.
Proof.
  unfold completed_rows. rewrite filter_In, in_map_iff.
  intros [([k d] & <- & _) H]. revert H. unfold row_of.
  destruct (start_of_first (runs_of k g)); destruct (end_of_last (runs_of k g));
    simpl; intros H; try discriminate; repeat split; discriminate.
Qed.

Lemma values_of_forall (P : Z -> Prop) f rows :
  (forall r v, In r rows -> f r = Some v -> P v) -> Forall P (values_of f rows).
Proof.
  unfold values_of. induction rows as [|r rows IH]; intros H; simpl; [constructor|].
  apply Forall_app. split.
  - destruct (f r) as [v|] eqn:E; constructor; [|constructor]. apply (H r); auto. now left.
  - apply IH. intros r' v Hr'. apply H. now right.
Qed.

(** Rows with small times have averages. *)
Lemma averages_returns rows :
  Forall small_row rows -> exists avgs, averages rows = Returned avgs.
Proof.
  intros Hs. unfold averages.
  assert (G : forall f, (forall r, In (f r) [r_TAT r; r_WT r; r_RT r]) ->
            exists o, float_mean (values_of f (completed_rows rows)) = Returned o).
  { intros f Hf. apply float_mean_returns. apply values_of_forall.
    intros r v Hr E. unfold completed_rows in Hr. apply filter_In in Hr.
    apply (proj1 (Forall_forall _ _) Hs r (proj1 Hr)). rewrite <- E. apply Hf. }
  destruct (G r_TAT) as [o1 ->]; [intros; simpl; tauto|].
  destruct (G r_WT) as [o2 ->]; [intros; simpl; tauto|].
  destruct (G r_RT) as [o3 ->]; [intros; simpl; tauto|].
  eexists. reflexivity.
Qed.

(** What comes after the rows: the averages, or the [OverflowError] of a
    mean too large for a float. *)
Lemma with_averages {A} rows (k : Avgs -> A) :
  ((exists avgs, (a <- averages rows ;; Returned (k a)) = Returned (k avgs)
      /\ is_mean (values_of r_TAT (completed_rows rows)) (avg_tat avgs)
      /\ is_mean (values_of r_WT (completed_rows rows)) (avg_wt avgs)
      /\ is_mean (values_of r_RT (completed_rows rows)) (avg_rt avgs))
   \/ (a <- averages rows ;; Returned (k a)) = Raised OverflowError)
  /\ (Forall small_row rows ->
      exists avgs, (a <- averages rows ;; Returned (k a)) = Returned (k avgs)).
Proof.
  split.
  - destruct (averages_cases rows) as [(avgs & -> & H)| ->]; [left | now right].
    exists avgs. split; [reflexivity | exact H].
  - intros H. destruct (averages_returns H) as [avgs ->]. exists avgs. reflexivity.
Qed.

(** The metrics helper on a timeline whose actors are described. *)
Lemma metrics_spec proc_desc g :
  (forall x, In x g -> actor x <> idle -> In (actor x) (map d_pid proc_desc)) ->
  let rows := map (row_of g) (build_info proc_desc) in
  compute_metrics_from_gantt proc_desc g
  = (avgs <- averages rows ;; Returned (rows, avgs)).
Proof.
  intros Hact rows. unfold compute_metrics_from_gantt.
  destruct (build_info_spec proc_desc) as (Hn & Hk & _).
  destruct (none_for_spec _ Hn) as [Hkeys Hnone].
  destruct (@scan_gantt_spec (keys (build_info proc_desc)) g
              (none_for (build_info proc_desc)) (none_for (build_info proc_desc))
              Hkeys Hkeys) as (st & co & Hscan & _ & _ & Hv).
  { intros x Hx Hne. apply Hk. now apply Hact. }
  rewrite Hscan. simpl bind.
  rewrite (build_rows_spec g).
  - simpl bind. fold rows. fold (completed_rows rows).
    rewrite !average_spec by (intros r Hr; apply completed_have in Hr; apply Hr).
    unfold averages.
    destruct (float_mean (values_of r_TAT (completed_rows rows))); simpl; try reflexivity.
    destruct (float_mean (values_of r_WT (completed_rows rows))); simpl; try reflexivity.
    destruct (float_mean (values_of r_RT (completed_rows rows))); reflexivity.
  - intros [k d] Hkv. simpl fst.
    assert (Hin : In k (keys (build_info proc_desc))).
    { change k with (fst (k, d)). now apply in_map. }
    destruct (Hv k Hin) as [H1 H2]. rewrite H1, H2, (Hnone k Hin). split; [reflexivity|].
    now destruct (end_of_last (runs_of k g)).
Qed.

(** ** The claims about the engine *)

Lemma select_algorithm_det f1 f2 algorithm quantum procs g1 g2 :
  select_algorithm f1 algorithm quantum procs = Returned g1 ->
  select_algorithm f2 algorithm quantum procs = Returned g2 -> g1 = g2.
Proof.
  unfold select_algorithm, sjf_nonpreemptive, sjf_preemptive, round_robin,
    priority_nonpreemptive, priority_preemptive.
  repeat match goal with
         | |- context [String.eqb algorithm ?k] => destruct (String.eqb algorithm k)
         end;
    try congruence; apply while_loop_det.
Qed.

Lemma preempt_scenario_wf : well_formed preempt_scenario.
Proof.
  split.
  - repeat constructor; simpl; try lia; discriminate.
  - repeat constructor; simpl; intuition discriminate.
Qed.

Lemma rr_in_known_keys : In "rr"%string known_keys.
Proof. simpl. tauto. Qed.

Lemma sjf_p_in_known_keys : In "sjf-p"%string known_keys.
Proof. simpl. tauto. Qed.

(** C5. On a well-formed input (and, for [rr], a positive quantum) each of
    the six policies returns a timeline: given enough fuel its loop ends, and
    it ends by returning, not by raising. *)
Theorem C5_policies_terminate algorithm quantum procs :
  In algorithm known_keys -> well_formed procs ->
  (algorithm = "rr"%string -> 0 < quantum) ->
  exists fuel g, select_algorithm fuel algorithm quantum procs = Returned g.
Proof.
  intros Hk Hwf Hq. destruct (engine_ok Hk Hwf Hq) as (g & fuel & H & _).
  eauto.
Qed.

Lemma C5_policies_terminate_witness :
  exists fuel g, select_algorithm fuel "sjf-p" 2 preempt_scenario = Returned g.
Proof.
  apply C5_policies_terminate.
  - exact sjf_p_in_known_keys.
  - exact preempt_scenario_wf.
  - discriminate.
Defined.

Lemma covers_of_contiguous procs g :
  contiguous_from 0 g ->
  Forall (fun x => actor x = idle \/ In (actor x) (map pid procs)) g ->
  covers procs g.
Proof.
  intros Hc Ha t Ht.
  pose proof (contiguous_max g (Z.le_refl 0) Hc) as Hm.
  destruct (@contiguous_cover g 0 t Hc) as (x & Hx & Hin); [lia|].
  exists x. split; [assumption|]. split; [assumption|].
  now apply (proj1 (Forall_forall _ _) Ha).
Qed.

(** C3. On a well-formed input (positive quantum for [rr]) the timeline a
    policy returns has only non-empty intervals, pairwise disjoint, sorted by
    start, each starting where the previous one ended and the first at 0; so
    every tick of [[0, max_completion)] lies in an interval, whose actor is a
    pid of the input or [idle].  The timeline is the same whatever fuel lets
    the run finish. *)
Theorem C3_timeline_partition algorithm quantum procs :
  In algorithm known_keys -> well_formed procs ->
  (algorithm = "rr"%string -> 0 < quantum) ->
  exists fuel g,
    select_algorithm fuel algorithm quantum procs = Returned g
    /\ (forall fuel' g', select_algorithm fuel' algorithm quantum procs = Returned g' -> g' = g)
    /\ Forall (fun x => i_start x < i_end x) g
    /\ non_overlapping g
    /\ sorted_by_start g
    /\ contiguous_from 0 g
    /\ covers procs g.
Proof.
  intros Hk Hwf Hq.
  destruct (engine_ok Hk Hwf Hq) as (g & fuel & H & Hc & _ & Ha & _).
  exists fuel, g. split; [exact H|]. split.
  { intros fuel' g' H'. eapply select_algorithm_det; [exact H' | exact H]. }
  split; [now apply contiguous_positive with (t := 0)|].
  split; [now apply contiguous_disjoint with (t := 0)|].
  split; [now apply contiguous_sorted with (t := 0)|].
  split; [assumption|]. now apply covers_of_contiguous.
Qed.

Lemma C3_timeline_partition_witness :
  exists fuel g,
    select_algorithm fuel "rr" 2 rr_scenario = Returned g
    /\ (forall fuel' g', select_algorithm fuel' "rr" 2 rr_scenario = Returned g' -> g' = g)
    /\ Forall (fun x => i_start x < i_end x) g
    /\ non_overlapping g
    /\ sorted_by_start g
    /\ contiguous_from 0 g
    /\ covers rr_scenario g.
Proof.
  apply C3_timeline_partition.
  - exact rr_in_known_keys.
  - split.
    + repeat constructor; simpl; try lia; discriminate.
    + repeat constructor; simpl; intuition discriminate.
  - intros _. reflexivity.
Defined.

(** ** The claims about the metrics and about simulate *)

Lemma end_of_last_snoc l x : end_of_last (l ++ [x]) = Some (i_end x).
Proof.
  induction l as [|y l IH]; simpl; [reflexivity|]. now rewrite IH.
Qed.

Lemma procs_from_pid proc_desc : forall i,
  map pid (procs_from i proc_desc) = map d_pid proc_desc.
Proof.
  induction proc_desc as [|d l IH]; intros i; simpl; [reflexivity|]. now rewrite IH.
Qed.

Lemma rows_pids g info : map r_pid (map (row_of g) info) = keys info.
Proof.
  unfold keys. rewrite map_map. apply map_ext. intros [k d].
  apply (row_of_fields g k d).
Qed.

Lemma simulate_empty fuel algorithm quantum :
  simulate (Datatypes.S fuel) algorithm quantum []
  = Returned (mkResult [] [] (mkAvgs None None None)).
Proof.
  unfold simulate, select_algorithm.
  repeat match goal with
         | |- context [String.eqb algorithm ?k] => destruct (String.eqb algorithm k)
         end; reflexivity.
Qed.

(** C6 as stated fails: the helper is not defined on every timeline.  An
    interval whose pid no descriptor carries makes it raise [KeyError]. *)
Lemma C6_undescribed_pid_raises :
  compute_metrics_from_gantt [] [("P9"%string, 0, 1)] = Raised KeyError.
Proof. reflexivity. Qed.

(** C6, amended: for every descriptor list and every timeline whose
    non-idle actors are all pids of the list, the helper builds one row per
    pid; the row carries the data of a descriptor of that pid; its start and
    completion are the start of the first and the end of the last non-idle
    interval with that pid, and all of start, completion, TAT, WT, RT are
    null when there is none; TAT = completion - arrival, WT = TAT - burst,
    RT = start - arrival.  It returns these rows with the three averages,
    each the mean over the rows with non-null TAT as a float (the sum over
    the count, rounded to the nearest float), null when there is no such row;
    or, when a mean is too large for a float, it raises [OverflowError].  It
    returns whenever the TAT, WT and RT of the rows are below 2^1023 in
    magnitude.  An empty descriptor list gives, under every policy, an empty
    timeline, no rows and null averages. *)
Theorem C6_metrics_rows_and_averages proc_desc gantt :
  (forall x, In x gantt -> actor x <> idle -> In (actor x) (map d_pid proc_desc)) ->
  exists rows,
    NoDup (map r_pid rows)
    /\ (forall k, In k (map r_pid rows) <-> In k (map d_pid proc_desc))
    /\ (forall r, In r rows ->
          let runs := runs_of (r_pid r) gantt in
          (exists d, In d proc_desc /\ d_pid d = r_pid r /\ d_arrival d = r_arrival r
                     /\ d_burst d = r_burst r /\ d_priority d = r_priority r)
          /\ r_start r = start_of_first runs
          /\ r_completion r = end_of_last runs
          /\ (runs = [] -> r_start r = None /\ r_completion r = None /\ r_TAT r = None
                           /\ r_WT r = None /\ r_RT r = None)
          /\ r_TAT r = option_map (fun c => c - r_arrival r) (r_completion r)
          /\ r_WT r = option_map (fun t => t - r_burst r) (r_TAT r)
          /\ r_RT r = option_map (fun s => s - r_arrival r) (r_start r))
    /\ ((exists avgs,
           compute_metrics_from_gantt proc_desc gantt = Returned (rows, avgs)
           /\ is_mean (values_of r_TAT (completed_rows rows)) (avg_tat avgs)
           /\ is_mean (values_of r_WT (completed_rows rows)) (avg_wt avgs)
           /\ is_mean (values_of r_RT (completed_rows rows)) (avg_rt avgs))
        \/ compute_metrics_from_gantt proc_desc gantt = Raised OverflowError)
    /\ (Forall small_row rows ->
        exists avgs, compute_metrics_from_gantt proc_desc gantt = Returned (rows, avgs))
    /\ (forall fuel algorithm quantum,
          simulate (Datatypes.S fuel) algorithm quantum []
          = Returned (mkResult [] [] (mkAvgs None None None))).
Proof.
  intros Hact. pose proof (metrics_spec proc_desc gantt Hact) as Hm. cbv zeta in Hm.
  destruct (build_info_spec proc_desc) as (Hn & Hk & Hv).
  exists (map (row_of gantt) (build_info proc_desc)).
  split; [now rewrite rows_pids|].
  split; [intros k; now rewrite rows_pids|].
  split; [|rewrite Hm; split; [apply with_averages|split;
    [apply with_averages | intros; apply simulate_empty]]].
  intros r Hr. apply in_map_iff in Hr. destruct Hr as ([k i] & <- & Hin).
  destruct (Hv _ Hin) as (d & Hd & E). injection E as -> ->.
  destruct (row_of_fields gantt (d_pid d)
              (mkInfo (d_arrival d) (d_burst d) (d_priority d)))
    as (E1 & E2 & E3 & E4 & E5 & E6 & E7 & E8 & E9).
  cbv zeta. rewrite E1.
  split; [exists d; simpl in *; auto|].
  split; [assumption|]. split; [assumption|].
  split; [|split; [assumption|split; assumption]].
  intros Hruns. rewrite E8, E7, E9, E6, E5, Hruns. simpl. auto.
Qed.

Lemma C6_metrics_rows_and_averages_witness :
  exists rows,
    map r_pid rows = ["P1"%string]
    /\ ((exists avgs,
           compute_metrics_from_gantt [mkDesc "P1" 0 1 0] [("P1"%string, 0, 1)]
           = Returned (rows, avgs))
        \/ compute_metrics_from_gantt [mkDesc "P1" 0 1 0] [("P1"%string, 0, 1)]
           = Raised OverflowError).
Proof.
  destruct (@C6_metrics_rows_and_averages [mkDesc "P1" 0 1 0] [("P1"%string, 0, 1)])
    as (rows & _ & _ & _ & [(avgs & H & _)|H] & _).
  - intros x [<-|[]] _. now left.
  - exists rows. vm_compute in H. injection H as <- _. split; [reflexivity|].
    left. eexists. reflexivity.
  - vm_compute in H. discriminate.
Defined.

Lemma simulate_returns fuel algorithm quantum proc_desc g :
  select_algorithm fuel algorithm quantum (proc_objs_of proc_desc) = Returned g ->
  Forall (fun x => actor x = idle \/ In (actor x) (map pid (proc_objs_of proc_desc))) g ->
  let rows := map (row_of g) (build_info proc_desc) in
  simulate fuel algorithm quantum proc_desc
  = (avgs <- averages rows ;; Returned (mkResult g rows avgs)).
Proof.
  intros Hsel Hact rows. unfold simulate. rewrite Hsel. simpl bind.
  rewrite metrics_spec; [fold rows; now destruct (averages rows)|].
  intros x Hx Hne. pose proof (proj1 (Forall_forall _ _) Hact x Hx) as [H|H];
    [contradiction|].
  unfold proc_objs_of in H. now rewrite procs_from_pid in H.
Qed.

Lemma idle_row_is_null g k d :
  r_pid (row_of g (k, d)) = idle ->
  let r := row_of g (k, d) in
  r_start r = None /\ r_completion r = None /\ r_TAT r = None /\ r_WT r = None
  /\ r_RT r = None.
Proof.
  intros E. destruct (row_of_fields g k d) as (E1 & _). rewrite E in E1. subst k.
  cbv zeta. unfold row_of. rewrite runs_of_idle. simpl. auto.
Qed.

Lemma fcfs_actors procs :
  Forall (fun x => actor x = idle \/ In (actor x) (map pid procs)) (fcfs procs).
Proof.
  unfold fcfs.
  apply (fold_left_prefix_ind fcfs_body
           (fun _ st => Forall (fun x => actor x = idle \/ In (actor x) (map pid procs))
                          (snd st))).
  - constructor.
  - intros done p rest Hsort H. destruct (fold_left fcfs_body done (0, [])) as [t g].
    assert (Hp : In (pid p) (map pid procs)).
    { apply in_map. apply (py_sort_in key_arrival). rewrite Hsort.
      apply in_or_app. right. now left. }
    unfold fcfs_body. simpl in H.
    destruct (t <? arrival p); simpl; repeat (apply Forall_app; split);
      try assumption; constructor; auto; now left.
Qed.

Lemma unknown_key_selects_fcfs algorithm fuel quantum procs :
  ~ In algorithm known_keys ->
  select_algorithm fuel algorithm quantum procs = Returned (fcfs procs).
Proof.
  intros Hn. unfold select_algorithm.
  repeat match goal with
         | |- context [String.eqb algorithm ?k] =>
             destruct (String.eqb_spec algorithm k) as [E|_];
             [exfalso; apply Hn; rewrite E; simpl; tauto|]
         end.
  reflexivity.
Qed.

(** * Further properties *)

(** ** Round Robin with a quantum that is not positive *)

Lemma copy_from_positive procs : forall i,
  (exists p, In p procs /\ 0 < burst p) ->
  exists q, In q (copy_from i procs) /\ 0 < remaining q.
Proof.
  induction procs as [|p l IH]; intros i (p0 & Hin & Hb); [contradiction|].
  destruct Hin as [->|Hin].
  - eexists. split; [now left | exact Hb].
  - destruct (IH (Datatypes.S i)) as (q & Hq & Hr); [eauto|].
    exists q. split; [now right | assumption].
Qed.

Lemma procs_of_idle_state st m :
  candidates (decision_of st) = [] -> procs_of (idle_state st m) = procs_of st.
Proof.
  intros Hc. destruct (candidates_nil st Hc) as (Hr & Hcur & Hf & Hn).
  unfold procs_of, current_list, idle_state. simpl. rewrite Hr, Hf, Hcur. simpl.
  change (filter (waiting (s_time st)) (s_remaining st)) with (not_arrived (decision_of st)).
  now rewrite Hn.
Qed.

Lemma rr_spins_pass quantum st :
  quantum <= 0 -> s_current st = None ->
  (exists q, In q (procs_of st) /\ 0 < remaining q) ->
  exists st', rr_body quantum st = Next st' /\ s_current st' = None
              /\ exists q, In q (procs_of st') /\ 0 < remaining q.
Proof.
  intros Hq Hcur (q & Hin & Hr).
  assert (Hcand : candidates (decision_of st) = ready_set (decision_of st)).
  { rewrite candidates_eq. unfold current_list. rewrite Hcur. apply app_nil_r. }
  destruct (rr_body_cases quantum st Hcur)
    as [[Hg _]|[(Hg & Hc & m & Hm & Hb)|(Hg & p & queue2 & Hrd & [[Hle Hb]|[Hlt Hb]])]].
  - exfalso. unfold loop_guard in Hg. rewrite Hcur in Hg. simpl in Hg.
    rewrite orb_false_r in Hg. apply orb_false_iff in Hg. destruct Hg as [H1 H2].
    apply nonempty_false in H1, H2. unfold procs_of, current_list in Hin.
    rewrite H1, H2, Hcur in Hin. contradiction.
  - exists (idle_state st m). split; [exact Hb|]. split; [exact Hcur|].
    exists q. split; [|assumption]. now rewrite procs_of_idle_state.
  - exists (rr_skip_state st queue2). split; [exact Hb|]. split; [reflexivity|].
    exists q. split; [|assumption].
    apply (Permutation_in _ (procs_perm st)) in Hin. rewrite Hcand, Hrd in Hin.
    unfold procs_of, current_list, rr_skip_state. simpl. rewrite app_nil_r.
    simpl in Hin. destruct Hin as [<-|Hin]; [lia|].
    apply in_app_or in Hin. apply in_or_app. tauto.
  - exists (rr_run_state quantum st p queue2). split; [exact Hb|]. split; [reflexivity|].
    exists (set_remaining p (remaining p - Z.min quantum (remaining p))).
    split; [|simpl; lia].
    apply (Permutation_in _ (Permutation_sym (rr_run_perm quantum st p queue2))).
    assert (E : (remaining p - Z.min quantum (remaining p) >? 0) = true) by lia.
    rewrite E. now left.
Qed.

Lemma rr_spins quantum : quantum <= 0 -> forall fuel st,
  s_current st = None -> (exists q, In q (procs_of st) /\ 0 < remaining q) ->
  while_loop (rr_body quantum) fuel st = OutOfFuel.
Proof.
  intros Hq. induction fuel as [|fuel IH]; intros st Hcur Hex; [reflexivity|].
  destruct (rr_spins_pass st Hq Hcur Hex) as (st' & Hb & Hcur' & Hex').
  simpl. rewrite Hb. now apply IH.
Qed.

(** X1. With a quantum that is zero or negative, [round_robin] never
    returns and never raises on an input that has a process of positive
    burst: every pass puts such a process back in the queue with at least the
    remaining time it had. *)
Theorem X1_nonpositive_quantum_never_returns procs quantum :
  quantum <= 0 -> (exists p, In p procs /\ 0 < burst p) ->
  forall fuel, round_robin fuel procs quantum = OutOfFuel.
Proof.
  intros Hq Hex fuel. unfold round_robin. apply rr_spins; [assumption | reflexivity |].
  destruct (copy_from_positive procs 0 Hex) as (q & Hin & Hr).
  exists q. split; [|assumption].
  unfold procs_of, current_list. simpl. now rewrite app_nil_r.
Qed.

Lemma X1_nonpositive_quantum_never_returns_witness :
  round_robin 1000 rr_scenario (-3) = OutOfFuel.
Proof.
  apply X1_nonpositive_quantum_never_returns; [lia|].
  eexists. split; [now left | reflexivity].
Defined.

(** ** The metrics helper: failure, idle intervals, rows *)

Lemma scan_gantt_raises K g : forall starts completions,
  keys starts = K ->
  (exists x, In x g /\ actor x <> idle /\ ~ In (actor x) K) ->
  scan_gantt g starts completions = Raised KeyError.
Proof.
  induction g as [|[[a s] e] g IH]; intros starts completions Hs (x & Hx & Hne & Hnin);
    [contradiction|].
  simpl scan_gantt. destruct (String.eqb_spec a idle) as [Ea|Ea].
  - apply IH; [assumption|]. destruct Hx as [<-|Hx]; [contradiction|]. eauto.
  - unfold dict_item. destruct (dict_get a starts) as [st|] eqn:Eg; [|reflexivity].
    simpl bind. assert (Ha : In a K).
    { rewrite <- Hs. apply dict_get_in. congruence. }
    apply IH.
    + destruct st; [assumption|]. rewrite keys_set_old; [assumption | now rewrite Hs].
    + destruct Hx as [<-|Hx]; [contradiction|]. eauto.
Qed.

Lemma described_dec (K : list string) (g : timeline) :
  (forall x, In x g -> actor x <> idle -> In (actor x) K)
  \/ (exists x, In x g /\ actor x <> idle /\ ~ In (actor x) K).
Proof.
  induction g as [|x g IH]; [left; intros x []|].
  destruct IH as [IH|(y & Hy & H)]; [|right; exists y; split; [now right | assumption]].
  destruct (string_dec (actor x) idle) as [E|E].
  - left. intros y [<-|Hy] Hne; [contradiction | now apply IH].
  - destruct (in_dec string_dec (actor x) K) as [Hin|Hnin].
    + left. intros y [<-|Hy] Hne; [assumption | now apply IH].
    + right. exists x. split; [now left | auto].
Qed.

(** X2. The metrics helper fails in two ways only.  It raises [KeyError]
    exactly when some interval of the timeline that is not labelled "idle"
    carries a pid that no descriptor has.  It raises [OverflowError] only
    when every pid is described and a row it has built has a TAT, WT or RT
    of magnitude 2^1023 or more (a mean is then too large for a float).  In
    every other case it returns. *)
Theorem X2_metrics_fail_in_two_ways proc_desc gantt :
  (compute_metrics_from_gantt proc_desc gantt = Raised KeyError
   <-> exists x, In x gantt /\ actor x <> idle /\ ~ In (actor x) (map d_pid proc_desc))
  /\ ((exists rows avgs, compute_metrics_from_gantt proc_desc gantt = Returned (rows, avgs))
      \/ compute_metrics_from_gantt proc_desc gantt = Raised KeyError
      \/ compute_metrics_from_gantt proc_desc gantt = Raised OverflowError)
  /\ (compute_metrics_from_gantt proc_desc gantt = Raised OverflowError ->
      (forall x, In x gantt -> actor x <> idle -> In (actor x) (map d_pid proc_desc))
      /\ ~ Forall small_row (map (row_of gantt) (build_info proc_desc))).
Proof.
  assert (Hraise : (exists x, In x gantt /\ actor x <> idle
                              /\ ~ In (actor x) (map d_pid proc_desc)) ->
                   compute_metrics_from_gantt proc_desc gantt = Raised KeyError).
  { intros (x & Hx & Hne & Hnin). unfold compute_metrics_from_gantt.
    destruct (build_info_spec proc_desc) as (Hn & Hk & _).
    destruct (none_for_spec _ Hn) as [Hkeys _].
    rewrite (@scan_gantt_raises (keys (build_info proc_desc))); [reflexivity | assumption |].
    exists x. split; [assumption|]. split; [assumption|]. now rewrite Hk. }
  destruct (described_dec (map d_pid proc_desc) gantt) as [Hall|Hex].
  - pose proof (metrics_spec proc_desc gantt Hall) as Hm. cbv zeta in Hm.
    destruct (with_averages (map (row_of gantt) (build_info proc_desc))
                (fun a => (map (row_of gantt) (build_info proc_desc), a)))
      as [[(avgs & Ha & _)|Ha] Hsmall]; rewrite <- Hm in Ha, Hsmall.
    + split; [split; [intros H; rewrite Ha in H; discriminate | exact Hraise]|].
      split; [left; eauto|]. intros H. rewrite Ha in H. discriminate.
    + split; [split; [intros H; rewrite Ha in H; discriminate | exact Hraise]|].
      split; [right; right; exact Ha|]. intros _. split; [exact Hall|].
      intros Hs. destruct (Hsmall Hs) as [avgs H]. rewrite Ha in H. discriminate.
  - pose proof (Hraise Hex) as H. split; [split; auto|].
    split; [right; left; exact H|]. intros H'. rewrite H in H'. discriminate.
Qed.

Lemma scan_gantt_busy g : forall starts completions,
  scan_gantt (busy g) starts completions = scan_gantt g starts completions.
Proof.
  induction g as [|[[a s] e] g IH]; intros starts completions; [reflexivity|].
  unfold busy. simpl filter. unfold actor at 1. simpl fst.
  simpl scan_gantt. destruct (String.eqb a idle) eqn:E; simpl negb; cbv iota.
  - apply IH.
  - simpl scan_gantt. rewrite E. destruct (dict_item a starts); simpl; auto.
Qed.

(** X3. The intervals labelled "idle" have no influence on the metrics:
    the helper gives the same result, rows, averages or exception, on a
    timeline and on that timeline without its "idle" intervals. *)
Theorem X3_metrics_ignore_idle_intervals proc_desc gantt :
  compute_metrics_from_gantt proc_desc (busy gantt)
  = compute_metrics_from_gantt proc_desc gantt.
Proof.
  unfold compute_metrics_from_gantt. now rewrite scan_gantt_busy.
Qed.

Lemma mem_in k K : mem k K = true <-> In k K.
Proof.
  unfold mem. rewrite existsb_exists. split.
  - intros (x & Hx & E). apply String.eqb_eq in E. now subst.
  - intros H. exists k. split; [assumption | apply String.eqb_refl].
Qed.

Lemma keys_set {V} k (v : V) d :
  keys (dict_set k v d) = if mem k (keys d) then keys d else keys d ++ [k].
Proof.
  destruct (mem k (keys d)) eqn:E.
  - apply keys_set_old. now apply mem_in.
  - rewrite dict_set_new.
    + unfold keys. now rewrite map_app.
    + intros H. apply mem_in in H. congruence.
Qed.

Lemma filter_twice {A} (f g : A -> bool) l :
  filter f (filter g l) = filter (fun x => g x && f x) l.
Proof.
  induction l as [|x l IH]; simpl; [reflexivity|].
  destruct (g x); simpl; [destruct (f x)|]; now rewrite IH.
Qed.

Lemma build_info_keys_gen l : forall acc,
  keys (fold_left
          (fun info p =>
             dict_set (d_pid p) (mkInfo (d_arrival p) (d_burst p) (d_priority p)) info)
          l acc)
  = keys acc ++ filter (fun k => negb (mem k (keys acc))) (dedup (map d_pid l)).
Proof.
  induction l as [|d l IH]; intros acc; simpl; [now rewrite app_nil_r|].
  rewrite IH, keys_set. destruct (mem (d_pid d) (keys acc)) eqn:E; simpl.
  - f_equal. rewrite filter_twice. apply filter_ext. intros k.
    destruct (String.eqb_spec k (d_pid d)) as [->|_]; simpl; [now rewrite E | reflexivity].
  - rewrite <- app_assoc. simpl. f_equal. f_equal. rewrite filter_twice.
    apply filter_ext. intros k. unfold mem. rewrite existsb_app. simpl.
    rewrite orb_false_r, negb_orb. apply andb_comm.
Qed.

Lemma build_info_keys proc_desc : keys (build_info proc_desc) = dedup (map d_pid proc_desc).
Proof.
  unfold build_info. rewrite build_info_keys_gen. simpl.
  induction (dedup (map d_pid proc_desc)) as [|k l IH]; simpl; [reflexivity|].
  now rewrite IH.
Qed.

Lemma build_info_untouched l k : forall acc,
  ~ In k (map d_pid l) ->
  dict_get k (fold_left
                (fun info p =>
                   dict_set (d_pid p) (mkInfo (d_arrival p) (d_burst p) (d_priority p)) info)
                l acc)
  = dict_get k acc.
Proof.
  induction l as [|d l IH]; intros acc Hn; simpl; [reflexivity|].
  rewrite IH by (intros H; apply Hn; now right).
  apply dict_get_set_other. intros E. apply Hn. now left.
Qed.

Lemma build_info_last l1 d l2 :
  ~ In (d_pid d) (map d_pid l2) ->
  dict_get (d_pid d) (build_info (l1 ++ d :: l2))
  = Some (mkInfo (d_arrival d) (d_burst d) (d_priority d)).
Proof.
  intros Hn. unfold build_info. rewrite fold_left_app. simpl.
  rewrite build_info_untouched by assumption. apply dict_get_set_same.
Qed.

Lemma build_info_distinct l : forall acc,
  NoDup (map d_pid l) -> (forall k, In k (map d_pid l) -> ~ In k (keys acc)) ->
  fold_left
    (fun info p =>
       dict_set (d_pid p) (mkInfo (d_arrival p) (d_burst p) (d_priority p)) info)
    l acc
  = acc ++ map info_of l.
Proof.
  induction l as [|d l IH]; intros acc Hn Hd; simpl; [now rewrite app_nil_r|].
  inversion Hn as [|? ? Hnin Hn']; subst.
  rewrite dict_set_new by (apply Hd; now left).
  rewrite IH; [now rewrite <- app_assoc | assumption |].
  intros k Hk Hin. unfold keys in Hin. rewrite map_app in Hin.
  apply in_app_or in Hin. destruct Hin as [Hin|[<-|[]]].
  - apply (Hd k); [now right | assumption].
  - contradiction.
Qed.

Lemma row_data_of g k i :
  row_data (row_of g (k, i)) = (k, i_arrival i, i_burst i, i_priority i).
Proof.
  destruct (row_of_fields g k i) as (E1 & E2 & E3 & E4 & _).
  unfold row_data. now rewrite E1, E2, E3, E4.
Qed.

(** X4. On a timeline whose non-idle actors are described, the helper
    builds one row per distinct pid, in the order in which the pids first
    appear in the descriptor list.  When a pid occurs in several descriptors
    its row carries the arrival, burst and priority of the last of them.  When
    the pids are distinct the rows are the descriptors, in input order.  The
    helper returns these rows, or raises [OverflowError] when a mean is too
    large for a float; it returns when the TAT, WT and RT of the rows are
    below 2^1023 in magnitude. *)
Theorem X4_rows_follow_the_descriptors proc_desc gantt :
  (forall x, In x gantt -> actor x <> idle -> In (actor x) (map d_pid proc_desc)) ->
  exists rows,
    map r_pid rows = dedup (map d_pid proc_desc)
    /\ (forall l1 d l2 r,
          proc_desc = l1 ++ d :: l2 -> ~ In (d_pid d) (map d_pid l2) ->
          In r rows -> r_pid r = d_pid d -> row_data r = desc_data d)
    /\ (NoDup (map d_pid proc_desc) -> map row_data rows = map desc_data proc_desc)
    /\ ((exists avgs, compute_metrics_from_gantt proc_desc gantt = Returned (rows, avgs))
        \/ compute_metrics_from_gantt proc_desc gantt = Raised OverflowError)
    /\ (Forall small_row rows ->
        exists avgs, compute_metrics_from_gantt proc_desc gantt = Returned (rows, avgs)).
Proof.
  intros Hact. pose proof (metrics_spec proc_desc gantt Hact) as Hm. cbv zeta in Hm.
  exists (map (row_of gantt) (build_info proc_desc)).
  split; [now rewrite rows_pids, build_info_keys|]. split; [|split; [|split]].
  - intros l1 d l2 r -> Hn Hr Hpid. apply in_map_iff in Hr.
    destruct Hr as ([k i] & <- & Hin).
    destruct (row_of_fields gantt k i) as (E1 & _). rewrite E1 in Hpid. subst k.
    destruct (build_info_spec (l1 ++ d :: l2)) as (Hnd & _ & _).
    pose proof (dict_get_entry _ _ _ Hnd Hin) as Hget.
    rewrite build_info_last in Hget by assumption. injection Hget as <-.
    now rewrite row_data_of.
  - intros Hnd. unfold build_info.
    rewrite build_info_distinct; [|assumption|intros k _ []]. simpl.
    rewrite !map_map. apply map_ext. intros d. unfold info_of. now rewrite row_data_of.
  - rewrite Hm.
    destruct (with_averages (map (row_of gantt) (build_info proc_desc))
                (fun a => (map (row_of gantt) (build_info proc_desc), a)))
      as [[(avgs & Ha & _)|Ha] _]; [left; eauto | now right].
  - rewrite Hm. apply with_averages.
Qed.

Lemma X4_rows_follow_the_descriptors_witness :
  exists rows,
    map r_pid rows = ["A"%string; "B"%string]
    /\ ((exists avgs,
           compute_metrics_from_gantt
             [mkDesc "A" 0 1 0; mkDesc "B" 1 2 0; mkDesc "A" 5 3 7] [("A"%string, 5, 8)]
           = Returned (rows, avgs))
        \/ compute_metrics_from_gantt
             [mkDesc "A" 0 1 0; mkDesc "B" 1 2 0; mkDesc "A" 5 3 7] [("A"%string, 5, 8)]
           = Raised OverflowError).
Proof.
  destruct (@X4_rows_follow_the_descriptors
              [mkDesc "A" 0 1 0; mkDesc "B" 1 2 0; mkDesc "A" 5 3 7] [("A"%string, 5, 8)])
    as (rows & Hk & _ & _ & H & _).
  - intros x [<-|[]] _. now left.
  - exists rows. split; [exact Hk | exact H].
Defined.

(** ** Extending the invariant of the loops *)

Section Extra.
Variable body : loop_state -> flow loop_state timeline.
Variable procs0 : list Proc.
Variable preemptive : bool.
Hypothesis body_spec : forall st, inv body procs0 preemptive st ->
  (loop_guard st = false /\ body st = Stop (s_gantt st))
  \/ (loop_guard st = true /\ candidates (decision_of st) = []
      /\ exists m, py_min_arrival (not_arrived (decision_of st)) = Some m
                   /\ body st = Next (idle_state st m))
  \/ (loop_guard st = true /\ candidates (decision_of st) <> []
      /\ exists st' news, body st = Next st' /\ s_gantt st' = s_gantt st ++ news
           /\ inv body procs0 preemptive st' /\ (loop_measure st' < loop_measure st)%nat).
Variable E : loop_state -> Prop.
Hypothesis E_keeps : forall st st',
  inv body procs0 preemptive st -> E st -> body st = Next st' -> E st'.

(** A run that returns ends in a state with nothing left, which satisfies
    whatever the passes keep. *)
Lemma extra_result : forall fuel st g,
  inv body procs0 preemptive st -> E st ->
  while_loop body fuel st = Returned g ->
  exists st', inv body procs0 preemptive st' /\ E st' /\ procs_of st' = []
              /\ s_current st' = None /\ g = s_gantt st'.
Proof.
  induction fuel as [|fuel IH]; intros st g Hi He Hw; simpl in Hw; [discriminate|].
  pose proof (run_pass body_spec Hi) as Hp.
  destruct (body_spec Hi)
    as [[Hg Hb]|[(Hg & Hc & m & Hm & Hb)|(Hg & Hc & st' & news & Hb & _)]];
    rewrite Hb in Hw, Hp.
  - injection Hw as <-. exists st. split; [assumption|]. split; [assumption|].
    unfold loop_guard in Hg. apply orb_false_iff in Hg. destruct Hg as [Hg Hcu].
    apply orb_false_iff in Hg. destruct Hg as [Hr Hq].
    apply nonempty_false in Hr, Hq.
    assert (Hcur : s_current st = None) by (destruct (s_current st); [discriminate|reflexivity]).
    unfold procs_of, current_list. rewrite Hr, Hq, Hcur. auto.
  - apply (IH (idle_state st m)); [apply Hp | now apply (E_keeps Hi He) | exact Hw].
  - apply (IH st'); [apply Hp | now apply (E_keeps Hi He) | exact Hw].
Qed.
End Extra.

(** ** No process runs before it arrives *)

Lemma copy_from_in procs : forall i q,
  In q (copy_from i procs) ->
  exists p, In p procs /\ pid q = pid p /\ arrival q = arrival p /\ burst q = burst p
            /\ remaining q = burst p.
Proof.
  induction procs as [|p l IH]; intros i q Hq; [contradiction|].
  destruct Hq as [<-|Hq].
  - exists p. simpl. auto.
  - destruct (IH _ _ Hq) as (p' & Hp' & H). exists p'. split; [now right | assumption].
Qed.

Lemma ready_set_arrived procs0 st :
  timely procs0 st ->
  Forall (fun q => arrival q <= s_time st) (ready_set (decision_of st)).
Proof.
  intros Ht. simpl. apply Forall_app. split; [apply (tm_ready Ht)|].
  apply Forall_forall. intros q Hq. now apply in_arrived in Hq.
Qed.

Lemma from_input_all procs0 st :
  timely procs0 st ->
  Forall (from_input procs0) (candidates (decision_of st) ++ not_arrived (decision_of st)).
Proof.
  intros Ht. apply Forall_forall. intros q Hq.
  apply (proj1 (Forall_forall _ _) (tm_from Ht)).
  apply (Permutation_in _ (Permutation_sym (procs_perm st))). exact Hq.
Qed.

Lemma from_input_set procs0 q r :
  from_input procs0 q -> from_input procs0 (set_remaining q r).
Proof. intros (p0 & H). exists p0. exact H. Qed.

Lemma on_time_run procs0 q s e :
  from_input procs0 q -> arrival q <= s -> on_time procs0 (pid q, s, e).
Proof.
  intros (p0 & Hin & Hp & Ha & _) Hle. right. exists p0. split; [assumption|].
  split; [now rewrite Hp | unfold i_start; simpl; lia].
Qed.

Lemma timely_idle procs0 st m :
  timely procs0 st -> candidates (decision_of st) = [] ->
  timely procs0 (idle_state st m).
Proof.
  intros Ht Hc. destruct (candidates_nil st Hc) as (Hr & Hcur & Hf & Hn).
  constructor.
  - rewrite procs_of_idle_state by assumption. apply (tm_from Ht).
  - unfold idle_state. simpl. rewrite Hr, Hf. constructor.
  - unfold idle_state. simpl. rewrite Hcur. intros; discriminate.
  - unfold idle_state. simpl. apply Forall_app. split; [apply (tm_gantt Ht)|].
    constructor; [now left | constructor].
Qed.

Lemma timely_init procs0 :
  timely procs0 (init_state procs0).
Proof.
  constructor; simpl; try constructor.
  - unfold procs_of, current_list. simpl. rewrite app_nil_r.
    apply Forall_forall. intros q Hq. exists q. auto.
  - intros; discriminate.
Qed.

Lemma in_ready_candidates st q :
  In q (ready_set (decision_of st)) -> In q (candidates (decision_of st)).
Proof. intros H. rewrite candidates_eq. apply in_or_app. now left. Qed.

Lemma from_input_ready procs0 st q :
  timely procs0 st -> In q (ready_set (decision_of st)) -> from_input procs0 q.
Proof.
  intros Ht Hq. apply (proj1 (Forall_forall _ _) (from_input_all Ht)).
  apply in_or_app. left. now apply in_ready_candidates.
Qed.

Lemma from_input_waiting procs0 st q :
  timely procs0 st -> In q (not_arrived (decision_of st)) -> from_input procs0 q.
Proof.
  intros Ht Hq. apply (proj1 (Forall_forall _ _) (from_input_all Ht)).
  apply in_or_app. now right.
Qed.

Lemma np_timely key guarded procs0 st st' :
  inv (np_body key guarded) procs0 false st -> timely procs0 st ->
  np_body key guarded st = Next st' -> timely procs0 st'.
Proof.
  intros Hi Ht Hb. pose proof (inv_cur Hi eq_refl) as Hcur.
  destruct (np_body_cases key guarded st Hcur)
    as [[_ Hb']|[(_ & Hc & m & _ & Hb')|(_ & p & ready2 & Hs & Hb')]];
    rewrite Hb' in Hb; [discriminate | |]; injection Hb as <-.
  - now apply timely_idle.
  - assert (Hsub : forall q, In q (p :: ready2) -> In q (ready_set (decision_of st))).
    { intros q Hq. apply (py_sort_in key). now rewrite Hs. }
    assert (Hp : In p (procs_of st)).
    { apply (Permutation_in _ (Permutation_sym (procs_perm st))). apply in_or_app. left.
      apply in_ready_candidates, Hsub. now left. }
    pose proof (proj1 (Forall_forall _ _) (inv_from Hi) p Hp) as (_ & Hburst & _).
    pose proof (ready_set_arrived Ht) as Harr.
    constructor.
    + unfold procs_of, current_list, np_run_state. simpl. rewrite app_nil_r.
      apply Forall_app. split; apply Forall_forall; intros q Hq.
      * eapply from_input_waiting; eassumption.
      * eapply from_input_ready; [exact Ht|]. apply Hsub. now right.
    + unfold np_run_state. simpl. apply Forall_forall. intros q Hq.
      pose proof (proj1 (Forall_forall _ _) Harr q (Hsub q (or_intror Hq))). simpl in *. lia.
    + intros c i H. discriminate.
    + unfold np_run_state. simpl. apply Forall_app. split; [apply (tm_gantt Ht)|].
      constructor; [|constructor]. apply on_time_run.
      * eapply from_input_ready; [exact Ht|]. apply Hsub. now left.
      * apply (proj1 (Forall_forall _ _) Harr p (Hsub p (or_introl eq_refl))).
Qed.

Lemma rr_timely quantum procs0 st st' :
  0 < quantum ->
  inv (rr_body quantum) procs0 false st -> timely procs0 st ->
  rr_body quantum st = Next st' -> timely procs0 st'.
Proof.
  intros Hq Hi Ht Hb. pose proof (inv_cur Hi eq_refl) as Hcur.
  pose proof (ready_set_arrived Ht) as Harr.
  destruct (rr_body_cases quantum st Hcur)
    as [[_ Hb']|[(_ & Hc & m & _ & Hb')|(_ & p & queue2 & Hr & [[_ Hb']|[Hlt Hb']])]];
    rewrite Hb' in Hb; [discriminate | | |]; injection Hb as <-.
  - now apply timely_idle.
  - rewrite Hr in Harr. inversion Harr as [|? ? _ Hq2]; subst. constructor.
    + unfold procs_of, current_list, rr_skip_state. simpl. rewrite app_nil_r.
      apply Forall_app. split; apply Forall_forall; intros q Hin.
      * eapply from_input_waiting; eassumption.
      * eapply from_input_ready; [exact Ht|]. rewrite Hr. now right.
    + exact Hq2.
    + intros c i H. discriminate.
    + apply (tm_gantt Ht).
  - assert (Hfp : from_input procs0 p).
    { eapply from_input_ready; [exact Ht|]. rewrite Hr. now left. }
    rewrite Hr in Harr. inversion Harr as [|? ? Hap Hq2]; subst.
    set (run := Z.min quantum (remaining p)).
    assert (Hrun : 0 < run) by (unfold run; lia).
    constructor.
    + apply Forall_forall. intros q Hin.
      apply (Permutation_in _ (rr_run_perm quantum st p queue2)) in Hin.
      assert (Hrest : In q (queue2 ++ not_arrived (decision_of st)) -> from_input procs0 q).
      { intros H. apply in_app_or in H. destruct H as [H|H].
        - eapply from_input_ready; [exact Ht|]. rewrite Hr. now right.
        - eapply from_input_waiting; eassumption. }
      destruct (remaining p - Z.min quantum (remaining p) >? 0); [|now apply Hrest].
      destruct Hin as [<-|Hin]; [now apply from_input_set | now apply Hrest].
    + unfold rr_run_state. simpl. fold run.
      match goal with
      | |- Forall _ (if _ then ?l ++ _ else _) =>
          assert (H3 : Forall (fun q => arrival q <= s_time st + run) l)
      end.
      { apply Forall_app. split.
        - eapply Forall_impl; [|exact Hq2]. simpl. intros; lia.
        - apply Forall_forall. intros q Hin. now apply in_arrived in Hin. }
      destruct (remaining p - run >? 0); [|exact H3].
      apply Forall_app. split; [exact H3|]. constructor; [simpl; lia | constructor].
    + intros c i H. discriminate.
    + unfold rr_run_state. simpl. apply Forall_app. split; [apply (tm_gantt Ht)|].
      constructor; [|constructor]. now apply on_time_run.
Qed.

Lemma tick_timely procs0 st gantt1 ready2 cur istart :
  Forall (from_input procs0) (cur :: ready2 ++ not_arrived (decision_of st)) ->
  Forall (fun q => arrival q <= s_time st) ready2 ->
  arrival cur <= istart -> Forall (on_time procs0) gantt1 ->
  timely procs0 (tick_state st gantt1 ready2 cur istart).
Proof.
  intros Hf Hr Ha Hg. inversion Hf as [|? ? Hfc Hfr]; subst.
  assert (Hr' : Forall (fun q => arrival q <= s_time st + 1) ready2).
  { eapply Forall_impl; [|exact Hr]. simpl. intros; lia. }
  assert (Hfr' : Forall (from_input procs0) (not_arrived (decision_of st) ++ ready2)).
  { apply Forall_app. apply Forall_app in Hfr. tauto. }
  destruct (Z.eq_dec (remaining cur - 1) 0) as [E|E].
  - rewrite tick_state_done by assumption. constructor; simpl.
    + unfold procs_of, current_list. simpl. now rewrite app_nil_r.
    + exact Hr'.
    + intros; discriminate.
    + apply Forall_app. split; [assumption|]. constructor; [|constructor].
      now apply on_time_run.
  - rewrite tick_state_going by assumption. constructor; simpl.
    + unfold procs_of, current_list. simpl. rewrite app_assoc.
      apply Forall_app. split; [assumption|]. constructor; [|constructor].
      now apply from_input_set.
    + exact Hr'.
    + intros c i H. injection H as <- <-. exact Ha.
    + assumption.
Qed.

Lemma p_timely key procs0 st st' :
  inv (p_body key) procs0 true st -> timely procs0 st ->
  p_body key st = Next st' -> timely procs0 st'.
Proof.
  intros Hi Ht Hb. pose proof (ready_set_arrived Ht) as Harr.
  destruct (p_body_cases key st (inv_pids Hi) (inv_oids Hi))
    as [[_ Hb']|[(_ & Hc & m & _ & Hb')
       |[(_ & chosen & l1 & l2 & Hr & Hb')|(_ & c & i & Hcur & Hb')]]];
    rewrite Hb' in Hb; [discriminate | | |]; injection Hb as <-.
  - now apply timely_idle.
  - assert (Hsub : forall q, In q (chosen :: l1 ++ l2) -> In q (ready_set (decision_of st))).
    { intros q Hq. rewrite Hr. apply in_or_app. destruct Hq as [<-|Hq]; [right; now left|].
      apply in_app_or in Hq. destruct Hq; [now left | right; now right]. }
    apply tick_timely.
    + constructor; [eapply from_input_ready; [exact Ht|]; apply Hsub; now left|].
      apply Forall_app. split; apply Forall_forall; intros q Hq.
      * eapply from_input_ready; [exact Ht|]. apply Hsub. now right.
      * eapply from_input_waiting; eassumption.
    + apply Forall_forall. intros q Hq.
      apply (proj1 (Forall_forall _ _) Harr q). apply Hsub. now right.
    + apply (proj1 (Forall_forall _ _) Harr chosen). apply Hsub. now left.
    + apply Forall_app. split; [apply (tm_gantt Ht)|]. unfold closing.
      destruct (s_current st) as [[c i]|] eqn:Hcur; [|constructor].
      constructor; [|constructor]. apply on_time_run.
      * apply (proj1 (Forall_forall _ _) (tm_from Ht)). unfold procs_of, current_list.
        rewrite Hcur. apply in_or_app. right. apply in_or_app. right. now left.
      * now apply (tm_open Ht).
  - apply tick_timely.
    + constructor.
      * apply (proj1 (Forall_forall _ _) (tm_from Ht)). unfold procs_of, current_list.
        rewrite Hcur. apply in_or_app. right. apply in_or_app. right. now left.
      * apply Forall_app. split; apply Forall_forall; intros q Hq.
        -- eapply from_input_ready; eassumption.
        -- eapply from_input_waiting; eassumption.
    + exact Harr.
    + now apply (tm_open Ht).
    + apply (tm_gantt Ht).
Qed.

Lemma on_time_copies procs x : on_time (copy_procs procs) x -> on_time procs x.
Proof.
  intros [H|(q & Hq & Hp & Ha)]; [now left|]. right.
  destruct (copy_from_in _ _ _ Hq) as (p & Hin & E1 & E2 & _).
  exists p. split; [assumption|]. split; congruence.
Qed.

Lemma fcfs_on_time procs : Forall (on_time procs) (fcfs procs).
Proof.
  unfold fcfs.
  apply (fold_left_prefix_ind fcfs_body (fun _ st => Forall (on_time procs) (snd st))).
  - constructor.
  - intros done p rest Hsort H. destruct (fold_left fcfs_body done (0, [])) as [t g].
    assert (Hp : In p procs).
    { apply (py_sort_in key_arrival). rewrite Hsort. apply in_or_app. right. now left. }
    unfold fcfs_body. simpl in H.
    assert (Hrun : forall s e, arrival p <= s -> on_time procs (pid p, s, e)).
    { intros s e Hs. right. exists p. unfold i_start. simpl. auto. }
    destruct (Z.ltb_spec t (arrival p)); simpl.
    + apply Forall_app. split; [apply Forall_app; split; [assumption|]|].
      * constructor; [now left | constructor].
      * constructor; [apply Hrun; lia | constructor].
    + apply Forall_app. split; [assumption|].
      constructor; [apply Hrun; lia | constructor].
Qed.

Lemma loop_on_time body preemptive procs fuel g :
  (forall st, inv body (copy_procs procs) preemptive st ->
     (loop_guard st = false /\ body st = Stop (s_gantt st))
     \/ (loop_guard st = true /\ candidates (decision_of st) = []
         /\ exists m, py_min_arrival (not_arrived (decision_of st)) = Some m
                      /\ body st = Next (idle_state st m))
     \/ (loop_guard st = true /\ candidates (decision_of st) <> []
         /\ exists st' news, body st = Next st' /\ s_gantt st' = s_gantt st ++ news
              /\ inv body (copy_procs procs) preemptive st'
              /\ (loop_measure st' < loop_measure st)%nat)) ->
  (forall st st', inv body (copy_procs procs) preemptive st ->
     timely (copy_procs procs) st -> body st = Next st' -> timely (copy_procs procs) st') ->
  well_formed procs ->
  while_loop body fuel (init_state (copy_procs procs)) = Returned g ->
  Forall (on_time procs) g.
Proof.
  intros Hspec Hkeep Hwf Hw.
  destruct (extra_result Hspec (timely (copy_procs procs)) Hkeep fuel
              (inv_copies body preemptive Hwf) (timely_init _) Hw)
    as (st & _ & Ht & _ & _ & ->).
  eapply Forall_impl; [|apply (tm_gantt Ht)]. apply on_time_copies.
Qed.

Lemma engine_on_time algorithm quantum procs fuel g :
  In algorithm known_keys -> well_formed procs ->
  (algorithm = "rr"%string -> 0 < quantum) ->
  select_algorithm fuel algorithm quantum procs = Returned g ->
  Forall (on_time procs) g.
Proof.
  intros Hk Hwf Hq.
  destruct (known_key_cases Hk) as [-> | [-> | [-> | [-> | [-> | ->]]]]];
    unfold select_algorithm; simpl String.eqb; cbv iota.
  - intros H. injection H as <-. apply fcfs_on_time.
  - apply loop_on_time with (preemptive := false); [intros st; apply np_spec | | assumption].
    intros st st'. apply np_timely.
  - apply loop_on_time with (preemptive := true); [intros st; apply p_spec | | assumption].
    intros st st'. apply p_timely.
  - apply loop_on_time with (preemptive := false); [| | assumption].
    + intros st. apply rr_spec. now apply Hq.
    + intros st st'. apply rr_timely. now apply Hq.
  - apply loop_on_time with (preemptive := false); [intros st; apply np_spec | | assumption].
    intros st st'. apply np_timely.
  - apply loop_on_time with (preemptive := true); [intros st; apply p_spec | | assumption].
    intros st st'. apply p_timely.
Qed.

(** X5. Under every policy no process gets the CPU before it arrives: on a
    well-formed input (positive quantum for [rr]) every interval of the
    returned timeline that is not labelled "idle" carries the pid of a
    process of the input whose arrival is not after the start of the
    interval. *)
Theorem X5_no_run_before_arrival algorithm quantum procs :
  In algorithm known_keys -> well_formed procs ->
  (algorithm = "rr"%string -> 0 < quantum) ->
  exists fuel g,
    select_algorithm fuel algorithm quantum procs = Returned g
    /\ forall x, In x g -> actor x <> idle ->
         exists p, In p procs /\ pid p = actor x /\ arrival p <= i_start x.
Proof.
  intros Hk Hwf Hq. destruct (engine_ok Hk Hwf Hq) as (g & fuel & H & _).
  exists fuel, g. split; [exact H|]. intros x Hx Hne.
  assert (Hon : Forall (on_time procs) g) by (eapply engine_on_time; eassumption).
  destruct (proj1 (Forall_forall _ _) Hon x Hx) as [E|E]; [contradiction | exact E].
Qed.

Lemma X5_no_run_before_arrival_witness :
  exists fuel g,
    select_algorithm fuel "sjf-p" 2 preempt_scenario = Returned g
    /\ forall x, In x g -> actor x <> idle ->
         exists p, In p preempt_scenario /\ pid p = actor x /\ arrival p <= i_start x.
Proof.
  apply X5_no_run_before_arrival.
  - exact sjf_p_in_known_keys.
  - exact preempt_scenario_wf.
  - discriminate.
Defined.

(** ** Service accounting *)

Lemma served_app who g1 g2 : served who (g1 ++ g2) = served who g1 + served who g2.
Proof. induction g1 as [|x g1 IH]; simpl; [reflexivity|]. rewrite IH. lia. Qed.

Lemma served_one who a s e :
  served who [(a, s, e)] = if String.eqb a who then e - s else 0.
Proof. unfold served, actor, duration, i_end, i_start. simpl. lia. Qed.

Lemma pid_inj l a b :
  NoDup (map pid l) -> In a l -> In b l -> pid a = pid b -> a = b.
Proof.
  induction l as [|x l IH]; intros Hn Ha Hb E; [contradiction|].
  simpl in Hn. inversion Hn as [|? ? Hnin Hn']; subst.
  destruct Ha as [->|Ha], Hb as [->|Hb]; auto.
  - exfalso. apply Hnin. rewrite E. now apply in_map.
  - exfalso. apply Hnin. rewrite <- E. now apply in_map.
Qed.

Section Account.
Variable procs0 : list Proc.
Variable exact : bool.
Hypothesis Hnd : NoDup (map pid procs0).

Lemma burst_link q p0 :
  from_input procs0 q -> In p0 procs0 -> pid q = pid p0 -> burst q = burst p0.
Proof.
  intros (p1 & H1 & Hp & _ & Hb) H0 E. rewrite Hb. f_equal.
  apply (pid_inj procs0); auto. congruence.
Qed.

Lemma account_init :
  Forall (fun p => remaining p = burst p) procs0 ->
  account procs0 exact (init_state procs0).
Proof.
  intros Hr. constructor.
  - unfold procs_of, current_list, full_gantt, closing. simpl. rewrite app_nil_r.
    eapply Forall_impl; [|exact Hr]. simpl. intros q E. split; [lia | intros _; lia].
  - intros c i H. discriminate.
  - reflexivity.
  - intros p0 Hin _. left. unfold procs_of, current_list. simpl. rewrite app_nil_r.
    now apply in_map.
Qed.

Lemma account_idle st m :
  account procs0 exact st -> candidates (decision_of st) = [] ->
  account procs0 exact (idle_state st m).
Proof.
  intros Ha Hc. destruct (candidates_nil st Hc) as (_ & Hcur & _).
  assert (Hs : forall k, k <> idle ->
             served k (full_gantt (idle_state st m)) = served k (full_gantt st)).
  { intros k Hk. unfold full_gantt, closing, idle_state. simpl. rewrite Hcur.
    rewrite !app_nil_r, served_app, served_one.
    destruct (String.eqb_spec idle k); [congruence | lia]. }
  constructor.
  - rewrite procs_of_idle_state by assumption.
    eapply Forall_impl; [|apply (ac_state Ha)]. simpl. intros q [H1 H2].
    split; [assumption|]. intros Hne. rewrite Hs by assumption. now apply H2.
  - unfold idle_state. simpl. rewrite Hcur. intros; discriminate.
  - intros _. exact Hcur.
  - intros p0 Hin Hne. rewrite procs_of_idle_state by assumption.
    rewrite Hs by assumption. now apply (ac_gone Ha).
Qed.

(** The accounting passes from [st] to [st'] when the pass serves [sel]
    for [remaining sel - r'] ticks and drops only the running process. *)
Lemma account_step (body : loop_state -> flow loop_state timeline) preemptive
  st st' sel others dropped r' (keep : bool) :
  inv body procs0 preemptive st -> timely procs0 st -> account procs0 exact st ->
  Permutation (procs_of st) (sel :: others ++ dropped) ->
  Permutation (procs_of st') (if keep then set_remaining sel r' :: others else others) ->
  (forall k, k <> idle ->
     served k (full_gantt st')
     = served k (full_gantt st) + (if String.eqb (pid sel) k then remaining sel - r' else 0)) ->
  0 <= r' < remaining sel -> (keep = false -> r' = 0) ->
  (forall c i, s_current st' = Some (c, i) -> c = set_remaining sel r') ->
  (exact = true -> s_current st' = None) ->
  (forall d, In d dropped -> exact = false /\ exists i, s_current st = Some (d, i)) ->
  account procs0 exact st'.
Proof.
  intros Hi Ht Ha Hp Hp' Hs Hr Hk Ho Hex Hd.
  pose proof (Permutation_NoDup (Permutation_map pid Hp) (inv_pids Hi)) as Hn.
  simpl in Hn. inversion Hn as [|? ? Hnin Hn']; subst.
  assert (Hsel : In sel (procs_of st)).
  { apply (Permutation_in _ (Permutation_sym Hp)). now left. }
  assert (Hrest : forall q, In q (others ++ dropped) -> In q (procs_of st) /\ pid q <> pid sel).
  { intros q Hq. split.
    - apply (Permutation_in _ (Permutation_sym Hp)). now right.
    - intros E. apply Hnin. rewrite <- E. now apply in_map. }
  assert (Hsame : forall q, In q (others ++ dropped) -> pid q <> idle ->
            served (pid q) (full_gantt st') = served (pid q) (full_gantt st)).
  { intros q Hq Hne. rewrite Hs by assumption.
    destruct (String.eqb_spec (pid sel) (pid q)) as [E|_]; [|lia].
    destruct (Hrest q Hq) as [_ Hne']. congruence. }
  pose proof (proj1 (Forall_forall _ _) (ac_state Ha)) as Hst.
  destruct (Hst sel Hsel) as [Hle Hserved].
  assert (Hnew : pid sel <> idle -> served (pid sel) (full_gantt st') = burst sel - r').
  { intros Hne. rewrite Hs by assumption. rewrite String.eqb_refl, Hserved by assumption.
    lia. }
  constructor.
  - apply Forall_forall. intros q Hq. apply (Permutation_in _ Hp') in Hq.
    assert (Hoth : In q others ->
              remaining q <= burst q
              /\ (pid q <> idle ->
                  served (pid q) (full_gantt st') = burst q - remaining q)).
    { intros H. assert (H' : In q (others ++ dropped)) by (apply in_or_app; now left).
      destruct (Hst q (proj1 (Hrest q H'))) as [H1 H2]. split; [assumption|].
      intros Hne. rewrite Hsame by assumption. now apply H2. }
    destruct keep; [|now apply Hoth].
    destruct Hq as [<-|Hq]; [|now apply Hoth]. simpl. split; [lia | exact Hnew].
  - intros c i H. rewrite (Ho c i H). simpl. lia.
  - exact Hex.
  - intros p0 Hin Hne.
    destruct (in_dec string_dec (pid p0) (map pid (procs_of st))) as [Hmem|Hnmem].
    + apply in_map_iff in Hmem. destruct Hmem as (q & Hq & Hqin).
      apply (Permutation_in _ Hp) in Hqin. destruct Hqin as [<-|Hqin].
      * assert (Hb : burst sel = burst p0).
        { apply burst_link; auto. apply (proj1 (Forall_forall _ _) (tm_from Ht) sel Hsel). }
        pose proof (proj1 (Forall_forall _ _) (inv_from Hi) sel Hsel) as (_ & Hbp & _).
        destruct keep eqn:Ek.
        -- left. apply in_map_iff. exists (set_remaining sel r'). split; [exact Hq|].
           apply (Permutation_in _ (Permutation_sym Hp')). now left.
        -- right. rewrite <- Hq in *. rewrite (Hnew Hne), (Hk eq_refl).
           split; [lia | intros; lia].
      * apply in_app_or in Hqin. destruct Hqin as [Hqin|Hqin].
        -- left. rewrite <- Hq. apply in_map.
           apply (Permutation_in _ (Permutation_sym Hp')). destruct keep; [now right|assumption].
        -- right. destruct (Hd q Hqin) as (Hex' & i & Hcur).
           assert (Hq' : In q (others ++ dropped)) by (apply in_or_app; now right).
           destruct (Hrest q Hq') as [Hqs _].
           assert (Hb : burst q = burst p0).
           { apply burst_link; auto. apply (proj1 (Forall_forall _ _) (tm_from Ht) q Hqs). }
           pose proof (proj1 (Forall_forall _ _) (inv_from Hi) q Hqs) as (_ & _ & Hrm).
           pose proof (ac_open Ha Hcur) as Hop.
           rewrite <- Hq in *. rewrite Hsame by assumption.
           destruct (Hst q Hqs) as [_ E1]. rewrite (E1 Hne).
           split; [lia | intros; congruence].
    + destruct (ac_gone Ha p0 Hin Hne) as [H|H]; [contradiction|]. right.
      rewrite Hs by assumption.
      destruct (String.eqb_spec (pid sel) (pid p0)) as [E|_].
      * exfalso. apply Hnmem. rewrite <- E. now apply in_map.
      * now rewrite Z.add_0_r.
Qed.
End Account.

Lemma rr_account quantum procs0 st st' :
  NoDup (map pid procs0) -> 0 < quantum ->
  inv (rr_body quantum) procs0 false st -> timely procs0 st ->
  account procs0 true st /\ Forall (slice_ok quantum) (s_gantt st) ->
  rr_body quantum st = Next st' ->
  account procs0 true st' /\ Forall (slice_ok quantum) (s_gantt st').
Proof.
  intros Hnd Hq Hi Ht [Ha Hsl] Hb. pose proof (inv_cur Hi eq_refl) as Hcur.
  assert (Hcand : candidates (decision_of st) = ready_set (decision_of st)).
  { rewrite candidates_eq. unfold current_list. rewrite Hcur. apply app_nil_r. }
  destruct (rr_body_cases quantum st Hcur)
    as [[_ Hb']|[(_ & Hc & m & _ & Hb')|(_ & p & queue2 & Hr & Hb')]].
  - rewrite Hb' in Hb. discriminate.
  - rewrite Hb' in Hb. injection Hb as <-. split; [now apply account_idle|].
    unfold idle_state. simpl. apply Forall_app. split; [assumption|].
    constructor; [now left | constructor].
  - assert (Hperm : Permutation (procs_of st)
                      (p :: (queue2 ++ not_arrived (decision_of st)) ++ [])).
    { rewrite procs_perm, Hcand, Hr, app_nil_r. reflexivity. }
    assert (Hin : In p (procs_of st)).
    { apply (Permutation_in _ (Permutation_sym Hperm)). now left. }
    pose proof (proj1 (Forall_forall _ _) (inv_from Hi) p Hin) as (_ & _ & Hrem).
    destruct Hb' as [[Hle _]|[_ Hb']]; [lia|].
    rewrite Hb' in Hb. injection Hb as <-.
    set (run := Z.min quantum (remaining p)).
    assert (Hrun : 0 < run <= quantum /\ run <= remaining p) by (unfold run; lia).
    split.
    + eapply account_step with (sel := p) (dropped := []) (r' := remaining p - run)
        (keep := remaining p - run >? 0);
        [exact Hnd | exact Hi | exact Ht | exact Ha | exact Hperm | apply rr_run_perm
        | | lia | lia | intros c i H; discriminate | reflexivity | intros d []].
      intros k Hk. unfold full_gantt, closing, rr_run_state. simpl. rewrite Hcur.
      rewrite !app_nil_r, served_app, served_one. fold run.
      destruct (String.eqb (pid p) k); lia.
    + unfold rr_run_state. simpl. apply Forall_app. split; [assumption|].
      constructor; [|constructor]. right. unfold duration, i_end, i_start. simpl.
      fold run. lia.
Qed.

Lemma tick_full_gantt st gantt1 ready2 cur istart :
  full_gantt (tick_state st gantt1 ready2 cur istart)
  = gantt1 ++ [(pid cur, istart, s_time st + 1)].
Proof.
  unfold full_gantt, closing. destruct (Z.eq_dec (remaining cur - 1) 0) as [E|E].
  - rewrite tick_state_done by assumption. simpl. apply app_nil_r.
  - rewrite tick_state_going by assumption. reflexivity.
Qed.

Lemma tick_account key procs0 st gantt1 ready2 cur istart dropped :
  NoDup (map pid procs0) ->
  inv (p_body key) procs0 true st -> timely procs0 st -> account procs0 false st ->
  Permutation (procs_of st) (cur :: (ready2 ++ not_arrived (decision_of st)) ++ dropped) ->
  (forall k, k <> idle ->
     served k (gantt1 ++ [(pid cur, istart, s_time st + 1)])
     = served k (full_gantt st) + (if String.eqb (pid cur) k then 1 else 0)) ->
  (forall d, In d dropped -> exists i, s_current st = Some (d, i)) ->
  account procs0 false (tick_state st gantt1 ready2 cur istart).
Proof.
  intros Hnd Hi Ht Ha Hperm Hs Hd.
  assert (Hin : In cur (procs_of st)).
  { apply (Permutation_in _ (Permutation_sym Hperm)). now left. }
  pose proof (proj1 (Forall_forall _ _) (inv_from Hi) cur Hin) as (_ & _ & Hrem).
  assert (Hs' : forall k, k <> idle ->
            served k (full_gantt (tick_state st gantt1 ready2 cur istart))
            = served k (full_gantt st)
              + (if String.eqb (pid cur) k then remaining cur - (remaining cur - 1) else 0)).
  { intros k Hk. rewrite tick_full_gantt, Hs by assumption.
    destruct (String.eqb (pid cur) k); lia. }
  destruct (Z.eq_dec (remaining cur - 1) 0) as [E|E].
  - eapply account_step with (sel := cur) (keep := false) (r' := remaining cur - 1);
      [exact Hnd | exact Hi | exact Ht | exact Ha | exact Hperm | | exact Hs' | lia
      | intros _; exact E | | discriminate | intros d H; split; [reflexivity | now apply Hd]].
    + rewrite tick_state_done by assumption.
      unfold procs_of, current_list. simpl. rewrite app_nil_r. apply Permutation_app_comm.
    + rewrite tick_state_done by assumption. intros c i H. discriminate.
  - eapply account_step with (sel := cur) (keep := true) (r' := remaining cur - 1);
      [exact Hnd | exact Hi | exact Ht | exact Ha | exact Hperm | | exact Hs' | lia
      | discriminate | | discriminate | intros d H; split; [reflexivity | now apply Hd]].
    + rewrite tick_state_going by assumption.
      unfold procs_of, current_list. simpl. rewrite app_assoc.
      rewrite <- Permutation_cons_append. constructor. apply Permutation_app_comm.
    + rewrite tick_state_going by assumption. intros c i H. simpl in H.
      now injection H as <- _.
Qed.

Lemma p_account key procs0 st st' :
  NoDup (map pid procs0) ->
  inv (p_body key) procs0 true st -> timely procs0 st -> account procs0 false st ->
  p_body key st = Next st' -> account procs0 false st'.
Proof.
  intros Hnd Hi Ht Ha Hb.
  destruct (p_body_cases key st (inv_pids Hi) (inv_oids Hi))
    as [[_ Hb']|[(_ & Hc & m & _ & Hb')
       |[(_ & chosen & l1 & l2 & Hr & Hb')|(_ & c & i & Hcur & Hb')]]];
    rewrite Hb' in Hb; [discriminate | | |]; injection Hb as <-.
  - now apply account_idle.
  - eapply tick_account with (dropped := current_list st);
      [exact Hnd | exact Hi | exact Ht | exact Ha | | |].
    + rewrite procs_perm, candidates_eq, Hr. rewrite <- !app_assoc. simpl.
      rewrite <- Permutation_middle. constructor.
      apply Permutation_app_head, Permutation_app_head, Permutation_app_comm.
    + intros k Hk. fold (full_gantt st). rewrite served_app, served_one.
      destruct (String.eqb (pid chosen) k); lia.
    + unfold current_list. intros d Hd.
      destruct (s_current st) as [[c i]|]; [|contradiction].
      destruct Hd as [<-|[]]. eauto.
  - eapply tick_account with (dropped := []);
      [exact Hnd | exact Hi | exact Ht | exact Ha | | | intros d []].
    + rewrite procs_perm, candidates_eq. unfold current_list. rewrite Hcur.
      rewrite app_nil_r, <- app_assoc. simpl. symmetry. apply Permutation_middle.
    + intros k Hk. unfold full_gantt, closing. rewrite Hcur.
      rewrite !served_app, !served_one. destruct (String.eqb (pid c) k); lia.
Qed.

Lemma copy_from_of procs : forall i p,
  In p procs ->
  exists q, In q (copy_from i procs) /\ pid q = pid p /\ burst q = burst p.
Proof.
  induction procs as [|a l IH]; intros i p Hp; [contradiction|].
  destruct Hp as [->|Hp].
  - eexists. split; [now left|]. simpl. auto.
  - destruct (IH (Datatypes.S i) p Hp) as (q & Hq & H). exists q. split; [now right | exact H].
Qed.

Lemma account_copies exact procs :
  well_formed procs -> account (copy_procs procs) exact (init_state (copy_procs procs)).
Proof.
  intros Hwf. apply account_init.
  eapply Forall_impl; [|apply copy_from_burst, well_formed_burst, Hwf].
  simpl. intros p H. apply H.
Qed.

Lemma copies_nodup procs : well_formed procs -> NoDup (map pid (copy_procs procs)).
Proof. intros Hwf. unfold copy_procs. rewrite copy_from_pid. apply Hwf. Qed.

(** What the accounting says once the loop has returned. *)
Lemma account_result exact procs st p :
  account (copy_procs procs) exact st -> procs_of st = [] -> s_current st = None ->
  In p procs -> pid p <> idle ->
  0 < served (pid p) (s_gantt st) <= burst p
  /\ (exact = true -> served (pid p) (s_gantt st) = burst p).
Proof.
  intros Ha Hnil Hcur Hp Hne.
  destruct (@copy_from_of procs 0%nat p Hp) as (q & Hq & E1 & E2).
  assert (Hf : full_gantt st = s_gantt st).
  { unfold full_gantt, closing. rewrite Hcur. apply app_nil_r. }
  destruct (ac_gone Ha q Hq) as [H|H]; [congruence | | ].
  - rewrite Hnil in H. contradiction.
  - rewrite Hf, E1, E2 in H. exact H.
Qed.

Lemma round_robin_account procs quantum fuel g :
  well_formed procs -> 0 < quantum ->
  round_robin fuel procs quantum = Returned g ->
  (forall p, In p procs -> pid p <> idle -> served (pid p) g = burst p)
  /\ Forall (fun x => actor x = idle \/ 0 < duration x <= quantum) g.
Proof.
  intros Hwf Hq Hw. unfold round_robin in Hw.
  destruct (@extra_result (rr_body quantum) (copy_procs procs) false
              (fun st => rr_spec Hq (st := st))
              (fun st => timely (copy_procs procs) st
                         /\ account (copy_procs procs) true st
                         /\ Forall (slice_ok quantum) (s_gantt st)))
    with (fuel := fuel) (st := init_state (copy_procs procs)) (g := g)
    as (st & Hi & (_ & Ha & Hs) & Hnil & Hcur & ->).
  - intros st st' Hi (Ht & Ha) Hb. split.
    + eapply rr_timely; eassumption.
    + eapply rr_account; try eassumption. now apply copies_nodup.
  - now apply inv_copies.
  - split; [apply timely_init|]. split; [now apply account_copies | constructor].
  - exact Hw.
  - split.
    + intros p Hp Hne. eapply account_result; eauto.
    + pose proof (contiguous_positive _ _ (proj1 (inv_chain Hi))) as Hpos.
      apply Forall_forall. intros x Hx.
      pose proof (proj1 (Forall_forall _ _) Hs x Hx) as [H|H]; [now left|]. right.
      pose proof (proj1 (Forall_forall _ _) Hpos x Hx). unfold duration in *. lia.
Qed.

(** X6. Round Robin with a positive quantum, on a well-formed input, gives
    every process exactly its burst: the intervals that carry its pid add
    up to its burst time, and no run lasts longer than the quantum.  (The
    label "idle" is that of the gaps, so a process of that name is left
    out.) *)
Theorem X6_round_robin_serves_whole_bursts procs quantum :
  well_formed procs -> 0 < quantum ->
  exists fuel g,
    round_robin fuel procs quantum = Returned g
    /\ (forall p, In p procs -> pid p <> idle -> served (pid p) g = burst p)
    /\ (forall x, In x g -> actor x <> idle -> 0 < duration x <= quantum).
Proof.
  intros Hwf Hq. destruct (round_robin_returns procs Hq) as (fuel & g & Hw).
  exists fuel, g. split; [exact Hw|].
  destruct (round_robin_account fuel Hwf Hq Hw) as [H1 H2]. split; [exact H1|].
  intros x Hx Hne.
  destruct (proj1 (Forall_forall _ _) H2 x Hx) as [E|E]; [contradiction | exact E].
Qed.

Lemma rr_scenario_wf : well_formed rr_scenario.
Proof.
  split.
  - repeat constructor; simpl; try lia; discriminate.
  - repeat constructor; simpl; intuition discriminate.
Qed.

Lemma X6_round_robin_serves_whole_bursts_witness :
  exists fuel g,
    round_robin fuel rr_scenario 2 = Returned g
    /\ (forall p, In p rr_scenario -> pid p <> idle -> served (pid p) g = burst p)
    /\ (forall x, In x g -> actor x <> idle -> 0 < duration x <= 2).
Proof.
  apply X6_round_robin_serves_whole_bursts.
  - exact rr_scenario_wf.
  - lia.
Defined.

Lemma preemptive_account key procs fuel g :
  well_formed procs ->
  while_loop (p_body key) fuel (init_state (copy_procs procs)) = Returned g ->
  forall p, In p procs -> pid p <> idle -> 0 < served (pid p) g <= burst p.
Proof.
  intros Hwf Hw.
  destruct (@extra_result (p_body key) (copy_procs procs) true
              (fun st => p_spec (st := st))
              (fun st => timely (copy_procs procs) st
                         /\ account (copy_procs procs) false st))
    with (fuel := fuel) (st := init_state (copy_procs procs)) (g := g)
    as (st & Hi & (_ & Ha) & Hnil & Hcur & ->).
  - intros st st' Hi (Ht & Ha) Hb. split.
    + eapply p_timely; eassumption.
    + eapply p_account; try eassumption. now apply copies_nodup.
  - now apply inv_copies.
  - split; [apply timely_init | now apply account_copies].
  - exact Hw.
  - intros p Hp Hne. eapply account_result; eauto.
Qed.

(** X7. The preemptive policies never serve a process for longer than its
    burst, and serve every process for at least one tick: on a well-formed
    input the intervals that carry a pid add up to between 1 and the burst
    of the process.  (They may add up to less than the burst: a preempted
    process is not put back.) *)
Theorem X7_preemptive_service_within_burst algorithm quantum procs :
  algorithm = "sjf-p"%string \/ algorithm = "priority-p"%string ->
  well_formed procs ->
  exists fuel g,
    select_algorithm fuel algorithm quantum procs = Returned g
    /\ forall p, In p procs -> pid p <> idle -> 0 < served (pid p) g <= burst p.
Proof.
  intros Hk Hwf.
  assert (Hin : In algorithm known_keys) by (destruct Hk as [-> | ->]; simpl; tauto).
  assert (Hq : algorithm = "rr"%string -> 0 < quantum)
    by (destruct Hk as [-> | ->]; discriminate).
  destruct (engine_ok Hin Hwf Hq) as (g & fuel & H & _).
  exists fuel, g. split; [exact H|].
  destruct Hk as [-> | ->]; unfold select_algorithm in H; simpl String.eqb in H;
    cbv iota in H; eapply preemptive_account; eassumption.
Qed.

Lemma X7_preemptive_service_within_burst_witness :
  exists fuel g,
    select_algorithm fuel "sjf-p" 2 preempt_scenario = Returned g
    /\ forall p, In p preempt_scenario -> pid p <> idle -> 0 < served (pid p) g <= burst p.
Proof.
  apply X7_preemptive_service_within_burst.
  - now left.
  - exact preempt_scenario_wf.
Defined.

(** ** Runs without preemption *)

Lemma busy_app g1 g2 : busy (g1 ++ g2) = busy g1 ++ busy g2.
Proof. apply filter_app. Qed.

Lemma named_app l1 l2 : named (l1 ++ l2) = named l1 ++ named l2.
Proof. apply filter_app. Qed.

Lemma busy_gap s e : busy [(idle, s, e)] = [].
Proof. reflexivity. Qed.

(** A run is kept by [busy] exactly when its process is kept by [named]. *)
Lemma busy_run p s e :
  (busy [(pid p, s, e)] = [] /\ named [p] = [])
  \/ (busy [(pid p, s, e)] = [(pid p, s, e)] /\ named [p] = [p]).
Proof.
  unfold busy, named, actor. simpl.
  destruct (String.eqb (pid p) idle); simpl; auto.
Qed.

Lemma fcfs_runs procs :
  Forall2 run_of (busy (fcfs procs)) (named (py_sort key_arrival procs)).
Proof.
  unfold fcfs.
  apply (fold_left_prefix_ind fcfs_body
           (fun done st => Forall2 run_of (busy (snd st)) (named done))).
  - constructor.
  - intros done p rest _ H. destruct (fold_left fcfs_body done (0, [])) as [t g].
    simpl in H. rewrite named_app.
    assert (Hrun : forall s, arrival p <= s ->
              Forall2 run_of (busy [(pid p, s, s + burst p)]) (named [p])).
    { intros s Hs. destruct (busy_run p s (s + burst p)) as [[-> ->]|[-> ->]];
        constructor; [|constructor]. unfold run_of, actor, i_start, i_end. simpl. auto. }
    unfold fcfs_body. destruct (Z.ltb_spec t (arrival p)); simpl.
    + rewrite !busy_app, busy_gap, app_nil_r.
      apply Forall2_app; [assumption | apply Hrun; lia].
    + rewrite busy_app. apply Forall2_app; [assumption | apply Hrun; lia].
Qed.

(** The sort is stable: processes of equal arrival keep their order. *)
Lemma insert_sorted_stable a x s :
  filter (fun p => arrival p =? a) (insert_sorted key_arrival x s)
  = filter (fun p => arrival p =? a) (x :: s).
Proof.
  induction s as [|y s IH]; [reflexivity|].
  assert (Hk : tuple_ltb (key_arrival y) (key_arrival x) = (arrival y <? arrival x)).
  { unfold key_arrival. simpl. destruct (arrival y <? arrival x); [reflexivity|].
    now destruct (arrival x <? arrival y). }
  cbn [insert_sorted]. rewrite Hk.
  destruct (Z.ltb_spec (arrival y) (arrival x)) as [Hlt|Hge]; [|reflexivity].
  simpl filter in *. rewrite IH.
  destruct (Z.eqb_spec (arrival x) a), (Z.eqb_spec (arrival y) a); try reflexivity. lia.
Qed.

Lemma py_sort_stable a l :
  filter (fun p => arrival p =? a) (py_sort key_arrival l)
  = filter (fun p => arrival p =? a) l.
Proof.
  induction l as [|x l IH]; [reflexivity|].
  simpl py_sort. rewrite insert_sorted_stable. simpl. now rewrite IH.
Qed.

(** X8. First come, first served: on every input, [fcfs] runs the processes
    one after the other in the order of their arrival, those of equal
    arrival in the order of the input, each in a single run of the length of
    its burst that does not begin before the process arrives.  (Runs are the
    intervals not labelled "idle"; a process of that name is left out.) *)
Theorem X8_fcfs_runs_in_arrival_order procs :
  exists order,
    Forall2 run_of (busy (fcfs procs)) (named order)
    /\ Permutation order procs
    /\ StronglySorted (fun a b => arrival a <= arrival b) order
    /\ forall a, filter (fun p => arrival p =? a) order
                 = filter (fun p => arrival p =? a) procs.
Proof.
  exists (py_sort key_arrival procs).
  split; [apply fcfs_runs|]. split; [apply py_sort_perm|].
  split; [apply py_sort_arrival | intros a; apply py_sort_stable].
Qed.

(** *** The order of the selection keys *)

Lemma tuple_ltb_asym a : forall b, tuple_ltb a b = true -> tuple_ltb b a = false.
Proof.
  induction a as [|x a IH]; intros [|y b]; simpl; try congruence.
  destruct (Z.ltb_spec x y), (Z.ltb_spec y x); try congruence; try lia. apply IH.
Qed.

Lemma tuple_leb_trans a : forall b c,
  tuple_ltb b a = false -> tuple_ltb c b = false -> tuple_ltb c a = false.
Proof.
  induction a as [|x a IH]; intros [|y b] [|z c]; simpl; try congruence.
  destruct (Z.ltb_spec y x), (Z.ltb_spec x y), (Z.ltb_spec z y), (Z.ltb_spec y z),
    (Z.ltb_spec z x), (Z.ltb_spec x z); try congruence; try lia. apply IH.
Qed.

(** The head of a sorted list has the smallest key. *)
Lemma py_sort_least key l :
  match py_sort key l with
  | [] => True
  | p :: r => Forall (fun q => tuple_ltb (key q) (key p) = false) r
  end.
Proof.
  induction l as [|x l IH]; simpl; [exact I|].
  destruct (py_sort key l) as [|y s]; simpl; [constructor|].
  destruct (tuple_ltb (key y) (key x)) eqn:E.
  - apply Forall_forall. intros z Hz. apply insert_sorted_in in Hz.
    destruct Hz as [->|Hz]; [now apply tuple_ltb_asym|].
    now apply (proj1 (Forall_forall _ _) IH).
  - constructor; [exact E|]. eapply Forall_impl; [|exact IH]. simpl. intros z Hz.
    now apply tuple_leb_trans with (b := key y).
Qed.

(** *** Picking *)

Lemma picks_mono key runs : forall order rest rest',
  (forall q, In q rest' -> In q rest) ->
  picks key runs order rest -> picks key runs order rest'.
Proof.
  induction runs as [|x runs IH]; intros [|p order] rest rest' Hsub H; simpl in *; auto.
  destruct H as (H1 & H2 & H3). split; [exact H1|]. split; [|now apply (IH order rest)].
  intros q Hq. apply H2. apply in_app_or in Hq. apply in_or_app.
  destruct Hq; auto.
Qed.

Lemma picks_snoc key runs : forall order rest rest' x p,
  (forall q, In q rest' -> In q rest) -> In p rest ->
  picks key runs order rest -> run_of x p ->
  (forall q, In q rest' -> arrival q <= i_start x -> tuple_ltb (key q) (key p) = false) ->
  picks key (runs ++ [x]) (order ++ [p]) rest'.
Proof.
  induction runs as [|x0 runs IH]; intros [|p0 order] rest rest' x p Hsub Hp H Hr Hmin;
    simpl in *; try contradiction.
  - split; [exact Hr|]. split; [exact Hmin | exact I].
  - destruct H as (H1 & H2 & H3). split; [exact H1|].
    split; [|now apply (IH order rest)].
    intros q Hq. apply H2. apply in_or_app. apply in_app_or in Hq.
    destruct Hq as [Hq|Hq]; [|now auto].
    apply in_app_or in Hq. destruct Hq as [Hq|[<-|[]]]; auto.
Qed.

Lemma picked_init key procs0 : picked key procs0 (init_state procs0).
Proof.
  exists []. split; [|exact I].
  unfold procs_of, current_list. simpl. now rewrite app_nil_r.
Qed.

Lemma np_picked key guarded procs0 st st' :
  inv (np_body key guarded) procs0 false st -> timely procs0 st -> picked key procs0 st ->
  np_body key guarded st = Next st' -> picked key procs0 st'.
Proof.
  intros Hi Ht (done & Hperm & Hpk) Hb. pose proof (inv_cur Hi eq_refl) as Hcur.
  destruct (np_body_cases key guarded st Hcur)
    as [[_ Hb']|[(_ & Hc & m & _ & Hb')|(_ & p & ready2 & Hs & Hb')]];
    rewrite Hb' in Hb; [discriminate | |]; injection Hb as <-.
  - exists done. rewrite procs_of_idle_state by assumption. split; [exact Hperm|].
    unfold idle_state. simpl. now rewrite busy_app, busy_gap, app_nil_r.
  - assert (Hcand : candidates (decision_of st) = ready_set (decision_of st)).
    { unfold candidates. simpl. rewrite Hcur. simpl. now rewrite app_nil_r. }
    assert (Hp1 : Permutation (procs_of st) (p :: ready2 ++ not_arrived (decision_of st))).
    { rewrite procs_perm, Hcand.
      transitivity (py_sort key (ready_set (decision_of st)) ++ not_arrived (decision_of st)).
      - apply Permutation_app_tail. symmetry. apply py_sort_perm.
      - rewrite Hs. reflexivity. }
    assert (Hp2 : Permutation (procs_of (np_run_state st p ready2))
                    (ready2 ++ not_arrived (decision_of st))).
    { unfold procs_of, current_list, np_run_state. simpl. rewrite app_nil_r.
      apply Permutation_app_comm. }
    assert (Hsub : forall q, In q (procs_of (np_run_state st p ready2)) -> In q (procs_of st)).
    { intros q Hq. apply (Permutation_in _ (Permutation_sym Hp1)). right.
      now apply (Permutation_in _ Hp2). }
    assert (Hin : In p (procs_of st)).
    { apply (Permutation_in _ (Permutation_sym Hp1)). now left. }
    assert (Harr : arrival p <= s_time st).
    { apply (proj1 (Forall_forall _ _) (ready_set_arrived Ht)).
      apply (py_sort_in key). rewrite Hs. now left. }
    exists (done ++ [p]). split.
    + rewrite Hperm, Hp1, Hp2, <- app_assoc. reflexivity.
    + unfold np_run_state at 1. simpl s_gantt. rewrite busy_app, named_app.
      destruct (busy_run p (s_time st) (s_time st + burst p)) as [[-> ->]|[-> ->]].
      * rewrite !app_nil_r. now apply picks_mono with (rest := procs_of st).
      * apply picks_snoc with (rest := procs_of st); auto.
        -- unfold run_of, actor, i_start, i_end. simpl. auto.
        -- unfold i_start. simpl. intros q Hq Hqa.
           apply (Permutation_in _ Hp2) in Hq. apply in_app_or in Hq.
           destruct Hq as [Hq|Hq].
           ++ pose proof (py_sort_least key (ready_set (decision_of st))) as Hl.
              rewrite Hs in Hl. now apply (proj1 (Forall_forall _ _) Hl).
           ++ simpl in Hq. apply filter_In in Hq. destruct Hq as [_ Hq].
              unfold waiting in Hq. apply negb_true_iff in Hq.
              apply Z.leb_gt in Hq. lia.
Qed.

(** *** From the copies to the input *)

Lemma copies_of_input procs : forall i, Forall2 copy_of (copy_from i procs) procs.
Proof.
  induction procs as [|p l IH]; intros i; simpl; constructor.
  - unfold copy_of. simpl. auto.
  - apply IH.
Qed.

Lemma named_copies l l' : Forall2 copy_of l l' -> Forall2 copy_of (named l) (named l').
Proof.
  induction 1 as [|q p l l' Hqp _ IH]; simpl; [constructor|].
  destruct Hqp as (E & Hrest). rewrite E.
  destruct (String.eqb (pid p) idle); simpl; [exact IH|].
  constructor; [|exact IH]. unfold copy_of. auto.
Qed.

Lemma forall2_right {A B} (P : A -> B -> Prop) l l' b :
  Forall2 P l l' -> In b l' -> exists a, In a l /\ P a b.
Proof.
  induction 1 as [|a0 b0 l l' H0 _ IH]; intros Hb; [contradiction|].
  destruct Hb as [<-|Hb].
  - exists a0. split; [now left | exact H0].
  - destruct (IH Hb) as (a & Ha & Hp). exists a. split; [now right | exact Hp].
Qed.

Lemma picks_copies key :
  (forall q p, copy_of q p -> key q = key p) ->
  forall runs order order',
    Forall2 copy_of order order' -> picks key runs order [] -> picks key runs order' [].
Proof.
  intros Hkey. induction runs as [|x runs IH]; intros order order' Hf H.
  - destruct Hf; simpl in *; [exact I | contradiction].
  - destruct Hf as [|q p order order' Hqp Hf]; simpl in *; [contradiction|].
    destruct H as ((E1 & E2 & E3) & H2 & H3).
    destruct Hqp as (Epid & Earr & Eburst & Eprio).
    split; [|split].
    + unfold run_of. rewrite <- Epid, <- Earr, <- Eburst. auto.
    + intros q' Hq' Ha. rewrite app_nil_r in Hq'.
      destruct (@forall2_right _ _ copy_of order order' q' Hf Hq') as (q0 & Hq0 & Hc).
      rewrite <- (Hkey q p), <- (Hkey q0 q') by (unfold copy_of; auto).
      apply H2; [rewrite app_nil_r; exact Hq0|]. destruct Hc as (_ & -> & _). exact Ha.
    + now apply (IH order order').
Qed.

Lemma nonpreemptive_picks key guarded procs fuel g :
  (forall q p, copy_of q p -> key q = key p) ->
  well_formed procs ->
  while_loop (np_body key guarded) fuel (init_state (copy_procs procs)) = Returned g ->
  exists order, Permutation order procs /\ picks key (busy g) (named order) [].
Proof.
  intros Hkey Hwf Hw.
  destruct (@extra_result (np_body key guarded) (copy_procs procs) false
              (fun st => np_spec (st := st))
              (fun st => timely (copy_procs procs) st /\ picked key (copy_procs procs) st))
    with (fuel := fuel) (st := init_state (copy_procs procs)) (g := g)
    as (st & _ & (_ & done & Hperm & Hpk) & Hnil & _ & ->).
  - intros st st' Hi (Ht & Hp) Hb. split.
    + eapply np_timely; eassumption.
    + eapply np_picked; eassumption.
  - now apply inv_copies.
  - split; [apply timely_init | apply picked_init].
  - exact Hw.
  - rewrite Hnil in Hperm, Hpk. rewrite app_nil_r in Hperm.
    destruct (Permutation_Forall2 Hperm (copies_of_input procs 0)) as (order & Hp & Hf).
    exists order. split; [now symmetry|].
    apply picks_copies with (order := named done); [exact Hkey | | exact Hpk].
    now apply named_copies.
Qed.

(** X9. Shortest job first and priority scheduling without preemption: on a
    well-formed input every process runs once, for the whole of its burst
    and not before it arrives, and when a run begins no process that has
    arrived and runs later has a smaller key than the one that runs; the key
    is (burst, arrival) for [sjf-np] and (priority, arrival) for
    [priority-np].  (Runs are the intervals not labelled "idle"; a process
    of that name is left out.) *)
Theorem X9_nonpreemptive_runs_smallest_key algorithm key quantum procs :
  In (algorithm, key)
     [("sjf-np"%string, key_sjf_np); ("priority-np"%string, key_priority_np)] ->
  well_formed procs ->
  exists fuel g order,
    select_algorithm fuel algorithm quantum procs = Returned g
    /\ Permutation order procs
    /\ picks key (busy g) (named order) [].
Proof.
  intros Hk Hwf.
  assert (Hin : In algorithm known_keys).
  { destruct Hk as [E|[E|[]]]; injection E as <- _; simpl; tauto. }
  assert (Hq : algorithm = "rr"%string -> 0 < quantum).
  { destruct Hk as [E|[E|[]]]; injection E as <- _; discriminate. }
  destruct (engine_ok Hin Hwf Hq) as (g & fuel & H & _).
  exists fuel, g.
  destruct Hk as [E|[E|[]]]; injection E as <- <-;
    unfold select_algorithm in H; simpl String.eqb in H; cbv iota in H;
    unfold sjf_nonpreemptive, priority_nonpreemptive in H;
    (edestruct nonpreemptive_picks as (order & Hp & Hpk);
       [ | exact Hwf | exact H | exists order; auto]).
  - intros q p (_ & Ea & Eb & _). unfold key_sjf_np. now rewrite Ea, Eb.
  - intros q p (_ & Ea & _ & Ep). unfold key_priority_np. now rewrite Ea, Ep.
Qed.

Lemma X9_nonpreemptive_runs_smallest_key_witness :
  exists fuel g order,
    select_algorithm fuel "sjf-np" 2 starve_scenario = Returned g
    /\ Permutation order starve_scenario
    /\ picks key_sjf_np (busy g) (named order) [].
Proof.
  apply X9_nonpreemptive_runs_smallest_key.
  - now left.
  - split.
    + repeat constructor; simpl; try lia; discriminate.
    + repeat constructor; simpl; intuition discriminate.
Defined.

(** ** Metrics of the policies without preemption *)

Lemma picks_runs key runs : forall order rest,
  picks key runs order rest -> Forall2 run_of runs order.
Proof.
  induction runs as [|x runs IH]; intros [|p order] rest H; simpl in H;
    try contradiction; constructor.
  - apply H.
  - apply (IH order rest), H.
Qed.

Lemma nonpreemptive_keys algorithm :
  In algorithm ["fcfs"; "sjf-np"; "priority-np"]%string ->
  algorithm = "fcfs"%string \/ algorithm = "sjf-np"%string
  \/ algorithm = "priority-np"%string.
Proof. simpl. intuition. Qed.

(** Without preemption every process runs once, for its burst. *)
Lemma nonpreemptive_runs algorithm quantum procs :
  In algorithm ["fcfs"; "sjf-np"; "priority-np"]%string -> well_formed procs ->
  exists fuel g order,
    select_algorithm fuel algorithm quantum procs = Returned g
    /\ Permutation order procs
    /\ Forall2 run_of (busy g) (named order)
    /\ Forall (fun x => actor x = idle \/ In (actor x) (map pid procs)) g.
Proof.
  intros Hk Hwf.
  assert (Hin : In algorithm known_keys).
  { destruct (nonpreemptive_keys Hk) as [-> | [-> | ->]]; simpl; tauto. }
  assert (Hq : algorithm = "rr"%string -> 0 < quantum).
  { destruct (nonpreemptive_keys Hk) as [-> | [-> | ->]]; discriminate. }
  destruct (engine_ok Hin Hwf Hq) as (g & fuel & H & _ & _ & Hact & _).
  exists fuel, g.
  destruct (nonpreemptive_keys Hk) as [-> | [-> | ->]];
    unfold select_algorithm in H; simpl String.eqb in H; cbv iota in H.
  - injection H as <-. exists (py_sort key_arrival procs).
    split; [reflexivity|]. split; [apply py_sort_perm|].
    split; [apply fcfs_runs | exact Hact].
  - unfold sjf_nonpreemptive in H.
    edestruct nonpreemptive_picks as (order & Hp & Hpk); [ | exact Hwf | exact H | ].
    + intros q p (_ & Ea & Eb & _). unfold key_sjf_np. now rewrite Ea, Eb.
    + exists order. split; [exact H|]. split; [exact Hp|].
      split; [eapply picks_runs; exact Hpk | exact Hact].
  - unfold priority_nonpreemptive in H.
    edestruct nonpreemptive_picks as (order & Hp & Hpk); [ | exact Hwf | exact H | ].
    + intros q p (_ & Ea & _ & Ep). unfold key_priority_np. now rewrite Ea, Ep.
    + exists order. split; [exact H|]. split; [exact Hp|].
      split; [eapply picks_runs; exact Hpk | exact Hact].
Qed.

Lemma runs_of_busy who g :
  runs_of who g = filter (fun x => String.eqb (actor x) who) (busy g).
Proof.
  unfold runs_of, busy. induction g as [|x g IH]; simpl; [reflexivity|].
  destruct (String.eqb (actor x) idle); simpl.
  - rewrite andb_false_r. exact IH.
  - rewrite andb_true_r. destruct (String.eqb (actor x) who); now rewrite IH.
Qed.

(** Among runs that go one to one with processes of distinct pids, a pid
    has one run. *)
Lemma one_run runs order : Forall2 run_of runs order ->
  NoDup (map pid order) -> forall p, In p order ->
  exists x, filter (fun x => String.eqb (actor x) (pid p)) runs = [x] /\ run_of x p.
Proof.
  induction 1 as [|x0 p0 runs order H0 Hf IH]; intros Hn p Hp; [contradiction|].
  simpl in Hn. inversion Hn as [|? ? Hnin Hn']; subst. simpl.
  destruct H0 as (Ea & H0).
  assert (Hnone : forall l o, Forall2 run_of l o -> ~ In (pid p0) (map pid o) ->
            filter (fun x => String.eqb (actor x) (pid p0)) l = []).
  { induction 1 as [|x1 p1 l o (E1 & _) _ IH1]; intros Hni; simpl; [reflexivity|].
    simpl in Hni. rewrite E1.
    destruct (String.eqb_spec (pid p1) (pid p0)) as [E|E]; [exfalso; auto|].
    apply IH1. auto. }
  destruct Hp as [<-|Hp].
  - rewrite Ea, String.eqb_refl, (Hnone _ _ Hf Hnin). exists x0. split; [reflexivity|].
    split; assumption.
  - rewrite Ea. destruct (String.eqb_spec (pid p0) (pid p)) as [E|E].
    + exfalso. apply Hnin. rewrite E. now apply in_map.
    + now apply IH.
Qed.

Lemma procs_from_in proc_desc d : forall i,
  In d proc_desc ->
  exists p, In p (procs_from i proc_desc) /\ pid p = d_pid d
            /\ arrival p = d_arrival d /\ burst p = d_burst d.
Proof.
  induction proc_desc as [|d0 l IH]; intros i Hd; [contradiction|].
  destruct Hd as [->|Hd].
  - eexists. split; [now left|]. simpl. auto.
  - destruct (IH (Datatypes.S i) Hd) as (p & Hp & H). exists p. split; [now right | exact H].
Qed.

Lemma named_nodup l : NoDup (map pid l) -> NoDup (map pid (named l)).
Proof.
  induction l as [|p l IH]; simpl; intros H; [constructor|].
  inversion H as [|? ? Hnin Hn]; subst.
  destruct (String.eqb (pid p) idle); simpl; [now apply IH|].
  constructor; [|now apply IH]. intros Hin. apply Hnin.
  apply in_map_iff in Hin. destruct Hin as (q & E & Hq).
  apply filter_In in Hq. rewrite <- E. apply in_map, Hq.
Qed.

Lemma values_of_ext f f' rows :
  (forall r, In r rows -> f r = f' r) -> values_of f rows = values_of f' rows.
Proof.
  unfold values_of. induction rows as [|r rows IH]; intros H; simpl; [reflexivity|].
  rewrite (H r (or_introl eq_refl)), IH; [reflexivity|]. intros; apply H; now right.
Qed.

(** ** Metrics of every policy *)

(** In a contiguous timeline the runs of a process lie between its first
    start and its last end. *)
Lemma run_span who g : who <> idle -> forall t, contiguous_from t g ->
  match start_of_first (runs_of who g), end_of_last (runs_of who g) with
  | Some s, Some e => t <= s /\ 0 < served who g <= e - s
  | _, _ => served who g = 0
  end.
Proof.
  intros Hne. induction g as [|x g IH]; intros t Hc; [reflexivity|].
  destruct Hc as (Hs & Hpos & Hc). specialize (IH _ Hc).
  rewrite runs_of_cons. cbn [served]. unfold duration.
  destruct (String.eqb_spec (actor x) who) as [E|E].
  - assert (Hi : String.eqb (actor x) idle = false) by (apply String.eqb_neq; congruence).
    rewrite Hi. simpl andb. cbv iota. cbn [start_of_first end_of_last].
    destruct (start_of_first (runs_of who g)) as [s'|] eqn:E1;
      destruct (end_of_last (runs_of who g)) as [e'|] eqn:E2.
    + lia.
    + apply first_last_none in E2. congruence.
    + apply first_last_none in E1. congruence.
    + lia.
  - simpl andb. cbv iota.
    destruct (start_of_first (runs_of who g)), (end_of_last (runs_of who g)); lia.
Qed.

Lemma first_run_in who g s :
  start_of_first (runs_of who g) = Some s ->
  exists x, In x g /\ actor x = who /\ actor x <> idle /\ i_start x = s.
Proof.
  destruct (runs_of who g) as [|x l] eqn:E; simpl; [discriminate|].
  intros H. injection H as <-. exists x.
  assert (Hx : In x (runs_of who g)) by (rewrite E; now left).
  unfold runs_of in Hx. apply filter_In in Hx. destruct Hx as [Hx Hb].
  apply andb_true_iff in Hb. destruct Hb as [H1 H2].
  apply String.eqb_eq in H1. apply negb_true_iff, String.eqb_neq in H2. auto.
Qed.

Lemma scheduled_runs DP who g : scheduled DP who g -> who <> idle -> runs_of who g <> [].
Proof.
  intros (x & Hx & Ea & _) Hne E.
  assert (Hin : In x (runs_of who g)).
  { unfold runs_of. apply filter_In. split; [exact Hx|]. rewrite Ea, String.eqb_refl.
    simpl. apply negb_true_iff, String.eqb_neq. exact Hne. }
  rewrite E in Hin. contradiction.
Qed.

(** ** A burst that is not positive under preemptive shortest job first *)

(** The passes of a preemptive loop, with what the sort says: the process
    that gets the tick is the head of the sorted candidates. *)
Lemma p_body_head key st :
  NoDup (map pid (procs_of st)) -> NoDup (map oid (procs_of st)) ->
  (loop_guard st = false /\ p_body key st = Stop (s_gantt st))
  \/ (loop_guard st = true /\ candidates (decision_of st) = []
      /\ exists m, py_min_arrival (not_arrived (decision_of st)) = Some m
                   /\ p_body key st = Next (idle_state st m))
  \/ (loop_guard st = true
      /\ exists chosen l1 l2 tl,
           ready_set (decision_of st) = l1 ++ chosen :: l2
           /\ py_sort key (candidates (decision_of st)) = chosen :: tl
           /\ p_body key st
              = Next (tick_state st (s_gantt st ++ closing st) (l1 ++ l2) chosen (s_time st)))
  \/ (loop_guard st = true
      /\ exists c i tl, s_current st = Some (c, i)
           /\ py_sort key (candidates (decision_of st)) = c :: tl
           /\ p_body key st = Next (tick_state st (s_gantt st) (ready_set (decision_of st)) c i)).
Proof.
  intros Hpid Hoid.
  pose proof (Permutation_NoDup (Permutation_map pid (procs_perm st)) Hpid) as Hpid'.
  pose proof (Permutation_NoDup (Permutation_map oid (procs_perm st)) Hoid) as Hoid'.
  rewrite map_app in Hpid', Hoid'.
  apply NoDup_app_remove_r in Hpid', Hoid'.
  rewrite candidates_eq. unfold current_list.
  unfold p_body.
  change (nonempty (s_remaining st) || nonempty (s_ready st) || is_some (s_current st))
    with (loop_guard st).
  destruct (loop_guard st) eqn:Hg; [|now left].
  right. rewrite admission_spec.
  change (s_ready st ++ filter (arrived (s_time st)) (s_remaining st))
    with (ready_set (decision_of st)).
  change (filter (waiting (s_time st)) (s_remaining st)) with (not_arrived (decision_of st)).
  unfold candidates in Hpid', Hoid'. unfold closing.
  change (running (decision_of st)) with (option_map fst (s_current st)) in Hpid', Hoid'.
  destruct (s_current st) as [[c i]|] eqn:Hcur; simpl option_map in Hpid', Hoid'.
  - right. rewrite nonempty_snoc. simpl negb. cbv iota.
    destruct (py_sort key (ready_set (decision_of st) ++ [c])) as [|chosen tl] eqn:Hs.
    { apply py_sort_nil in Hs. now destruct (ready_set (decision_of st)). }
    assert (Hin : In chosen (ready_set (decision_of st) ++ [c])).
    { apply (py_sort_in key). rewrite Hs. now left. }
    apply in_app_or in Hin. destruct Hin as [Hin|[<-|[]]].
    + left. split; [reflexivity|].
      assert (Hn : NoDup (map pid (ready_set (decision_of st)))).
      { rewrite map_app in Hpid'. now apply NoDup_app_remove_r in Hpid'. }
      destruct (py_remove_nodup chosen _ Hin Hn) as (l1 & l2 & Hsplit & Hrm).
      exists chosen, l1, l2, tl. split; [assumption|]. split; [reflexivity|].
      rewrite (py_in_true _ _ Hin), Hrm.
      assert (Hne : pid chosen <> pid c).
      { intros E. rewrite map_app in Hpid'. simpl in Hpid'.
        apply NoDup_remove_2 in Hpid'. apply Hpid'. rewrite app_nil_r, <- E.
        now apply in_map. }
      assert (One : oid chosen <> oid c).
      { intros E. rewrite map_app in Hoid'. simpl in Hoid'.
        apply NoDup_remove_2 in Hoid'. apply Hoid'. rewrite app_nil_r, <- E.
        now apply in_map. }
      apply String.eqb_neq in Hne. rewrite Hne. simpl negb. cbv iota.
      unfold Proc_is. apply Nat.eqb_neq in One. rewrite One.
      unfold tick_state. cbv zeta.
      destruct (remaining (set_remaining chosen (remaining chosen - 1)) =? 0); reflexivity.
    + right. split; [reflexivity|]. exists c, i, tl. split; [reflexivity|].
      split; [reflexivity|].
      rewrite String.eqb_refl. simpl negb. cbv iota.
      rewrite py_in_false.
      * unfold Proc_is. rewrite Nat.eqb_refl. unfold tick_state. cbv zeta.
        destruct (remaining (set_remaining c (remaining c - 1)) =? 0); reflexivity.
      * intros y Hy.
        apply (NoDup_map_split pid _ c [] Hpid'). now rewrite app_nil_r.
  - rewrite !app_nil_r.
    destruct (ready_set (decision_of st)) as [|r0 l] eqn:Hr.
    + left. assert (Hc : candidates (decision_of st) = []).
      { unfold candidates. rewrite Hr. simpl. now rewrite Hcur. }
      destruct (idle_case st Hg Hc) as (Hn & m & Hm & Hj). rewrite Hr in Hj.
      simpl negb. cbv iota. rewrite Hn. repeat split; eauto.
    + right. left. split; [reflexivity|]. simpl nonempty. simpl negb. cbv iota.
      destruct (py_sort key (r0 :: l)) as [|chosen tl] eqn:Hs.
      { apply py_sort_nil in Hs. discriminate. }
      assert (Hin : In chosen (r0 :: l)).
      { apply (py_sort_in key). rewrite Hs. now left. }
      assert (Hn : NoDup (map pid (r0 :: l))).
      { now rewrite app_nil_r in Hpid'. }
      destruct (py_remove_nodup chosen _ Hin Hn) as (l1 & l2 & Hsplit & Hrm).
      exists chosen, l1, l2, tl. split; [assumption|]. split; [reflexivity|].
      rewrite (py_in_true _ _ Hin), Hrm.
      unfold tick_state. cbv zeta.
      destruct (remaining (set_remaining chosen (remaining chosen - 1)) =? 0); reflexivity.
Qed.

Lemma tick_procs st gantt1 ready2 cur istart :
  Permutation (procs_of (tick_state st gantt1 ready2 cur istart))
    (if remaining cur - 1 =? 0 then ready2 ++ not_arrived (decision_of st)
     else set_remaining cur (remaining cur - 1) :: ready2 ++ not_arrived (decision_of st)).
Proof.
  destruct (Z.eqb_spec (remaining cur - 1) 0) as [E|E].
  - rewrite tick_state_done by assumption. unfold procs_of, current_list. simpl.
    rewrite app_nil_r. apply Permutation_app_comm.
  - rewrite tick_state_going by assumption. unfold procs_of, current_list. simpl.
    rewrite app_assoc, <- Permutation_cons_append. constructor. apply Permutation_app_comm.
Qed.

Lemma tick_nodup {A} (f : Proc -> A) st gantt1 ready2 cur istart dropped :
  (forall r, f (set_remaining cur r) = f cur) ->
  NoDup (map f (procs_of st)) ->
  Permutation (procs_of st) (cur :: (ready2 ++ not_arrived (decision_of st)) ++ dropped) ->
  NoDup (map f (procs_of (tick_state st gantt1 ready2 cur istart))).
Proof.
  intros Hf Hn Hperm.
  apply (Permutation_NoDup (Permutation_map f Hperm)) in Hn.
  change (cur :: (ready2 ++ not_arrived (decision_of st)) ++ dropped)
    with ((cur :: ready2 ++ not_arrived (decision_of st)) ++ dropped) in Hn.
  rewrite map_app in Hn. apply NoDup_app_remove_r in Hn.
  apply (Permutation_NoDup
           (Permutation_sym (Permutation_map f (tick_procs st gantt1 ready2 cur istart)))).
  destruct (remaining cur - 1 =? 0).
  - simpl in Hn. now inversion Hn.
  - simpl in *. now rewrite Hf.
Qed.

(** Once a process with nothing left to run is in the loop of
    [sjf_preemptive], one stays there: the sort puts such a process first, a
    tick takes its remaining time below zero, and only a remaining time of
    exactly zero ends a run. *)
Lemma sjf_p_spins_pass st :
  NoDup (map pid (procs_of st)) -> NoDup (map oid (procs_of st)) ->
  (exists q, In q (procs_of st) /\ remaining q <= 0) ->
  exists st', p_body key_sjf_p st = Next st'
    /\ NoDup (map pid (procs_of st')) /\ NoDup (map oid (procs_of st'))
    /\ exists q, In q (procs_of st') /\ remaining q <= 0.
Proof.
  intros Hpid Hoid (q & Hq & Hr).
  assert (Htick : forall gantt1 ready2 cur istart dropped tl,
            Permutation (procs_of st)
              (cur :: (ready2 ++ not_arrived (decision_of st)) ++ dropped) ->
            py_sort key_sjf_p (candidates (decision_of st)) = cur :: tl ->
            let st' := tick_state st gantt1 ready2 cur istart in
            NoDup (map pid (procs_of st')) /\ NoDup (map oid (procs_of st'))
            /\ exists q, In q (procs_of st') /\ remaining q <= 0).
  { intros gantt1 ready2 cur istart dropped tl Hperm Hs st'.
    split; [now apply tick_nodup with (dropped := dropped)|].
    split; [now apply tick_nodup with (dropped := dropped)|].
    pose proof (tick_procs st gantt1 ready2 cur istart) as Hp'. fold st' in Hp'.
    apply (Permutation_in _ (procs_perm st)) in Hq. apply in_app_or in Hq.
    destruct Hq as [Hq|Hq].
    - assert (Hle : remaining cur <= remaining q).
      { apply (py_sort_in key_sjf_p) in Hq. rewrite Hs in Hq.
        destruct Hq as [->|Hq]; [lia|].
        pose proof (py_sort_least key_sjf_p (candidates (decision_of st))) as Hl.
        rewrite Hs in Hl. apply (proj1 (Forall_forall _ _) Hl) in Hq.
        unfold key_sjf_p in Hq. simpl in Hq.
        destruct (Z.ltb_spec (remaining q) (remaining cur)); [discriminate | lia]. }
      exists (set_remaining cur (remaining cur - 1)). split; [|simpl; lia].
      apply (Permutation_in _ (Permutation_sym Hp')).
      destruct (Z.eqb_spec (remaining cur - 1) 0); [lia | now left].
    - exists q. split; [|exact Hr].
      apply (Permutation_in _ (Permutation_sym Hp')).
      destruct (remaining cur - 1 =? 0); [|right]; apply in_or_app; now right. }
  destruct (p_body_head key_sjf_p st Hpid Hoid)
    as [[Hg _]|[(_ & Hc & m & _ & Hb)
       |[(_ & chosen & l1 & l2 & tl & Hrd & Hs & Hb)|(_ & c & i & tl & Hcur & Hs & Hb)]]].
  - exfalso. unfold loop_guard in Hg.
    apply orb_false_iff in Hg. destruct Hg as [Hg H3].
    apply orb_false_iff in Hg. destruct Hg as [H1 H2].
    apply nonempty_false in H1, H2. unfold procs_of, current_list in Hq.
    rewrite H1, H2 in Hq. destruct (s_current st) as [[c i]|]; [discriminate | contradiction].
  - exists (idle_state st m). split; [exact Hb|].
    rewrite procs_of_idle_state by assumption. eauto.
  - eexists. split; [exact Hb|]. apply Htick with (dropped := current_list st) (tl := tl);
      [|exact Hs].
    rewrite procs_perm, candidates_eq, Hrd. rewrite <- !app_assoc. simpl.
    rewrite <- Permutation_middle. constructor.
    apply Permutation_app_head, Permutation_app_head, Permutation_app_comm.
  - eexists. split; [exact Hb|]. apply Htick with (dropped := []) (tl := tl); [|exact Hs].
    rewrite procs_perm, candidates_eq. unfold current_list. rewrite Hcur.
    rewrite app_nil_r, <- app_assoc. simpl. symmetry. apply Permutation_middle.
Qed.

Lemma sjf_p_spins : forall fuel st,
  NoDup (map pid (procs_of st)) -> NoDup (map oid (procs_of st)) ->
  (exists q, In q (procs_of st) /\ remaining q <= 0) ->
  while_loop (p_body key_sjf_p) fuel st = OutOfFuel.
Proof.
  induction fuel as [|fuel IH]; intros st Hpid Hoid Hex; [reflexivity|].
  destruct (sjf_p_spins_pass st Hpid Hoid Hex) as (st' & Hb & Hpid' & Hoid' & Hex').
  simpl. rewrite Hb. now apply IH.
Qed.

Lemma copy_from_nonpositive procs : forall i,
  (exists p, In p procs /\ burst p <= 0) ->
  exists q, In q (copy_from i procs) /\ remaining q <= 0.
Proof.
  induction procs as [|p l IH]; intros i (p0 & Hin & Hb); [contradiction|].
  destruct Hin as [->|Hin].
  - eexists. split; [now left | exact Hb].
  - destruct (IH (Datatypes.S i)) as (q & Hq & Hr); [eauto|].
    exists q. split; [now right | assumption].
Qed.

(** X13. A burst of zero (or less) makes preemptive shortest job first run
    for ever: on an input of distinct pids with a process whose burst is
    not positive, [sjf_preemptive] neither returns nor raises.  The loop
    ends a run only when the remaining time is exactly zero, and a process
    with nothing left is sorted first and taken below zero. *)
Theorem X13_sjf_preemptive_spins_on_empty_burst procs :
  NoDup (map pid procs) -> (exists p, In p procs /\ burst p <= 0) ->
  forall fuel, sjf_preemptive fuel procs = OutOfFuel.
Proof.
  intros Hn Hex fuel. unfold sjf_preemptive.
  assert (Hp : procs_of (init_state (copy_procs procs)) = copy_procs procs).
  { unfold procs_of, current_list. simpl. now rewrite app_nil_r. }
  apply sjf_p_spins; rewrite Hp; unfold copy_procs.
  - now rewrite copy_from_pid.
  - rewrite copy_from_oid. apply seq_NoDup.
  - now apply copy_from_nonpositive.
Qed.

Lemma X13_sjf_preemptive_spins_on_empty_burst_witness :
  sjf_preemptive 1000 [new_Proc 0 "P1" 0 3 0; new_Proc 1 "P2" 1 0 0] = OutOfFuel.
Proof.
  apply X13_sjf_preemptive_spins_on_empty_burst.
  - repeat constructor; simpl; intuition discriminate.
  - exists (new_Proc 1 "P2" 1 0 0). split; [simpl; tauto | simpl; lia].
Defined.

(** ** The loops without preemption on any input *)

Lemma idle_decreases st m :
  candidates (decision_of st) = [] ->
  py_min_arrival (not_arrived (decision_of st)) = Some m ->
  (loop_measure (idle_state st m) < loop_measure st)%nat.
Proof.
  intros Hc Hm. destruct (candidates_nil st Hc) as (Hr & Hcur & Hf & Hn).
  pose proof (min_arrival_earliest _ Hm) as [Hin _]. rewrite Hn in Hin.
  unfold loop_measure. rewrite Hc. simpl nonempty.
  rewrite procs_of_idle_state by assumption.
  assert (E : nonempty (candidates (decision_of (idle_state st m))) = true).
  { apply nonempty_true. intros E. apply candidates_nil in E. destruct E as (_ & _ & E & _).
    assert (Hm' : In m (filter (arrived (s_time (idle_state st m)))
                         (s_remaining (idle_state st m)))).
    { apply in_arrived. unfold idle_state. simpl.
      change (filter (waiting (s_time st)) (s_remaining st))
        with (not_arrived (decision_of st)).
      rewrite Hn. split; [assumption | lia]. }
    rewrite E in Hm'. contradiction. }
  rewrite E. lia.
Qed.

(** A pass of a loop without preemption never raises, and takes a process
    out of the lists or jumps to an arrival, whatever the processes are. *)
Lemma np_decreases key guarded st :
  s_current st = None ->
  match np_body key guarded st with
  | Next st' => s_current st' = None /\ (loop_measure st' < loop_measure st)%nat
  | Stop _ => True
  | Throw _ => False
  end.
Proof.
  intros Hcur.
  destruct (np_body_cases key guarded st Hcur)
    as [[_ ->]|[(_ & Hc & m & Hm & ->)|(_ & p & ready2 & Hs & ->)]]; [exact I | |].
  - split; [exact Hcur | now apply idle_decreases].
  - split; [reflexivity|]. apply measure_step.
    eapply weight_step with (sel := p) (keep := false) (r' := 0) (dropped := [])
      (others := ready2 ++ not_arrived (decision_of st)); [| |discriminate].
    + rewrite procs_perm, candidates_eq. unfold current_list. rewrite Hcur, !app_nil_r.
      transitivity (py_sort key (ready_set (decision_of st)) ++ not_arrived (decision_of st)).
      * apply Permutation_app_tail. symmetry. apply py_sort_perm.
      * rewrite Hs. reflexivity.
    + unfold procs_of, current_list, np_run_state. simpl. rewrite app_nil_r.
      apply Permutation_app_comm.
Qed.

(** X14. The policies without preemption return on every input: whatever
    the arrivals, bursts, priorities and pids (bursts of zero or less,
    repeated pids), [sjf_nonpreemptive] and [priority_nonpreemptive] end their
    loop and return a timeline, without raising. *)
Theorem X14_nonpreemptive_return_on_every_input algorithm quantum procs :
  algorithm = "sjf-np"%string \/ algorithm = "priority-np"%string ->
  exists fuel g, select_algorithm fuel algorithm quantum procs = Returned g.
Proof.
  assert (H : forall key guarded, exists fuel g,
            while_loop (np_body key guarded) fuel (init_state (copy_procs procs))
            = Returned g).
  { intros key guarded.
    destruct (while_loop_total (np_body key guarded) (fun st => s_current st = None)
                (fun _ => True) loop_measure) with (s := init_state (copy_procs procs))
      as (g & Hw & _).
    - intros st Hcur. pose proof (np_decreases key guarded st Hcur) as H.
      destruct (np_body key guarded st); auto.
    - reflexivity.
    - eauto. }
  intros [-> | ->]; unfold select_algorithm; simpl String.eqb; cbv iota; apply H.
Qed.

Lemma X14_nonpreemptive_return_on_every_input_witness :
  exists fuel g,
    select_algorithm fuel "sjf-np" 2
      [new_Proc 0 "P1" 3 0 0; new_Proc 1 "P1" (-1) (-2) 0] = Returned g.
Proof.
  apply X14_nonpreemptive_return_on_every_input. now left.
Defined.

(** ** The horizon: no timeline runs past the latest arrival plus the bursts *)

Lemma work_perm l1 l2 : Permutation l1 l2 -> work l1 = work l2.
Proof. induction 1; simpl; lia. Qed.

Lemma work_app l1 l2 : work (l1 ++ l2) = work l1 + work l2.
Proof. induction l1 as [|p l1 IH]; simpl; lia. Qed.

Lemma work_nonneg l : Forall (fun q => 0 < remaining q) l -> 0 <= work l.
Proof. induction 1; simpl; lia. Qed.

Lemma contiguous_before g : forall t,
  contiguous_from t g -> Forall (fun x => i_end x <= end_from t g) g.
Proof.
  induction g as [|x g IH]; intros t H; constructor; destruct H as (Hs & Hlt & Hc);
    rewrite end_from_cons.
  - now apply contiguous_le.
  - now apply IH.
Qed.

Lemma within_idle H st m :
  within H st -> candidates (decision_of st) = [] ->
  py_min_arrival (not_arrived (decision_of st)) = Some m ->
  within H (idle_state st m).
Proof.
  intros Hw Hc Hm. pose proof (min_arrival_earliest _ Hm) as [Hin _].
  assert (Hp : In m (procs_of st)).
  { apply (Permutation_in _ (Permutation_sym (procs_perm st))). apply in_or_app. now right. }
  apply in_waiting in Hin. constructor; rewrite procs_of_idle_state by assumption.
  - unfold idle_state. simpl. pose proof (wi_time Hw).
    pose proof (proj1 (Forall_forall _ _) (wi_arrivals Hw) m Hp). simpl in *. lia.
  - apply (wi_arrivals Hw).
Qed.

(** The bound passes from [st] to [st'] when the pass serves [sel] for as
    long as the clock advances and drops only processes with time left. *)
Lemma within_step H st st' sel others dropped r' (keep : bool) :
  within H st ->
  Forall (fun q => 0 < remaining q) (procs_of st) ->
  Permutation (procs_of st) (sel :: others ++ dropped) ->
  Permutation (procs_of st') (if keep then set_remaining sel r' :: others else others) ->
  0 <= r' <= remaining sel -> (keep = false -> r' = 0) ->
  s_time st <= s_time st' <= s_time st + (remaining sel - r') ->
  within H st'.
Proof.
  intros Hw Hpos Hp1 Hp2 Hr Hk Ht.
  assert (Hd : 0 <= work dropped).
  { apply work_nonneg. apply (Permutation_Forall Hp1) in Hpos.
    inversion Hpos as [|? ? _ Hrest]; subst. now apply Forall_app in Hrest. }
  assert (W1 : work (procs_of st) = remaining sel + (work others + work dropped)).
  { rewrite (work_perm Hp1). simpl. now rewrite work_app. }
  assert (W2 : work (procs_of st') = r' + work others).
  { rewrite (work_perm Hp2). destruct keep; simpl; [reflexivity|]. rewrite Hk; auto. }
  pose proof (wi_time Hw) as [H0 H1].
  constructor; [lia|].
  apply (Permutation_Forall (Permutation_sym Hp2)).
  assert (Ho : Forall (fun q => arrival q + work (procs_of st') <= H) (sel :: others)).
  { pose proof (Permutation_Forall Hp1 (wi_arrivals Hw)) as Ha.
    inversion Ha as [|? ? Hs Hrest]; subst. apply Forall_app in Hrest.
    constructor; [lia|]. eapply Forall_impl; [|apply Hrest]. simpl. intros; lia. }
  inversion Ho as [|? ? Hs Hrest]; subst.
  destruct keep; [constructor|]; assumption.
Qed.

Lemma inv_positive body procs0 preemptive st :
  inv body procs0 preemptive st -> Forall (fun q => 0 < remaining q) (procs_of st).
Proof.
  intros Hi. eapply Forall_impl; [|apply (inv_from Hi)]. simpl. intros q Hq. apply Hq.
Qed.

Lemma np_within key guarded procs0 H st st' :
  inv (np_body key guarded) procs0 false st ->
  within H st /\ Forall (fun q => remaining q = burst q) (procs_of st) ->
  np_body key guarded st = Next st' ->
  within H st' /\ Forall (fun q => remaining q = burst q) (procs_of st').
Proof.
  intros Hi [Hw Hf] Hb. pose proof (inv_cur Hi eq_refl) as Hcur.
  destruct (np_body_cases key guarded st Hcur)
    as [[_ Hb']|[(_ & Hc & m & Hm & Hb')|(_ & p & ready2 & Hs & Hb')]];
    rewrite Hb' in Hb; [discriminate | |]; injection Hb as <-.
  - split; [now apply within_idle | now rewrite procs_of_idle_state].
  - assert (Hp1 : Permutation (procs_of st)
                    (p :: (ready2 ++ not_arrived (decision_of st)) ++ [])).
    { rewrite procs_perm, candidates_eq. unfold current_list. rewrite Hcur, !app_nil_r.
      transitivity (py_sort key (ready_set (decision_of st)) ++ not_arrived (decision_of st)).
      - apply Permutation_app_tail. symmetry. apply py_sort_perm.
      - rewrite Hs. reflexivity. }
    assert (Hp2 : Permutation (procs_of (np_run_state st p ready2))
                    (ready2 ++ not_arrived (decision_of st))).
    { unfold procs_of, current_list, np_run_state. simpl. rewrite app_nil_r.
      apply Permutation_app_comm. }
    pose proof (Permutation_Forall Hp1 Hf) as Hf1.
    inversion Hf1 as [|? ? Hfp Hfr]; subst. rewrite app_nil_r in Hfr.
    pose proof (inv_positive Hi) as Hpos.
    pose proof (Permutation_Forall Hp1 Hpos) as Hpos1. inversion Hpos1; subst.
    split.
    + eapply within_step with (sel := p) (keep := false) (r' := 0) (dropped := []);
        [exact Hw | exact Hpos | exact Hp1 | exact Hp2 | lia | reflexivity |].
      unfold np_run_state. simpl. lia.
    + apply (Permutation_Forall (Permutation_sym Hp2)). exact Hfr.
Qed.

Lemma rr_within quantum procs0 H st st' :
  0 < quantum -> inv (rr_body quantum) procs0 false st -> within H st ->
  rr_body quantum st = Next st' -> within H st'.
Proof.
  intros Hq Hi Hw Hb. pose proof (inv_cur Hi eq_refl) as Hcur.
  destruct (rr_body_cases quantum st Hcur)
    as [[_ Hb']|[(_ & Hc & m & Hm & Hb')|(_ & p & queue2 & Hr & Hb')]].
  - rewrite Hb' in Hb. discriminate.
  - rewrite Hb' in Hb. injection Hb as <-. now apply within_idle.
  - assert (Hp1 : Permutation (procs_of st)
                    (p :: (queue2 ++ not_arrived (decision_of st)) ++ [])).
    { rewrite procs_perm, candidates_eq. unfold current_list.
      rewrite Hcur, !app_nil_r, Hr. reflexivity. }
    pose proof (inv_positive Hi) as Hpos.
    pose proof (Permutation_Forall Hp1 Hpos) as Hpos1. inversion Hpos1; subst.
    destruct Hb' as [[Hle _]|[_ Hb']]; [lia|].
    rewrite Hb' in Hb. injection Hb as <-.
    eapply within_step with (sel := p) (dropped := [])
      (r' := remaining p - Z.min quantum (remaining p))
      (keep := remaining p - Z.min quantum (remaining p) >? 0);
      [exact Hw | exact Hpos | exact Hp1 | apply rr_run_perm | lia | lia |].
    unfold rr_run_state. simpl. lia.
Qed.

Lemma tick_within H st gantt1 ready2 cur istart dropped :
  within H st -> Forall (fun q => 0 < remaining q) (procs_of st) ->
  Permutation (procs_of st) (cur :: (ready2 ++ not_arrived (decision_of st)) ++ dropped) ->
  within H (tick_state st gantt1 ready2 cur istart).
Proof.
  intros Hw Hpos Hp1.
  pose proof (Permutation_Forall Hp1 Hpos) as Hpos1. inversion Hpos1; subst.
  pose proof (tick_procs st gantt1 ready2 cur istart) as Hp2.
  destruct (Z.eqb_spec (remaining cur - 1) 0) as [E|E].
  - eapply within_step with (sel := cur) (keep := false) (r' := 0);
      [exact Hw | exact Hpos | exact Hp1 | exact Hp2 | lia | reflexivity |].
    rewrite tick_state_done by assumption. simpl. lia.
  - eapply within_step with (sel := cur) (keep := true) (r' := remaining cur - 1);
      [exact Hw | exact Hpos | exact Hp1 | exact Hp2 | lia | discriminate |].
    rewrite tick_state_going by assumption. simpl. lia.
Qed.

Lemma p_within key procs0 H st st' :
  inv (p_body key) procs0 true st -> within H st ->
  p_body key st = Next st' -> within H st'.
Proof.
  intros Hi Hw Hb. pose proof (inv_positive Hi) as Hpos.
  destruct (p_body_cases key st (inv_pids Hi) (inv_oids Hi))
    as [[_ Hb']|[(_ & Hc & m & Hm & Hb')
       |[(_ & chosen & l1 & l2 & Hr & Hb')|(_ & c & i & Hcur & Hb')]]];
    rewrite Hb' in Hb; [discriminate | | |]; injection Hb as <-.
  - now apply within_idle.
  - apply tick_within with (dropped := current_list st); [exact Hw | exact Hpos |].
    rewrite procs_perm, candidates_eq, Hr. rewrite <- !app_assoc. simpl.
    rewrite <- Permutation_middle. constructor.
    apply Permutation_app_head, Permutation_app_head, Permutation_app_comm.
  - apply tick_within with (dropped := []); [exact Hw | exact Hpos |].
    rewrite procs_perm, candidates_eq. unfold current_list. rewrite Hcur.
    rewrite app_nil_r, <- app_assoc. simpl. symmetry. apply Permutation_middle.
Qed.

Lemma total_burst_perm l1 l2 : Permutation l1 l2 -> total_burst l1 = total_burst l2.
Proof. induction 1; simpl; lia. Qed.

Lemma total_burst_app l1 l2 : total_burst (l1 ++ l2) = total_burst l1 + total_burst l2.
Proof. induction l1 as [|p l1 IH]; simpl; lia. Qed.

Lemma max_arrival_ge l : 0 <= max_arrival l /\ Forall (fun p => arrival p <= max_arrival l) l.
Proof.
  induction l as [|p l [IH1 IH2]]; simpl; [split; [lia | constructor]|].
  split; [lia|]. constructor; [lia|].
  eapply Forall_impl; [|exact IH2]. simpl. intros; lia.
Qed.

Lemma work_copies procs : forall i, work (copy_from i procs) = total_burst procs.
Proof. induction procs as [|p l IH]; intros i; simpl; [reflexivity|]. now rewrite IH. Qed.

Lemma within_init procs :
  within (horizon procs) (init_state (copy_procs procs)).
Proof.
  assert (E : procs_of (init_state (copy_procs procs)) = copy_procs procs).
  { unfold procs_of, current_list. simpl. now rewrite app_nil_r. }
  destruct (max_arrival_ge procs) as [H0 Ha].
  constructor; rewrite E; unfold copy_procs, horizon; rewrite work_copies.
  - simpl. lia.
  - apply Forall_forall. intros q Hq.
    destruct (copy_from_in _ _ _ Hq) as (p & Hp & _ & Earr & _).
    pose proof (proj1 (Forall_forall _ _) Ha p Hp) as Hle. simpl in Hle. lia.
Qed.

Lemma within_result body procs0 preemptive H st :
  inv body procs0 preemptive st -> within H st -> s_current st = None ->
  Forall (fun x => 0 <= i_start x /\ i_end x <= H) (s_gantt st).
Proof.
  intros Hi Hw Hcur. destruct (inv_chain Hi) as [Hc He].
  unfold open_start in He. rewrite Hcur in He.
  pose proof (work_nonneg (inv_positive Hi)) as Hn. pose proof (wi_time Hw) as [_ Ht].
  pose proof (contiguous_after _ _ Hc) as H1. pose proof (contiguous_before _ _ Hc) as H2.
  apply Forall_forall. intros x Hx.
  pose proof (proj1 (Forall_forall _ _) H1 x Hx). pose proof (proj1 (Forall_forall _ _) H2 x Hx).
  simpl in *. lia.
Qed.

Lemma fcfs_within procs :
  Forall (fun p => 0 < burst p) procs ->
  Forall (fun x => 0 <= i_start x /\ i_end x <= horizon procs) (fcfs procs).
Proof.
  intros Hb. destruct (max_arrival_ge procs) as [H0 Ha].
  assert (G : let st := fold_left fcfs_body (py_sort key_arrival procs) (0, []) in
              0 <= fst st <= max_arrival procs + total_burst (py_sort key_arrival procs)
              /\ Forall (fun x => 0 <= i_start x /\ i_end x <= fst st) (snd st)).
  { apply (fold_left_prefix_ind fcfs_body
             (fun done st =>
                0 <= total_burst done
                /\ 0 <= fst st <= max_arrival procs + total_burst done
                /\ Forall (fun x => 0 <= i_start x /\ i_end x <= fst st) (snd st))).
    - simpl. repeat split; try lia. constructor.
    - intros done p rest Hsort (Hd & Ht & Hg).
      destruct (fold_left fcfs_body done (0, [])) as [t g]. simpl in Ht, Hg.
      assert (Hp : In p procs).
      { apply (py_sort_in key_arrival). rewrite Hsort. apply in_or_app. right. now left. }
      pose proof (proj1 (Forall_forall _ _) Hb p Hp) as Hbp.
      pose proof (proj1 (Forall_forall _ _) Ha p Hp) as Hap. simpl in Hbp, Hap.
      rewrite total_burst_app. simpl total_burst. unfold fcfs_body.
      destruct (Z.ltb_spec t (arrival p)); simpl; (split; [lia|]); (split; [lia|]).
      + apply Forall_app. split; [apply Forall_app; split|].
        * eapply Forall_impl; [|exact Hg]. simpl. intros; lia.
        * constructor; [|constructor]. unfold i_start, i_end. simpl. lia.
        * constructor; [|constructor]. unfold i_start, i_end. simpl. lia.
      + apply Forall_app. split.
        * eapply Forall_impl; [|exact Hg]. simpl. intros; lia.
        * constructor; [|constructor]. unfold i_start, i_end. simpl. lia. }
  cbv zeta in G. destruct G as (Ht & Hg). rewrite (total_burst_perm (py_sort_perm _ _)) in Ht.
  unfold fcfs, horizon. eapply Forall_impl; [|exact Hg]. simpl. intros; lia.
Qed.

Lemma engine_within algorithm quantum procs fuel g :
  In algorithm known_keys -> well_formed procs ->
  (algorithm = "rr"%string -> 0 < quantum) ->
  select_algorithm fuel algorithm quantum procs = Returned g ->
  Forall (fun x => 0 <= i_start x /\ i_end x <= horizon procs) g.
Proof.
  intros Hk Hwf Hq.
  assert (Hfresh : Forall (fun q => remaining q = burst q)
                     (procs_of (init_state (copy_procs procs)))).
  { unfold procs_of, current_list. simpl. rewrite app_nil_r.
    eapply Forall_impl; [|apply copy_from_burst, well_formed_burst, Hwf].
    simpl. intros p H. apply H. }
  assert (Hnp : forall key guarded,
            while_loop (np_body key guarded) fuel (init_state (copy_procs procs)) = Returned g ->
            Forall (fun x => 0 <= i_start x /\ i_end x <= horizon procs) g).
  { intros key guarded Hw.
    destruct (@extra_result (np_body key guarded) (copy_procs procs) false
                (fun st => np_spec (st := st))
                (fun st => within (horizon procs) st
                           /\ Forall (fun q => remaining q = burst q) (procs_of st)))
      with (fuel := fuel) (st := init_state (copy_procs procs)) (g := g)
      as (st & Hi & (Hwi & _) & _ & Hcur & ->).
    - intros st st' Hi HE Hb. eapply np_within; eassumption.
    - now apply inv_copies.
    - split; [apply within_init | exact Hfresh].
    - exact Hw.
    - eapply within_result; eassumption. }
  assert (Hp : forall key,
            while_loop (p_body key) fuel (init_state (copy_procs procs)) = Returned g ->
            Forall (fun x => 0 <= i_start x /\ i_end x <= horizon procs) g).
  { intros key Hw.
    destruct (@extra_result (p_body key) (copy_procs procs) true
                (fun st => p_spec (st := st)) (within (horizon procs)))
      with (fuel := fuel) (st := init_state (copy_procs procs)) (g := g)
      as (st & Hi & Hwi & _ & Hcur & ->).
    - intros st st' Hi HE Hb. eapply p_within; eassumption.
    - now apply inv_copies.
    - apply within_init.
    - exact Hw.
    - eapply within_result; eassumption. }
  destruct (known_key_cases Hk) as [-> | [-> | [-> | [-> | [-> | ->]]]]];
    unfold select_algorithm; simpl String.eqb; cbv iota.
  - intros H. injection H as <-. apply fcfs_within. now apply well_formed_burst.
  - apply Hnp.
  - apply Hp.
  - intros Hw. unfold round_robin in Hw. specialize (Hq eq_refl).
    destruct (@extra_result (rr_body quantum) (copy_procs procs) false
                (fun st => rr_spec Hq (st := st)) (within (horizon procs)))
      with (fuel := fuel) (st := init_state (copy_procs procs)) (g := g)
      as (st & Hi & Hwi & _ & Hcur & ->).
    + intros st st' Hi HE Hb. eapply rr_within; eassumption.
    + now apply inv_copies.
    + apply within_init.
    + exact Hw.
    + eapply within_result; eassumption.
  - apply Hnp.
  - apply Hp.
Qed.

(** X15. No policy runs past the horizon: on a well-formed input (positive
    quantum for [rr]) each of the six policies returns a timeline whose
    intervals all lie between 0 and the latest arrival plus the sum of the
    bursts. *)
Theorem X15_timeline_within_horizon algorithm quantum procs :
  In algorithm known_keys -> well_formed procs ->
  (algorithm = "rr"%string -> 0 < quantum) ->
  exists fuel g,
    select_algorithm fuel algorithm quantum procs = Returned g
    /\ forall x, In x g -> 0 <= i_start x /\ i_end x <= max_arrival procs + total_burst procs.
Proof.
  intros Hk Hwf Hq. destruct (engine_ok Hk Hwf Hq) as (g & fuel & H & _).
  exists fuel, g. split; [exact H|]. intros x Hx.
  pose proof (@engine_within algorithm quantum procs fuel g Hk Hwf Hq H) as Hw.
  apply (proj1 (Forall_forall _ _) Hw x Hx).
Qed.

Lemma X15_timeline_within_horizon_witness :
  exists fuel g,
    select_algorithm fuel "priority-p" 2 starve_scenario = Returned g
    /\ forall x, In x g ->
         0 <= i_start x /\ i_end x <= max_arrival starve_scenario + total_burst starve_scenario.
Proof.
  apply X15_timeline_within_horizon.
  - simpl. tauto.
  - split.
    + repeat constructor; simpl; try lia; discriminate.
    + repeat constructor; simpl; intuition discriminate.
  - discriminate.
Defined.

(** ** What [simulate] gives on well-formed descriptors *)

Lemma last_run_in who g c :
  end_of_last (runs_of who g) = Some c -> exists x, In x g /\ i_end x = c.
Proof.
  unfold runs_of. induction g as [|x g IH]; simpl; [discriminate|].
  destruct (String.eqb (actor x) who && negb (String.eqb (actor x) idle)); simpl.
  - destruct (end_of_last _) as [e|] eqn:E.
    + intros H. destruct (IH H) as (y & Hy & He). exists y. auto.
    + intros H. injection H as <-. exists x. auto.
  - intros H. destruct (IH H) as (y & Hy & He). exists y. auto.
Qed.

Lemma burst_le_total l p :
  Forall (fun q => 0 < burst q) l -> In p l -> burst p <= total_burst l.
Proof.
  induction 1 as [|q l Hq Hl IH]; intros Hp; [contradiction|]. simpl.
  assert (0 <= total_burst l).
  { clear IH Hp. induction Hl; simpl; lia. }
  destruct Hp as [->|Hp]; [lia | specialize (IH Hp); lia].
Qed.

(** Within the horizon the times of the rows are small. *)
Lemma rows_small proc_desc g :
  well_formed (proc_objs_of proc_desc) ->
  Forall (fun x => 0 <= i_start x < i_end x /\ i_end x <= horizon (proc_objs_of proc_desc)) g ->
  horizon (proc_objs_of proc_desc) < 2 ^ 1022 ->
  Forall small_row (map (row_of g) (build_info proc_desc)).
Proof.
  intros Hwf Hg Hh. apply Forall_forall. intros r Hr.
  apply in_map_iff in Hr. destruct Hr as ([k i] & <- & Hin).
  destruct (build_info_spec proc_desc) as (_ & _ & Hv).
  destruct (Hv _ Hin) as (d & Hd & E). injection E as -> ->.
  destruct (@procs_from_in proc_desc d 0%nat Hd) as (p & Hp & _ & Earr & Eb).
  fold (proc_objs_of proc_desc) in Hp.
  destruct (max_arrival_ge (proc_objs_of proc_desc)) as [H0 Ha].
  pose proof (proj1 (Forall_forall _ _) Ha p Hp) as Hap. simpl in Hap.
  pose proof (@burst_le_total _ p (well_formed_burst Hwf) Hp) as Hbp.
  pose proof (proj1 (Forall_forall _ _) (proj1 Hwf) p Hp) as (Hp0 & Hp1 & _).
  assert (Hpow : 2 ^ 1023 = 2 * 2 ^ 1022) by (change 1023 with (Z.succ 1022);
    now rewrite Z.pow_succ_r by lia).
  unfold horizon in *. set (M := 2 ^ 1022) in *.
  unfold small_row, row_of.
  destruct (start_of_first (runs_of (d_pid d) g)) as [s|] eqn:E1;
    [|intros v [H|[H|[H|[]]]]; discriminate].
  destruct (end_of_last (runs_of (d_pid d) g)) as [c|] eqn:E2;
    [|intros v [H|[H|[H|[]]]]; discriminate].
  destruct (first_run_in _ _ E1) as (x & Hx & _ & _ & Es).
  destruct (last_run_in _ _ E2) as (y & Hy & Ec).
  pose proof (proj1 (Forall_forall _ _) Hg x Hx) as Bx.
  pose proof (proj1 (Forall_forall _ _) Hg y Hy) as By. simpl in Bx, By.
  simpl. intros v [H|[H|[H|[]]]]; injection H as <-;
    change (Z.pow_pos 2 1023) with (2 ^ 1023); rewrite Hpow; clearbody M; lia.
Qed.

(** On well-formed descriptors [simulate] computes the timeline and the rows
    and ends with the averages; only a mean too large for a float can keep it
    from returning, and none is when the horizon is below 2^1022. *)
Lemma simulate_outcome algorithm quantum proc_desc :
  In algorithm known_keys -> well_formed (proc_objs_of proc_desc) ->
  (algorithm = "rr"%string -> 0 < quantum) ->
  exists fuel g,
    select_algorithm fuel algorithm quantum (proc_objs_of proc_desc) = Returned g
    /\ run_ok (decision_points algorithm quantum (proc_objs_of proc_desc))
         (proc_objs_of proc_desc) g
    /\ let rows := map (row_of g) (build_info proc_desc) in
       ((exists avgs,
           simulate fuel algorithm quantum proc_desc = Returned (mkResult g rows avgs)
           /\ is_mean (values_of r_TAT (completed_rows rows)) (avg_tat avgs)
           /\ is_mean (values_of r_WT (completed_rows rows)) (avg_wt avgs)
           /\ is_mean (values_of r_RT (completed_rows rows)) (avg_rt avgs))
        \/ simulate fuel algorithm quantum proc_desc = Raised OverflowError)
       /\ (horizon (proc_objs_of proc_desc) < 2 ^ 1022 ->
           exists avgs,
             simulate fuel algorithm quantum proc_desc = Returned (mkResult g rows avgs)).
Proof.
  intros Hk Hwf Hq.
  destruct (engine_ok Hk Hwf Hq) as (g & fuel & Hsel & Hok).
  exists fuel, g. split; [exact Hsel|]. split; [exact Hok|].
  destruct Hok as (Hc & _ & Hact & _).
  pose proof (@simulate_returns _ _ _ _ _ Hsel Hact) as Hsim. cbv zeta in Hsim.
  cbv zeta. rewrite Hsim.
  destruct (with_averages (map (row_of g) (build_info proc_desc))
              (fun a => mkResult g (map (row_of g) (build_info proc_desc)) a))
    as [Hcases Hsmall].
  split; [exact Hcases|]. intros Hh. apply Hsmall. apply rows_small; [exact Hwf| |exact Hh].
  pose proof (@engine_within algorithm quantum (proc_objs_of proc_desc) fuel g Hk Hwf Hq Hsel)
    as Hw.
  pose proof (contiguous_positive _ _ Hc) as Hpos.
  apply Forall_forall. intros x Hx.
  pose proof (proj1 (Forall_forall _ _) Hw x Hx).
  pose proof (proj1 (Forall_forall _ _) Hpos x Hx). simpl in *. lia.
Qed.

Lemma is_mean_unique l o1 o2 : is_mean l o1 -> is_mean l o2 -> o1 = o2.
Proof.
  destruct l as [|v l], o1 as [q1|], o2 as [q2|]; simpl; try tauto. congruence.
Qed.

(** On well-formed descriptors the rows are those of the descriptors, in
    order, and every process that is not called "idle" has runs, the first
    not before its arrival. *)
Lemma simulate_rows algorithm quantum proc_desc :
  In algorithm known_keys -> well_formed (proc_objs_of proc_desc) ->
  (algorithm = "rr"%string -> 0 < quantum) ->
  exists fuel g,
    select_algorithm fuel algorithm quantum (proc_objs_of proc_desc) = Returned g
    /\ let rows := map (fun d => row_of g (info_of d)) proc_desc in
       ends_with (simulate fuel algorithm quantum proc_desc) g rows
       /\ (horizon (proc_objs_of proc_desc) < 2 ^ 1022 ->
           exists avgs,
             simulate fuel algorithm quantum proc_desc = Returned (mkResult g rows avgs))
       /\ map row_data rows = map desc_data proc_desc
       /\ forall d, In d proc_desc -> d_pid d <> idle ->
            exists s c,
              start_of_first (runs_of (d_pid d) g) = Some s
              /\ end_of_last (runs_of (d_pid d) g) = Some c
              /\ d_arrival d <= s /\ 0 < served (d_pid d) g <= c - s.
Proof.
  intros Hk Hwf Hq.
  destruct (@simulate_outcome algorithm quantum proc_desc Hk Hwf Hq)
    as (fuel & g & Hsel & (Hc & _ & Hact & Hsch & _) & Hout).
  assert (Hnd : NoDup (map d_pid proc_desc)).
  { destruct Hwf as [_ H]. unfold proc_objs_of in H. now rewrite procs_from_pid in H. }
  assert (Hinfo : build_info proc_desc = map info_of proc_desc).
  { unfold build_info. rewrite build_info_distinct; [reflexivity | exact Hnd |].
    intros k _ []. }
  cbv zeta in Hout. rewrite Hinfo, map_map in Hout. destruct Hout as [Hcases Hsmall].
  exists fuel, g. split; [exact Hsel|]. cbv zeta.
  split; [exact Hcases|]. split; [exact Hsmall|]. split.
  { rewrite map_map. apply map_ext. intros d. unfold info_of. apply row_data_of. }
  intros d Hd Hne.
  destruct (@procs_from_in proc_desc d 0%nat Hd) as (p & Hp & Epid & Earr & Eb).
  fold (proc_objs_of proc_desc) in Hp.
  assert (Hruns : runs_of (d_pid d) g <> []).
  { apply scheduled_runs with (DP := decision_points algorithm quantum (proc_objs_of proc_desc));
      [|exact Hne].
    apply Hsch. rewrite <- Epid. now apply in_map. }
  pose proof (@run_span (d_pid d) g Hne 0 Hc) as Hspan.
  destruct (start_of_first (runs_of (d_pid d) g)) as [s|] eqn:E1;
    [|destruct (runs_of (d_pid d) g); [congruence | discriminate]].
  destruct (end_of_last (runs_of (d_pid d) g)) as [c|] eqn:E2;
    [|apply first_last_none in E2; congruence].
  exists s, c. split; [reflexivity|]. split; [reflexivity|]. split; [|apply Hspan].
  destruct (first_run_in _ _ E1) as (x & Hx & Ea & Hni & <-).
  assert (Hon : Forall (on_time (proc_objs_of proc_desc)) g)
    by (eapply engine_on_time; eassumption).
  destruct (proj1 (Forall_forall _ _) Hon x Hx) as [E|(p0 & Hp0 & Ep0 & Harr)];
    [contradiction|].
  assert (p0 = p).
  { apply (pid_inj (proc_objs_of proc_desc)); [apply Hwf | assumption | assumption|].
    congruence. }
  subst p0. lia.
Qed.

(** X11. Under every policy, on well-formed descriptors (and a positive
    quantum for "rr"), [simulate] computes a timeline and one row per
    descriptor, in the order of the descriptors, and ends with them and the
    averages, or with the [OverflowError] of a mean too large for a float;
    it returns when the latest arrival plus the sum of the bursts is below
    2^1022.  In the rows every process that is not called "idle" has its
    times: it starts not before its arrival and completes after it starts,
    so its response time is not negative and its turnaround time is
    positive. *)
Theorem X11_every_process_gets_times algorithm quantum proc_desc :
  In algorithm known_keys -> well_formed (proc_objs_of proc_desc) ->
  (algorithm = "rr"%string -> 0 < quantum) ->
  exists fuel g rows,
    select_algorithm fuel algorithm quantum (proc_objs_of proc_desc) = Returned g
    /\ ends_with (simulate fuel algorithm quantum proc_desc) g rows
    /\ (horizon (proc_objs_of proc_desc) < 2 ^ 1022 ->
        exists avgs,
          simulate fuel algorithm quantum proc_desc = Returned (mkResult g rows avgs))
    /\ map row_data rows = map desc_data proc_desc
    /\ forall r, In r rows -> r_pid r <> idle ->
         exists s c,
           r_start r = Some s /\ r_completion r = Some c
           /\ r_arrival r <= s < c
           /\ r_RT r = Some (s - r_arrival r)
           /\ r_TAT r = Some (c - r_arrival r)
           /\ r_WT r = Some (c - r_arrival r - r_burst r).
Proof.
  intros Hk Hwf Hq.
  destruct (@simulate_rows algorithm quantum proc_desc Hk Hwf Hq)
    as (fuel & g & Hsel & Hend & Hret & Hdata & Hrows).
  exists fuel, g. eexists. split; [exact Hsel|]. split; [exact Hend|].
  split; [exact Hret|]. split; [exact Hdata|].
  intros r Hr Hne. apply in_map_iff in Hr. destruct Hr as (d & <- & Hd).
  unfold info_of, row_of in *.
  assert (Hne' : d_pid d <> idle).
  { destruct (start_of_first (runs_of (d_pid d) g)),
      (end_of_last (runs_of (d_pid d) g)); exact Hne. }
  destruct (Hrows d Hd Hne') as (s & c & -> & -> & Ha & Hs). simpl.
  exists s, c. repeat split; try lia.
Qed.

Lemma X11_every_process_gets_times_witness :
  exists fuel g rows,
    select_algorithm fuel "priority-p" 2
      (proc_objs_of [mkDesc "P1" 0 5 2; mkDesc "P2" 1 2 1]) = Returned g
    /\ (exists avgs,
          simulate fuel "priority-p" 2 [mkDesc "P1" 0 5 2; mkDesc "P2" 1 2 1]
          = Returned (mkResult g rows avgs))
    /\ map row_data rows = map desc_data [mkDesc "P1" 0 5 2; mkDesc "P2" 1 2 1].
Proof.
  destruct (@X11_every_process_gets_times "priority-p" 2
              [mkDesc "P1" 0 5 2; mkDesc "P2" 1 2 1])
    as (fuel & g & rows & Hsel & _ & Hret & Hdata & _).
  - simpl. tauto.
  - split.
    + repeat constructor; simpl; try lia; discriminate.
    + repeat constructor; simpl; intuition discriminate.
  - discriminate.
  - exists fuel, g, rows. split; [exact Hsel|]. split; [|exact Hdata].
    apply Hret. vm_compute. reflexivity.
Defined.

(** X12. Round Robin never shows a negative waiting time.  On well-formed
    descriptors and a positive quantum, [simulate] computes for "rr" a
    timeline and its rows, and ends with them and the averages, or with the
    [OverflowError] of a mean too large for a float; it returns when the
    latest arrival plus the sum of the bursts is below 2^1022.  In the rows
    every process that is not called "idle" completes at least its burst
    after it starts, so that 0 <= RT <= WT and TAT = WT + burst. *)
Theorem X12_round_robin_waiting_not_negative quantum proc_desc :
  0 < quantum -> well_formed (proc_objs_of proc_desc) ->
  exists fuel g rows,
    select_algorithm fuel "rr" quantum (proc_objs_of proc_desc) = Returned g
    /\ ends_with (simulate fuel "rr" quantum proc_desc) g rows
    /\ (horizon (proc_objs_of proc_desc) < 2 ^ 1022 ->
        exists avgs, simulate fuel "rr" quantum proc_desc = Returned (mkResult g rows avgs))
    /\ forall r, In r rows -> r_pid r <> idle ->
         exists rt wt tat,
           r_RT r = Some rt /\ r_WT r = Some wt /\ r_TAT r = Some tat
           /\ 0 <= rt <= wt /\ tat = wt + r_burst r.
Proof.
  intros Hq Hwf.
  destruct (@simulate_rows "rr"%string quantum proc_desc rr_in_known_keys Hwf (fun _ => Hq))
    as (fuel & g & Hsel & Hend & Hret & _ & Hrows).
  exists fuel, g. eexists. split; [exact Hsel|]. split; [exact Hend|]. split; [exact Hret|].
  intros r Hr Hne. apply in_map_iff in Hr. destruct Hr as (d & <- & Hd).
  unfold info_of, row_of in *.
  assert (Hne' : d_pid d <> idle).
  { destruct (start_of_first (runs_of (d_pid d) g)),
      (end_of_last (runs_of (d_pid d) g)); exact Hne. }
  destruct (Hrows d Hd Hne') as (s & c & -> & -> & Ha & Hs). simpl.
  destruct (@procs_from_in proc_desc d 0%nat Hd) as (p & Hp & Epid & _ & Eb).
  unfold select_algorithm in Hsel. simpl String.eqb in Hsel. cbv iota in Hsel.
  destruct (round_robin_account fuel Hwf Hq Hsel) as [Hserved _].
  assert (Hb : served (d_pid d) g = d_burst d).
  { rewrite <- Epid, <- Eb. apply Hserved; [exact Hp | congruence]. }
  eexists _, _, _. repeat split; lia.
Qed.

Lemma X12_round_robin_waiting_not_negative_witness :
  exists fuel g rows,
    select_algorithm fuel "rr" 2 (proc_objs_of [mkDesc "P1" 0 5 0; mkDesc "P2" 1 3 0])
    = Returned g
    /\ (exists avgs,
          simulate fuel "rr" 2 [mkDesc "P1" 0 5 0; mkDesc "P2" 1 3 0]
          = Returned (mkResult g rows avgs))
    /\ forall r, In r rows -> r_pid r <> idle ->
         exists rt wt tat,
           r_RT r = Some rt /\ r_WT r = Some wt /\ r_TAT r = Some tat
           /\ 0 <= rt <= wt /\ tat = wt + r_burst r.
Proof.
  destruct (@X12_round_robin_waiting_not_negative 2 [mkDesc "P1" 0 5 0; mkDesc "P2" 1 3 0])
    as (fuel & g & rows & Hsel & _ & Hret & Hrows).
  - lia.
  - exact rr_scenario_wf.
  - exists fuel, g, rows. split; [exact Hsel|]. split; [|exact Hrows].
    apply Hret. vm_compute. reflexivity.
Defined.

(** X10. Under the policies without preemption the waiting time of a
    process is its response time.  On well-formed descriptors, for "fcfs",
    "sjf-np" and "priority-np", [simulate] computes a timeline and one row per
    descriptor, in the order of the descriptors, and ends with them and the
    averages or with the [OverflowError] of a mean too large for a float (it
    returns when the latest arrival plus the sum of the bursts is below
    2^1022).  In the rows a process that is not called "idle" starts at some
    [s] not before its arrival, completes at [s + burst], and has
    WT = RT = [s - arrival] and TAT = WT + burst; WT and RT are the same in
    every row (both null for a process called "idle"), so the average WT
    and the average RT that [simulate] returns are the same. *)
Theorem X10_nonpreemptive_waiting_is_response algorithm quantum proc_desc :
  In algorithm ["fcfs"; "sjf-np"; "priority-np"]%string ->
  well_formed (proc_objs_of proc_desc) ->
  exists fuel g rows,
    select_algorithm fuel algorithm quantum (proc_objs_of proc_desc) = Returned g
    /\ ends_with (simulate fuel algorithm quantum proc_desc) g rows
    /\ (horizon (proc_objs_of proc_desc) < 2 ^ 1022 ->
        exists avgs,
          simulate fuel algorithm quantum proc_desc = Returned (mkResult g rows avgs))
    /\ map row_data rows = map desc_data proc_desc
    /\ (forall r, In r rows -> r_pid r <> idle ->
          exists s, r_arrival r <= s
            /\ r_start r = Some s
            /\ r_completion r = Some (s + r_burst r)
            /\ r_TAT r = Some (s - r_arrival r + r_burst r)
            /\ r_WT r = Some (s - r_arrival r)
            /\ r_RT r = Some (s - r_arrival r))
    /\ (forall r, In r rows -> r_WT r = r_RT r)
    /\ (forall avgs,
          simulate fuel algorithm quantum proc_desc = Returned (mkResult g rows avgs) ->
          avg_wt avgs = avg_rt avgs).
Proof.
  intros Hk Hwf.
  assert (Hkk : In algorithm known_keys).
  { destruct (nonpreemptive_keys Hk) as [-> | [-> | ->]]; simpl; tauto. }
  assert (Hq : algorithm = "rr"%string -> 0 < quantum).
  { destruct (nonpreemptive_keys Hk) as [-> | [-> | ->]]; discriminate. }
  destruct (@simulate_rows algorithm quantum proc_desc Hkk Hwf Hq)
    as (fuel & g & Hsel & Hend & Hret & Hdata & _).
  destruct (nonpreemptive_runs quantum Hk Hwf)
    as (fuel' & g' & order & Hsel' & Hperm & Hruns & _).
  assert (g' = g) by (eapply select_algorithm_det; eassumption). subst g'.
  assert (Hrow : forall d, In d proc_desc -> d_pid d <> idle ->
            exists s, d_arrival d <= s
              /\ runs_of (d_pid d) g = [(d_pid d, s, s + d_burst d)]).
  { intros d Hd Hne.
    destruct (@procs_from_in proc_desc d 0%nat Hd) as (p & Hp & Epid & Earr & Eb).
    assert (Hpo : In p (named order)).
    { apply filter_In. split.
      - apply (Permutation_in _ (Permutation_sym Hperm)). exact Hp.
      - apply negb_true_iff, String.eqb_neq. congruence. }
    assert (Hno : NoDup (map pid (named order))).
    { apply named_nodup. apply (Permutation_NoDup (l := map pid (proc_objs_of proc_desc))).
      - apply Permutation_map. now symmetry.
      - apply Hwf. }
    destruct (one_run Hruns Hno p Hpo) as (x & Hx & Ha & Hs & He).
    exists (i_start x). split; [lia|]. rewrite runs_of_busy, <- Epid, Hx.
    destruct x as [[a s] e]. unfold actor, i_start, i_end in *. simpl in *.
    subst. now rewrite Eb. }
  assert (Heq : forall r, In r (map (fun d => row_of g (info_of d)) proc_desc) ->
            r_WT r = r_RT r).
  { intros r Hr. apply in_map_iff in Hr.
    destruct Hr as (d & <- & Hd). unfold info_of, row_of.
    destruct (String.eqb_spec (d_pid d) idle) as [E|E].
    - rewrite E, runs_of_idle. reflexivity.
    - destruct (Hrow d Hd E) as (s & _ & ->). simpl. f_equal.
      unfold i_end, i_start. simpl. lia. }
  exists fuel, g. eexists. split; [exact Hsel|]. split; [exact Hend|].
  split; [exact Hret|]. split; [exact Hdata|]. split; [|split; [exact Heq|]].
  - intros r Hr Hne. apply in_map_iff in Hr.
    destruct Hr as (d & <- & Hd). unfold info_of, row_of in *.
    destruct (start_of_first (runs_of (d_pid d) g)) eqn:E1;
      destruct (end_of_last (runs_of (d_pid d) g)) eqn:E2; simpl in Hne;
      destruct (Hrow d Hd Hne) as (s & Hs & Er); rewrite Er in E1, E2; simpl in E1, E2;
      try discriminate.
    injection E1 as <-. injection E2 as <-. unfold i_start, i_end. simpl.
    exists s. repeat split; try assumption; f_equal; lia.
  - intros avgs Ha. destruct Hend as [(avgs' & Ha' & _ & H2 & H3)|Ho];
      [|rewrite Ho in Ha; discriminate].
    rewrite Ha in Ha'. injection Ha' as <-.
    apply is_mean_unique with (l := values_of r_WT
      (completed_rows (map (fun d => row_of g (info_of d)) proc_desc))); [exact H2|].
    rewrite (values_of_ext r_WT r_RT); [exact H3|].
    intros r Hr. apply Heq. unfold completed_rows in Hr. apply filter_In in Hr. apply Hr.
Qed.

Lemma X10_nonpreemptive_waiting_is_response_witness :
  exists fuel g rows,
    select_algorithm fuel "sjf-np" 2 (proc_objs_of [mkDesc "P1" 0 5 2; mkDesc "P2" 1 2 1])
    = Returned g
    /\ (exists avgs,
          simulate fuel "sjf-np" 2 [mkDesc "P1" 0 5 2; mkDesc "P2" 1 2 1]
          = Returned (mkResult g rows avgs)
          /\ avg_wt avgs = avg_rt avgs)
    /\ (forall r, In r rows -> r_WT r = r_RT r).
Proof.
  destruct (@X10_nonpreemptive_waiting_is_response "sjf-np" 2
              [mkDesc "P1" 0 5 2; mkDesc "P2" 1 2 1])
    as (fuel & g & rows & Hsel & _ & Hret & _ & _ & Heq & Havg).
  - simpl. tauto.
  - split.
    + repeat constructor; simpl; try lia; discriminate.
    + repeat constructor; simpl; intuition discriminate.
  - exists fuel, g, rows. split; [exact Hsel|]. split; [|exact Heq].
    destruct Hret as [avgs Ha]; [vm_compute; reflexivity|].
    exists avgs. split; [exact Ha | now apply Havg].
Defined.

(** C10. When a process of a well-formed input is called "idle" (positive
    quantum for [rr]), every policy runs it: the timeline has a non-empty
    interval with actor "idle" that begins at a decision point where a process
    called "idle" is ready or running.  The metrics helper skips the intervals
    labelled "idle": the process has a row, every row with that pid has null
    start, completion, TAT, WT and RT, and no such row counts for the
    averages, which are the means (as floats) over the rows with non-null
    TAT.  [simulate] ends with this timeline, these rows and these averages,
    or with the [OverflowError] of a mean too large for a float; it returns
    when the latest arrival plus the sum of the bursts is below 2^1022. *)
Theorem C10_process_named_idle algorithm quantum proc_desc :
  In algorithm known_keys -> well_formed (proc_objs_of proc_desc) ->
  In idle (map d_pid proc_desc) ->
  (algorithm = "rr"%string -> 0 < quantum) ->
  exists fuel g rows,
    select_algorithm fuel algorithm quantum (proc_objs_of proc_desc) = Returned g
    /\ (exists x d p,
          In x g /\ actor x = idle /\ i_start x < i_end x
          /\ decision_points algorithm quantum (proc_objs_of proc_desc) d
          /\ i_start x = at_time d /\ In p (candidates d) /\ pid p = idle)
    /\ ends_with (simulate fuel algorithm quantum proc_desc) g rows
    /\ (horizon (proc_objs_of proc_desc) < 2 ^ 1022 ->
        exists avgs,
          simulate fuel algorithm quantum proc_desc = Returned (mkResult g rows avgs))
    /\ (exists r, In r rows /\ r_pid r = idle)
    /\ (forall r, In r rows -> r_pid r = idle ->
          r_start r = None /\ r_completion r = None /\ r_TAT r = None
          /\ r_WT r = None /\ r_RT r = None)
    /\ (forall r, In r (completed_rows rows) -> r_pid r <> idle).
Proof.
  intros Hk Hwf Hidle Hq.
  destruct (@simulate_outcome algorithm quantum proc_desc Hk Hwf Hq)
    as (fuel & g & Hsel & (Hc & _ & Ha & Hs & _) & Hend & Hret).
  exists fuel, g, (map (row_of g) (build_info proc_desc)).
  assert (Hnull : forall r, In r (map (row_of g) (build_info proc_desc)) ->
            r_pid r = idle ->
            r_start r = None /\ r_completion r = None /\ r_TAT r = None
            /\ r_WT r = None /\ r_RT r = None).
  { intros r Hr E. apply in_map_iff in Hr. destruct Hr as ([k d] & <- & _).
    now apply idle_row_is_null. }
  split; [exact Hsel|]. split; [|split; [exact Hend|split; [exact Hret|split;
    [|split; [exact Hnull|]]]]].
  - destruct (Hs idle) as (x & Hx & Hax & d & Hd & Hst & p & Hp & Hpid).
    { unfold proc_objs_of. now rewrite procs_from_pid. }
    exists x, d, p. repeat split; auto; try congruence.
    apply (proj1 (Forall_forall _ _) (contiguous_positive _ _ Hc) x Hx).
  - destruct (build_info_spec proc_desc) as (_ & Hkeys & _).
    apply Hkeys in Hidle. unfold keys in Hidle. apply in_map_iff in Hidle.
    destruct Hidle as ([k d] & E & Hin). simpl in E. subst k.
    exists (row_of g (idle, d)). split; [now apply in_map|].
    apply (row_of_fields g idle d).
  - intros r Hr E. unfold completed_rows in Hr. apply filter_In in Hr.
    destruct Hr as [Hr Ht]. destruct (Hnull r Hr E) as (_ & _ & Hn & _).
    rewrite Hn in Ht. discriminate.
Qed.

Lemma C10_process_named_idle_witness :
  exists fuel g rows,
    select_algorithm fuel "fcfs" 2 (proc_objs_of [mkDesc idle 0 1 0; mkDesc "P1" 0 2 0])
    = Returned g
    /\ (exists avgs,
          simulate fuel "fcfs" 2 [mkDesc idle 0 1 0; mkDesc "P1" 0 2 0]
          = Returned (mkResult g rows avgs))
    /\ (exists r, In r rows /\ r_pid r = idle).
Proof.
  destruct (@C10_process_named_idle "fcfs" 2 [mkDesc idle 0 1 0; mkDesc "P1" 0 2 0])
    as (fuel & g & rows & Hsel & _ & _ & Hret & Hrow & _).
  - simpl. tauto.
  - split.
    + repeat constructor; simpl; try lia; discriminate.
    + repeat constructor; simpl; intuition discriminate.
  - now left.
  - discriminate.
  - exists fuel, g, rows. split; [exact Hsel|]. split; [|exact Hrow].
    apply Hret. vm_compute. reflexivity.
Defined.

(** C2, amended: a policy key that is none of the six is not rejected.
    The engine runs FCFS on the input, exactly as for the key "fcfs", and
    goes on to the metrics of that timeline: [simulate] gives what it gives
    for "fcfs", which is that timeline with its rows and averages or, when a
    mean is too large for a float, [OverflowError]; no other error results.
    On well-formed descriptors whose latest arrival plus the sum of the
    bursts is below 2^1022 it returns. *)
Theorem C2_unknown_key_falls_back_to_fcfs algorithm fuel quantum proc_desc :
  ~ In algorithm known_keys ->
  select_algorithm fuel algorithm quantum (proc_objs_of proc_desc)
  = Returned (fcfs (proc_objs_of proc_desc))
  /\ simulate fuel algorithm quantum proc_desc = simulate fuel "fcfs" quantum proc_desc
  /\ (exists rows,
        ends_with (simulate fuel algorithm quantum proc_desc)
          (fcfs (proc_objs_of proc_desc)) rows
        /\ (well_formed (proc_objs_of proc_desc) ->
            horizon (proc_objs_of proc_desc) < 2 ^ 1022 ->
            exists avgs,
              simulate fuel algorithm quantum proc_desc
              = Returned (mkResult (fcfs (proc_objs_of proc_desc)) rows avgs))).
Proof.
  intros Hn.
  pose proof (unknown_key_selects_fcfs fuel quantum (proc_objs_of proc_desc) Hn) as Hsel.
  split; [exact Hsel|]. split.
  - unfold simulate. rewrite Hsel. reflexivity.
  - pose proof (@simulate_returns _ _ _ _ _ Hsel (fcfs_actors _)) as Hsim. cbv zeta in Hsim.
    exists (map (row_of (fcfs (proc_objs_of proc_desc))) (build_info proc_desc)).
    rewrite Hsim.
    destruct (with_averages
                (map (row_of (fcfs (proc_objs_of proc_desc))) (build_info proc_desc))
                (fun a => mkResult (fcfs (proc_objs_of proc_desc))
                            (map (row_of (fcfs (proc_objs_of proc_desc)))
                               (build_info proc_desc)) a))
      as [Hcases Hsmall].
    split; [exact Hcases|]. intros Hwf Hh. apply Hsmall.
    apply rows_small; [exact Hwf| |exact Hh].
    pose proof (fcfs_within (well_formed_burst Hwf)) as Hw.
    destruct (fcfs_run_ok Hwf) as (Hc & _).
    pose proof (contiguous_positive _ _ Hc) as Hpos.
    apply Forall_forall. intros x Hx.
    pose proof (proj1 (Forall_forall _ _) Hw x Hx).
    pose proof (proj1 (Forall_forall _ _) Hpos x Hx). simpl in *. lia.
Qed.

Lemma C2_unknown_key_falls_back_to_fcfs_witness :
  select_algorithm 0 "bogus" 2 (proc_objs_of [mkDesc "P1" 0 1 0])
  = Returned (fcfs (proc_objs_of [mkDesc "P1" 0 1 0]))
  /\ simulate 0 "bogus" 2 [mkDesc "P1" 0 1 0] = simulate 0 "fcfs" 2 [mkDesc "P1" 0 1 0]
  /\ exists rows avgs,
       simulate 0 "bogus" 2 [mkDesc "P1" 0 1 0]
       = Returned (mkResult (fcfs (proc_objs_of [mkDesc "P1" 0 1 0])) rows avgs).
Proof.
  destruct (@C2_unknown_key_falls_back_to_fcfs "bogus" 0 2 [mkDesc "P1" 0 1 0])
    as (H1 & H2 & rows & _ & Hret).
  - simpl. intuition discriminate.
  - split; [exact H1|]. split; [exact H2|]. exists rows. apply Hret.
    + split.
      * repeat constructor; simpl; try lia; discriminate.
      * repeat constructor; simpl; intuition discriminate.
    + vm_compute. reflexivity.
Defined.

(** Whatever the quantum, the loop of [round_robin] raises nothing. *)
Lemma rr_never_raises quantum : forall fuel st e,
  s_current st = None -> while_loop (rr_body quantum) fuel st <> Raised e.
Proof.
  induction fuel as [|fuel IH]; intros st e Hcur; simpl; [discriminate|].
  destruct (rr_body_cases quantum st Hcur)
    as [[_ ->]|[(_ & _ & m & _ & ->)|(_ & p & queue2 & _ & [[_ ->]|[_ ->]])]];
    try discriminate; apply IH; try reflexivity.
  unfold idle_state. simpl. exact Hcur.
Qed.

(** C1, amended: [simulate] hands the quantum to [round_robin] as it is,
    whatever it is: no quantum is checked or rejected, and [round_robin]
    raises no error for any quantum, so a quantum of zero or less reaches the
    loop like any other.  With a positive quantum [round_robin] returns a
    timeline on every input, well-formed or not. *)
Theorem C1_positive_quantum_round_robin_returns quantum procs :
  (forall fuel q, select_algorithm fuel "rr" q procs = round_robin fuel procs q)
  /\ (forall fuel q proc_desc,
        simulate fuel "rr" q proc_desc
        = (gantt <- round_robin fuel (proc_objs_of proc_desc) q ;;
           '(rows, avgs) <- compute_metrics_from_gantt proc_desc gantt ;;
           Returned (mkResult gantt rows avgs)))
  /\ (forall fuel q e, round_robin fuel procs q <> Raised e)
  /\ (0 < quantum -> exists fuel g, round_robin fuel procs quantum = Returned g).
Proof.
  split; [reflexivity|]. split; [reflexivity|]. split.
  - intros fuel q e. unfold round_robin. now apply rr_never_raises.
  - apply round_robin_returns.
Qed.

Lemma C1_positive_quantum_round_robin_returns_witness :
  (forall fuel q, select_algorithm fuel "rr" q rr_scenario = round_robin fuel rr_scenario q)
  /\ (forall fuel e, round_robin fuel rr_scenario 0 <> Raised e)
  /\ (exists fuel g, round_robin fuel rr_scenario 2 = Returned g).
Proof.
  destruct (C1_positive_quantum_round_robin_returns 2 rr_scenario) as (H1 & _ & H2 & H3).
  split; [exact H1|]. split; [intros fuel e; apply H2 | apply H3; reflexivity].
Defined.

(** ** Idle intervals and the ready set *)

Lemma served_before_app t who g1 g2 :
  served_before t who (g1 ++ g2) = served_before t who g1 + served_before t who g2.
Proof. induction g1 as [|x g1 IH]; simpl; [reflexivity|]. rewrite IH. lia. Qed.

Lemma served_before_past t who g :
  Forall (fun x => i_end x <= t) g -> Forall (fun x => i_start x < i_end x) g ->
  served_before t who g = served who g.
Proof.
  induction g as [|x g IH]; intros H1 H2; simpl; [reflexivity|].
  inversion H1; inversion H2; subst. rewrite IH by assumption.
  unfold duration_before, duration. destruct (String.eqb (actor x) who); lia.
Qed.

Lemma served_before_later t who g :
  Forall (fun x => t <= i_start x) g -> served_before t who g = 0.
Proof.
  induction 1 as [|x g Hx _ IH]; simpl; [reflexivity|]. rewrite IH.
  unfold duration_before. destruct (String.eqb (actor x) who); lia.
Qed.

Lemma contiguous_from_app g1 : forall t g2,
  contiguous_from t (g1 ++ g2)
  <-> contiguous_from t g1 /\ contiguous_from (end_from t g1) g2.
Proof.
  induction g1 as [|x g1 IH]; intros t g2; simpl app.
  - unfold end_from. simpl. tauto.
  - rewrite end_from_cons. simpl contiguous_from. rewrite IH. tauto.
Qed.

(** At the start of an interval of a contiguous timeline, what a process
    has been given before is what the intervals before that one give it. *)
Lemma served_before_split g1 x g2 who t0 :
  contiguous_from t0 (g1 ++ x :: g2) ->
  served_before (i_start x) who (g1 ++ x :: g2) = served who g1.
Proof.
  intros H. apply contiguous_from_app in H. destruct H as [H1 H2].
  assert (Hs : i_start x = end_from t0 g1) by apply H2.
  assert (E1 : served_before (i_start x) who g1 = served who g1).
  { apply served_before_past.
    - rewrite Hs. now apply contiguous_before.
    - now apply contiguous_positive with (t := t0). }
  assert (E2 : served_before (i_start x) who (x :: g2) = 0).
  { apply served_before_later. rewrite Hs. now apply contiguous_after. }
  rewrite served_before_app, E1, E2. lia.
Qed.

Lemma served_in who g : served who g <> 0 -> exists x, In x g /\ actor x = who.
Proof.
  induction g as [|y g IH]; simpl; intros H; [congruence|].
  destruct (String.eqb_spec (actor y) who) as [E|E].
  - exists y. auto.
  - destruct IH as (x & Hx & Ex); [lia|]. exists x. auto.
Qed.

Lemma decided_nil procs : decided procs [].
Proof. intros g1 x g2 H. destruct g1; discriminate. Qed.

Lemma decided_snoc procs g x :
  decided procs g -> step_ok procs g x -> decided procs (g ++ [x]).
Proof.
  intros Hd Hx g1 y g2 E.
  destruct (@exists_last _ (y :: g2)) as (l & a & El); [discriminate|].
  rewrite El, app_assoc in E. apply app_inj_tail in E. destruct E as [Eg Ex].
  destruct l as [|y' l]; simpl in El.
  - injection El as -> _. rewrite app_nil_r in Eg. now subst.
  - injection El as -> _. apply (Hd g1 y' l). exact Eg.
Qed.

(** *** What a loop state says about the input *)

Section Ready.
Variable procs0 : list Proc.
Variable body : loop_state -> flow loop_state timeline.
Variable st : loop_state.
Hypothesis Hnd : NoDup (map pid procs0).
Hypothesis Hnamed : ~ In idle (map pid procs0).
Hypothesis Hi : inv body procs0 false st.
Hypothesis Ht : timely procs0 st.
Hypothesis Ha : account procs0 true st.

Lemma ready_full : full_gantt st = s_gantt st.
Proof.
  unfold full_gantt, closing. rewrite (inv_cur Hi eq_refl). apply app_nil_r.
Qed.

(** A process of the state is a process of the input that has had less
    than its burst. *)
Lemma state_link q : In q (procs_of st) ->
  exists p0, In p0 procs0 /\ pid p0 = pid q /\ arrival p0 = arrival q
             /\ served (pid p0) (s_gantt st) < burst p0.
Proof.
  intros Hq.
  destruct (proj1 (Forall_forall _ _) (tm_from Ht) q Hq) as (p0 & Hp0 & E1 & E2 & E3).
  destruct (proj1 (Forall_forall _ _) (ac_state Ha) q Hq) as [_ Hs].
  destruct (proj1 (Forall_forall _ _) (inv_from Hi) q Hq) as (_ & _ & Hr).
  exists p0. split; [assumption|]. split; [auto|]. split; [auto|].
  rewrite <- E1, <- E3, <- ready_full, Hs; [lia|].
  intros E. apply Hnamed. rewrite <- E, E1. now apply in_map.
Qed.

(** A process of the input is in the state, or it has had its burst and
    arrived before the clock. *)
Lemma state_or_gone p0 : In p0 procs0 ->
  (exists q, In q (procs_of st) /\ pid q = pid p0 /\ arrival q = arrival p0)
  \/ (served (pid p0) (s_gantt st) = burst p0 /\ arrival p0 < s_time st).
Proof.
  intros Hp0.
  assert (Hne : pid p0 <> idle).
  { intros E. apply Hnamed. rewrite <- E. now apply in_map. }
  destruct (ac_gone Ha p0 Hp0 Hne) as [H|[H1 H2]].
  - left. apply in_map_iff in H. destruct H as (q & E & Hq). exists q.
    split; [assumption|]. split; [assumption|].
    destruct (@state_link q Hq) as (p1 & Hp1 & E1 & E2 & _).
    assert (p1 = p0) by (apply (pid_inj procs0); auto; congruence).
    subst p1. auto.
  - right. rewrite ready_full in H1, H2. specialize (H2 eq_refl). split; [assumption|].
    destruct (@served_in (pid p0) (s_gantt st)) as (x & Hx & Ex); [lia|].
    destruct (proj1 (Forall_forall _ _) (tm_gantt Ht) x Hx) as [E|(p1 & Hp1 & E1 & Harr)];
      [congruence|].
    assert (p1 = p0) by (apply (pid_inj procs0); auto; congruence).
    subst p1.
    destruct (inv_chain Hi) as [Hc He]. unfold open_start in He.
    rewrite (inv_cur Hi eq_refl) in He.
    pose proof (proj1 (Forall_forall _ _) (contiguous_before _ _ Hc) x Hx) as Hb.
    pose proof (proj1 (Forall_forall _ _) (contiguous_positive _ _ Hc) x Hx) as Hpos.
    simpl in Hb, Hpos. lia.
Qed.

Lemma state_split q : In q (procs_of st) ->
  In q (candidates (decision_of st)) \/ In q (not_arrived (decision_of st)).
Proof.
  intros Hq. apply (Permutation_in _ (procs_perm st)) in Hq. now apply in_app_or in Hq.
Qed.

Lemma idle_step_ok m :
  candidates (decision_of st) = [] ->
  py_min_arrival (not_arrived (decision_of st)) = Some m ->
  step_ok procs0 (s_gantt st) (idle, s_time st, arrival m).
Proof.
  intros Hc Hm. destruct (min_arrival_earliest _ Hm) as [Hin [_ Hmin]].
  assert (Hw : forall q, In q (procs_of st) -> s_time st < arrival q /\ arrival m <= arrival q).
  { intros q Hq. destruct (@state_split q Hq) as [H|H]; [rewrite Hc in H; contradiction|].
    split; [|apply (proj1 (Forall_forall _ _) Hmin q H)].
    simpl in H. now apply in_waiting in H. }
  assert (Hmst : In m (procs_of st)).
  { apply (Permutation_in _ (Permutation_sym (procs_perm st))). apply in_or_app. now right. }
  left. unfold actor, i_start, i_end. simpl. split; [reflexivity|]. split; [|split].
  - intros p Hp Harr. destruct (@state_or_gone p Hp) as [(q & Hq & _ & E)|[E _]]; [|lia].
    destruct (Hw q Hq). lia.
  - destruct (@state_link m Hmst) as (p0 & Hp0 & _ & E & _). exists p0.
    destruct (Hw m Hmst). split; [assumption|]. split; lia.
  - intros p Hp Hlt. destruct (@state_or_gone p Hp) as [(q & Hq & _ & E)|[_ E]]; [|lia].
    destruct (Hw q Hq). lia.
Qed.

Lemma run_step_ok p e :
  In p (ready_set (decision_of st)) ->
  step_ok procs0 (s_gantt st) (pid p, s_time st, e).
Proof.
  intros Hp.
  assert (Hpst : In p (procs_of st)).
  { apply (Permutation_in _ (Permutation_sym (procs_perm st))). apply in_or_app. left.
    now apply in_ready_candidates. }
  destruct (@state_link p Hpst) as (p0 & Hp0 & E1 & E2 & Hs).
  pose proof (proj1 (Forall_forall _ _) (ready_set_arrived Ht) p Hp) as Harr. simpl in Harr.
  right. unfold actor, i_start. simpl. split.
  - intros E. apply Hnamed. rewrite <- E, <- E1. now apply in_map.
  - exists p0. repeat split; auto. lia.
Qed.
End Ready.

(** *** The loops without preemption and Round Robin *)

Lemma np_account key guarded procs0 st st' :
  NoDup (map pid procs0) ->
  inv (np_body key guarded) procs0 false st -> timely procs0 st ->
  account procs0 true st /\ Forall (fun q => remaining q = burst q) (procs_of st) ->
  np_body key guarded st = Next st' ->
  account procs0 true st' /\ Forall (fun q => remaining q = burst q) (procs_of st').
Proof.
  intros Hnd Hi Ht [Ha Hf] Hb. pose proof (inv_cur Hi eq_refl) as Hcur.
  destruct (np_body_cases key guarded st Hcur)
    as [[_ Hb']|[(_ & Hc & m & _ & Hb')|(_ & p & ready2 & Hs & Hb')]];
    rewrite Hb' in Hb; [discriminate | |]; injection Hb as <-.
  - split; [now apply account_idle|]. now rewrite procs_of_idle_state.
  - assert (Hcand : candidates (decision_of st) = ready_set (decision_of st)).
    { unfold candidates. simpl. rewrite Hcur. simpl. now rewrite app_nil_r. }
    assert (Hp1 : Permutation (procs_of st) (p :: ready2 ++ not_arrived (decision_of st))).
    { rewrite procs_perm, Hcand.
      transitivity (py_sort key (ready_set (decision_of st)) ++ not_arrived (decision_of st)).
      - apply Permutation_app_tail. symmetry. apply py_sort_perm.
      - rewrite Hs. reflexivity. }
    assert (Hp2 : Permutation (procs_of (np_run_state st p ready2))
                    (ready2 ++ not_arrived (decision_of st))).
    { unfold procs_of, current_list, np_run_state. simpl. rewrite app_nil_r.
      apply Permutation_app_comm. }
    assert (Hin : In p (procs_of st)).
    { apply (Permutation_in _ (Permutation_sym Hp1)). now left. }
    pose proof (proj1 (Forall_forall _ _) Hf p Hin) as Hrem. simpl in Hrem.
    pose proof (proj1 (Forall_forall _ _) (inv_from Hi) p Hin) as (_ & _ & Hpos).
    split.
    + eapply account_step with (sel := p) (others := ready2 ++ not_arrived (decision_of st))
        (dropped := []) (r' := 0) (keep := false);
        [exact Hnd | exact Hi | exact Ht | exact Ha | rewrite app_nil_r; exact Hp1 | exact Hp2
        | | lia | reflexivity | intros c i H; discriminate | reflexivity | intros d []].
      intros k Hk. unfold full_gantt, closing, np_run_state. simpl. rewrite Hcur.
      rewrite !app_nil_r, served_app, served_one.
      destruct (String.eqb (pid p) k); lia.
    + apply Forall_forall. intros q Hq.
      apply (proj1 (Forall_forall _ _) Hf).
      apply (Permutation_in _ (Permutation_sym Hp1)). right.
      now apply (Permutation_in _ Hp2).
Qed.

Lemma np_decided key guarded procs0 st st' :
  NoDup (map pid procs0) -> ~ In idle (map pid procs0) ->
  inv (np_body key guarded) procs0 false st -> timely procs0 st ->
  account procs0 true st -> decided procs0 (s_gantt st) ->
  np_body key guarded st = Next st' -> decided procs0 (s_gantt st').
Proof.
  intros Hnd Hn Hi Ht Ha Hd Hb. pose proof (inv_cur Hi eq_refl) as Hcur.
  destruct (np_body_cases key guarded st Hcur)
    as [[_ Hb']|[(_ & Hc & m & Hm & Hb')|(_ & p & ready2 & Hs & Hb')]];
    rewrite Hb' in Hb; [discriminate | |]; injection Hb as <-.
  - unfold idle_state. simpl. apply decided_snoc; [assumption|].
    eapply idle_step_ok; eassumption.
  - unfold np_run_state. simpl. apply decided_snoc; [assumption|].
    eapply run_step_ok; try eassumption.
    apply (py_sort_in key). rewrite Hs. now left.
Qed.

Lemma rr_decided quantum procs0 st st' :
  NoDup (map pid procs0) -> ~ In idle (map pid procs0) ->
  inv (rr_body quantum) procs0 false st -> timely procs0 st ->
  account procs0 true st -> decided procs0 (s_gantt st) ->
  rr_body quantum st = Next st' -> decided procs0 (s_gantt st').
Proof.
  intros Hnd Hn Hi Ht Ha Hd Hb. pose proof (inv_cur Hi eq_refl) as Hcur.
  destruct (rr_body_cases quantum st Hcur)
    as [[_ Hb']|[(_ & Hc & m & Hm & Hb')|(_ & p & queue2 & Hr & Hb')]].
  - rewrite Hb' in Hb. discriminate.
  - rewrite Hb' in Hb. injection Hb as <-.
    unfold idle_state. simpl. apply decided_snoc; [assumption|].
    eapply idle_step_ok; eassumption.
  - assert (Hp : In p (ready_set (decision_of st))) by (rewrite Hr; now left).
    assert (Hin : In p (procs_of st)).
    { apply (Permutation_in _ (Permutation_sym (procs_perm st))). apply in_or_app. left.
      now apply in_ready_candidates. }
    pose proof (proj1 (Forall_forall _ _) (inv_from Hi) p Hin) as (_ & _ & Hrem).
    destruct Hb' as [[Hle _]|[_ Hb']]; [lia|].
    rewrite Hb' in Hb. injection Hb as <-.
    unfold rr_run_state. simpl. apply decided_snoc; [assumption|].
    eapply run_step_ok; eassumption.
Qed.

Lemma nonpreemptive_decided key guarded procs fuel g :
  well_formed procs -> ~ In idle (map pid procs) ->
  while_loop (np_body key guarded) fuel (init_state (copy_procs procs)) = Returned g ->
  decided (copy_procs procs) g.
Proof.
  intros Hwf Hn Hw. pose proof (copies_nodup Hwf) as Hnd.
  assert (Hn' : ~ In idle (map pid (copy_procs procs))).
  { unfold copy_procs. now rewrite copy_from_pid. }
  destruct (@extra_result (np_body key guarded) (copy_procs procs) false
              (fun st => np_spec (st := st))
              (fun st => timely (copy_procs procs) st
                         /\ (account (copy_procs procs) true st
                             /\ Forall (fun q => remaining q = burst q) (procs_of st))
                         /\ decided (copy_procs procs) (s_gantt st)))
    with (fuel := fuel) (st := init_state (copy_procs procs)) (g := g)
    as (st & _ & (_ & _ & Hd) & _ & _ & ->).
  - intros st st' Hi (Ht & Ha & Hd) Hb. split; [|split].
    + eapply np_timely; eassumption.
    + eapply np_account; eassumption.
    + eapply np_decided; try eassumption. apply Ha.
  - now apply inv_copies.
  - split; [apply timely_init|]. split; [split; [now apply account_copies|]|apply decided_nil].
    unfold procs_of, current_list. simpl. rewrite app_nil_r.
    eapply Forall_impl; [|apply copy_from_burst, well_formed_burst, Hwf].
    simpl. intros p H. apply H.
  - exact Hw.
  - exact Hd.
Qed.

Lemma round_robin_decided quantum procs fuel g :
  well_formed procs -> ~ In idle (map pid procs) -> 0 < quantum ->
  round_robin fuel procs quantum = Returned g ->
  decided (copy_procs procs) g.
Proof.
  intros Hwf Hn Hq Hw. unfold round_robin in Hw. pose proof (copies_nodup Hwf) as Hnd.
  assert (Hn' : ~ In idle (map pid (copy_procs procs))).
  { unfold copy_procs. now rewrite copy_from_pid. }
  destruct (@extra_result (rr_body quantum) (copy_procs procs) false
              (fun st => rr_spec Hq (st := st))
              (fun st => timely (copy_procs procs) st
                         /\ (account (copy_procs procs) true st
                             /\ Forall (slice_ok quantum) (s_gantt st))
                         /\ decided (copy_procs procs) (s_gantt st)))
    with (fuel := fuel) (st := init_state (copy_procs procs)) (g := g)
    as (st & _ & (_ & _ & Hd) & _ & _ & ->).
  - intros st st' Hi (Ht & Ha & Hd) Hb. split; [|split].
    + eapply rr_timely; eassumption.
    + eapply rr_account; eassumption.
    + eapply rr_decided; try eassumption. apply Ha.
  - now apply inv_copies.
  - split; [apply timely_init|].
    split; [split; [now apply account_copies | constructor] | apply decided_nil].
  - exact Hw.
  - exact Hd.
Qed.

(** *** From the copies to the input *)

Lemma copy_from_has procs : forall i p,
  In p procs ->
  exists q, In q (copy_from i procs)
            /\ pid q = pid p /\ arrival q = arrival p /\ burst q = burst p.
Proof.
  induction procs as [|a l IH]; intros i p Hp; [contradiction|].
  destruct Hp as [->|Hp].
  - eexists. split; [now left|]. simpl. auto.
  - destruct (IH (Datatypes.S i) p Hp) as (q & Hq & H). exists q. split; [now right | exact H].
Qed.

Lemma step_ok_copies procs g x : step_ok (copy_procs procs) g x -> step_ok procs g x.
Proof.
  intros [(Ha & H1 & (m & Hm & Hlt & He) & H3)|(Hne & q & Hq & E & Harr & Hs)].
  - left. split; [assumption|]. split; [|split].
    + intros p Hp Harr. destruct (@copy_from_has procs 0%nat p Hp) as (q & Hq & E1 & E2 & E3).
      rewrite <- E1, <- E3. apply H1; [exact Hq | lia].
    + destruct (copy_from_in _ _ _ Hm) as (p & Hp & _ & E2 & _). exists p.
      split; [assumption|]. lia.
    + intros p Hp Hlt'. destruct (@copy_from_has procs 0%nat p Hp) as (q & Hq & E1 & E2 & E3).
      rewrite <- E2. apply H3; [exact Hq | lia].
  - right. split; [assumption|].
    destruct (copy_from_in _ _ _ Hq) as (p & Hp & E1 & E2 & E3 & _). exists p.
    rewrite <- E1, <- E2, <- E3. auto.
Qed.

Lemma decided_copies procs g : decided (copy_procs procs) g -> decided procs g.
Proof. intros H g1 x g2 E. apply step_ok_copies. now apply (H g1 x g2). Qed.

(** *** fcfs *)

Lemma served_snoc who g a s e :
  served who (g ++ [(a, s, e)]) = served who g + (if String.eqb a who then e - s else 0).
Proof. now rewrite served_app, served_one. Qed.

Lemma fcfs_decided procs :
  well_formed procs -> ~ In idle (map pid procs) -> decided procs (fcfs procs).
Proof.
  intros Hwf Hn. unfold fcfs.
  assert (G : let st := fold_left fcfs_body (py_sort key_arrival procs) (0, []) in
              chain 0 (snd st) (fst st) /\ decided procs (snd st)
              /\ (forall q, In q (py_sort key_arrival procs) ->
                    arrival q <= fst st /\ served (pid q) (snd st) = burst q)
              /\ (forall k, ~ In k (map pid (py_sort key_arrival procs)) -> k <> idle ->
                    served k (snd st) = 0)).
  { apply (fold_left_prefix_ind fcfs_body
             (fun done st =>
                chain 0 (snd st) (fst st) /\ decided procs (snd st)
                /\ (forall q, In q done ->
                      arrival q <= fst st /\ served (pid q) (snd st) = burst q)
                /\ (forall k, ~ In k (map pid done) -> k <> idle -> served k (snd st) = 0))).
    - simpl. split; [apply chain_nil|]. split; [apply decided_nil|].
      split; [intros q []|reflexivity].
    - intros done p rest Hsort (Hch & Hd & Hdone & Hrest).
      destruct (fold_left fcfs_body done (0, [])) as [t g].
      simpl fst in Hch, Hd, Hdone, Hrest. simpl snd in Hch, Hd, Hdone, Hrest.
      assert (Hp : In p procs).
      { apply (py_sort_in key_arrival). rewrite Hsort. apply in_or_app. right. now left. }
      pose proof (proj1 (Forall_forall _ _) (well_formed_burst Hwf) p Hp) as Hburst.
      simpl in Hburst.
      assert (Hnamed : forall q, In q procs -> pid q <> idle).
      { intros q Hq E. apply Hn. rewrite <- E. now apply in_map. }
      assert (Hs : Forall (fun q => arrival p <= arrival q) rest).
      { apply (sorted_suffix done). rewrite <- Hsort. apply py_sort_arrival. }
      assert (Hall : forall q, In q procs -> In q done \/ q = p \/ In q rest).
      { intros q Hq. apply (py_sort_in key_arrival) in Hq. rewrite Hsort in Hq.
        apply in_app_or in Hq. destruct Hq as [Hq|[Hq|Hq]]; auto. }
      assert (Hsub : forall q, In q done -> In q procs).
      { intros q Hq. apply (py_sort_in key_arrival). rewrite Hsort. apply in_or_app. now left. }
      assert (Hnp : ~ In (pid p) (map pid done)).
      { assert (Hnd : NoDup (map pid (done ++ p :: rest))).
        { rewrite <- Hsort.
          apply (Permutation_NoDup (l := map pid procs)); [|apply Hwf].
          apply Permutation_map. symmetry. apply py_sort_perm. }
        rewrite map_app in Hnd. simpl in Hnd. apply NoDup_remove_2 in Hnd.
        intros H. apply Hnd. apply in_or_app. now left. }
      assert (Hmid : exists t1 g1,
                fcfs_body (t, g) p = (t1 + burst p, g1 ++ [(pid p, t1, t1 + burst p)])
                /\ chain 0 g1 t1 /\ decided procs g1 /\ t <= t1 /\ arrival p <= t1
                /\ (forall k, k <> idle -> served k g1 = served k g)).
      { unfold fcfs_body. destruct (Z.ltb_spec t (arrival p)) as [Hlt|Hge].
        - exists (arrival p), (g ++ [(idle, t, arrival p)]).
          split; [reflexivity|]. split; [now apply chain_snoc|]. split.
          + apply decided_snoc; [assumption|]. left.
            unfold actor, i_start, i_end. simpl. split; [reflexivity|]. split; [|split].
            * intros q Hq Hqa. destruct (Hall q Hq) as [H|[->|H]].
              -- destruct (Hdone q H) as [_ E]. lia.
              -- lia.
              -- pose proof (proj1 (Forall_forall _ _) Hs q H). simpl in *. lia.
            * exists p. auto.
            * intros q Hq Hqa. destruct (Hall q Hq) as [H|[->|H]].
              -- destruct (Hdone q H) as [E _]. lia.
              -- lia.
              -- apply (proj1 (Forall_forall _ _) Hs q H).
          + split; [lia|]. split; [lia|]. intros k Hk. rewrite served_snoc.
            destruct (String.eqb_spec idle k); [congruence | lia].
        - exists t, g. split; [reflexivity|]. repeat split; auto; try lia. apply Hch. apply Hch. }
      destruct Hmid as (t1 & g1 & Eb & Hch1 & Hd1 & Hle & Harr & Hsame).
      rewrite Eb. simpl fst. simpl snd.
      assert (H0 : served (pid p) g1 = 0).
      { rewrite Hsame by auto. apply Hrest; auto. }
      split; [apply chain_snoc; [assumption | lia]|]. split; [|split].
      + apply decided_snoc; [assumption|]. right. unfold actor, i_start. simpl.
        split; [auto|]. exists p. repeat split; auto. lia.
      + intros q Hq. apply in_app_or in Hq. rewrite served_snoc. destruct Hq as [Hq|[<-|[]]].
        * destruct (Hdone q Hq) as [E1 E2]. split; [lia|].
          rewrite Hsame by auto.
          destruct (String.eqb_spec (pid p) (pid q)) as [E|_]; [|lia].
          exfalso. apply Hnp. rewrite E. now apply in_map.
        * split; [lia|]. rewrite String.eqb_refl. lia.
      + intros k Hk Hne. rewrite served_snoc, Hsame by assumption.
        rewrite map_app in Hk.
        destruct (String.eqb_spec (pid p) k) as [E|_].
        * exfalso. apply Hk. apply in_or_app. right. simpl. auto.
        * rewrite Hrest; [lia | | assumption].
          intros H. apply Hk. apply in_or_app. now left. }
  apply G.
Qed.

(** *** The ready set at the start of every interval *)

Lemma decided_ready procs g :
  contiguous_from 0 g -> decided procs g ->
  forall x, In x g ->
    (actor x = idle
     <-> ready_at procs g (i_start x) = [] /\ to_come procs (i_start x) <> [])
    /\ (actor x = idle -> earliest_arrival (to_come procs (i_start x)) (i_end x))
    /\ (actor x <> idle ->
          exists p, In p (ready_at procs g (i_start x)) /\ pid p = actor x).
Proof.
  intros Hc Hd x Hx. destruct (in_split _ _ Hx) as (g1 & g2 & ->).
  pose proof (Hd g1 x g2 eq_refl) as Hstep.
  assert (Hs : forall who, served_before (i_start x) who (g1 ++ x :: g2) = served who g1).
  { intros who. now apply served_before_split with (t0 := 0). }
  assert (Hin : forall p, In p (ready_at procs (g1 ++ x :: g2) (i_start x))
                  <-> In p procs /\ arrival p <= i_start x /\ served (pid p) g1 < burst p).
  { intros p. unfold ready_at, unfinished_at.
    rewrite filter_In, andb_true_iff, Z.leb_le, Z.ltb_lt, Hs. tauto. }
  assert (Hw : forall p, In p (to_come procs (i_start x))
                 <-> In p procs /\ i_start x < arrival p).
  { intros p. unfold to_come, waiting. rewrite filter_In, negb_true_iff, Z.leb_gt. tauto. }
  assert (Hnil : forall l : list Proc, (forall q, ~ In q l) -> l = []).
  { intros [|a l] H; [reflexivity|]. exfalso. apply (H a). now left. }
  destruct Hstep as [(Ha & H1 & (m & Hm & Hlt & He) & H3)|(Hne & p & Hp & E & Harr & Hlt)].
  - split; [|split].
    + split; [intros _ | auto]. split.
      * apply Hnil. intros q Hq. apply Hin in Hq. destruct Hq as (Hq & Hqa & Hqs).
        specialize (H1 q Hq Hqa). lia.
      * intros En. assert (Hm' : In m (to_come procs (i_start x))) by (apply Hw; auto).
        rewrite En in Hm'. contradiction.
    + intros _. split.
      * exists m. split; [apply Hw; auto | exact He].
      * apply Forall_forall. intros q Hq. apply Hw in Hq. destruct Hq. now apply H3.
    + intros Hne. contradiction.
  - assert (Hpr : In p (ready_at procs (g1 ++ x :: g2) (i_start x))) by (apply Hin; auto).
    split; [|split].
    + split; [intros Ha; contradiction|]. intros [En _]. rewrite En in Hpr. contradiction.
    + intros Ha. contradiction.
    + intros _. exists p. auto.
Qed.

Lemma engine_decided algorithm quantum procs fuel g :
  In algorithm ["fcfs"; "sjf-np"; "rr"; "priority-np"]%string ->
  well_formed procs -> ~ In idle (map pid procs) ->
  (algorithm = "rr"%string -> 0 < quantum) ->
  select_algorithm fuel algorithm quantum procs = Returned g -> decided procs g.
Proof.
  intros Hk Hwf Hn Hq.
  destruct Hk as [<-|[<-|[<-|[<-|[]]]]];
    unfold select_algorithm; simpl String.eqb; cbv iota; intros H.
  - injection H as <-. now apply fcfs_decided.
  - apply decided_copies. unfold sjf_nonpreemptive in H.
    eapply nonpreemptive_decided; eassumption.
  - apply decided_copies. eapply round_robin_decided; try eassumption. now apply Hq.
  - apply decided_copies. unfold priority_nonpreemptive in H.
    eapply nonpreemptive_decided; eassumption.
Qed.

Lemma unguarded_keys algorithm :
  In algorithm ["fcfs"; "sjf-np"; "rr"; "priority-np"]%string -> In algorithm known_keys.
Proof. simpl. tauto. Qed.

(** C8 as stated fails on a well-formed input whose process is called
    "idle": [fcfs] returns [(idle, 0, 1)], an interval with actor "idle",
    while at its start the process is ready (it has arrived and has had
    nothing of its burst) and nobody is still to come; the condition "nothing
    ready and somebody still to come" holds at no decision point of the
    run. *)
Lemma C8_idle_named_process_runs :
  well_formed idle_named
  /\ select_algorithm 0 "fcfs" 2 idle_named = Returned [(idle, 0, 1)]
  /\ ready_at idle_named [(idle, 0, 1)] 0 = idle_named
  /\ to_come idle_named 0 = []
  /\ (forall d, decision_points "fcfs" 2 idle_named d -> ~ idle_condition d).
Proof.
  split; [|split; [|split; [|split]]].
  - split.
    + repeat constructor; simpl; try lia; discriminate.
    + repeat constructor; simpl; intuition.
  - reflexivity.
  - reflexivity.
  - reflexivity.
  - intros d (done & p & rest & Hsort & Hd) [Hc _].
    change (py_sort key_arrival idle_named) with idle_named in Hsort.
    unfold idle_named in Hsort.
    destruct done as [|a [|b done]]; simpl in Hsort; try discriminate.
    injection Hsort as <- <-. simpl in Hd. destruct Hd as [->|[Hlt _]]; [|lia].
    rewrite candidates_at in Hc. discriminate.
Qed.

(** C8, amended: under "fcfs", "sjf-np", "rr" (positive quantum) and
    "priority-np", on a well-formed input in which no process is called
    "idle", an interval of the returned timeline has actor "idle" exactly
    when, at its start, no process of the input is ready while at least one
    has not arrived; such an interval ends at the earliest arrival among those
    that have not arrived; and every other interval is a run of a process that
    is ready at its start, so the clock never advances otherwise.  Ready at
    [t] is read off the input and the timeline, not off the variables of the
    loop: arrived by [t], and given less than its burst before [t]. *)
Theorem C8_idle_iff_nothing_ready algorithm quantum procs :
  In algorithm ["fcfs"; "sjf-np"; "rr"; "priority-np"]%string ->
  well_formed procs ->
  ~ In idle (map pid procs) ->
  (algorithm = "rr"%string -> 0 < quantum) ->
  exists fuel g,
    select_algorithm fuel algorithm quantum procs = Returned g
    /\ forall x, In x g ->
         (actor x = idle
          <-> ready_at procs g (i_start x) = [] /\ to_come procs (i_start x) <> [])
         /\ (actor x = idle -> earliest_arrival (to_come procs (i_start x)) (i_end x))
         /\ (actor x <> idle ->
               exists p, In p (ready_at procs g (i_start x)) /\ pid p = actor x).
Proof.
  intros Hk Hwf Hidle Hq.
  destruct (engine_ok (unguarded_keys Hk) Hwf Hq) as (g & fuel & H & Hc & _).
  exists fuel, g. split; [exact H|].
  apply decided_ready; [exact Hc|]. eapply engine_decided; eassumption.
Qed.

Lemma C8_idle_iff_nothing_ready_witness :
  select_algorithm 5 "sjf-np" 2 gap_scenario
  = Returned [(idle, 0, 2); ("P1"%string, 2, 5); (idle, 5, 10); ("P2"%string, 10, 11)]
  /\ exists fuel g,
       select_algorithm fuel "sjf-np" 2 gap_scenario = Returned g
       /\ forall x, In x g ->
            (actor x = idle
             <-> ready_at gap_scenario g (i_start x) = []
                 /\ to_come gap_scenario (i_start x) <> [])
            /\ (actor x = idle ->
                  earliest_arrival (to_come gap_scenario (i_start x)) (i_end x))
            /\ (actor x <> idle ->
                  exists p, In p (ready_at gap_scenario g (i_start x)) /\ pid p = actor x).
Proof.
  split; [reflexivity|].
  apply C8_idle_iff_nothing_ready.
  - simpl. tauto.
  - split.
    + repeat constructor; simpl; try lia; discriminate.
    + repeat constructor; simpl; intuition discriminate.
  - simpl. intuition discriminate.
  - intros _. reflexivity.
Defined.

(** X16. The preemptive policies can leave the CPU idle while a process is
    ready.  On P1 (arrival 0, burst 8, priority 2), P2 (1, 4, 1) and
    P3 (10, 1, 3), a well-formed input without a process called "idle",
    "sjf-p" and "priority-p" both return
    [(P1,0,1), (P2,1,5), (idle,5,10), (P3,10,11)]: at 5, where the "idle"
    interval starts, P1 has arrived and has had 1 of its 8 units, so it is
    ready there, and it is given nothing more. *)
Theorem X16_preemptive_idle_while_ready :
  well_formed idle_drop_scenario
  /\ select_algorithm 20 "sjf-p" 2 idle_drop_scenario = Returned idle_drop_timeline
  /\ select_algorithm 20 "priority-p" 2 idle_drop_scenario = Returned idle_drop_timeline
  /\ In (idle, 5, 10) idle_drop_timeline
  /\ map pid (ready_at idle_drop_scenario idle_drop_timeline 5) = ["P1"%string]
  /\ served_before 5 "P1" idle_drop_timeline = 1
  /\ served "P1" idle_drop_timeline = 1.
Proof.
  split; [|repeat split; try reflexivity].
  - split.
    + repeat constructor; simpl; try lia; discriminate.
    + repeat constructor; simpl; intuition discriminate.
  - right. right. now left.
Qed.

(** ** Idle intervals and runs under the preemptive policies *)

Lemma moves_nil procs : moves procs [].
Proof. intros g1 x g2 H. destruct g1; discriminate. Qed.

Lemma moves_snoc procs g x :
  moves procs g -> move_ok procs g x -> moves procs (g ++ [x]).
Proof.
  intros Hd Hx g1 y g2 E.
  destruct (@exists_last _ (y :: g2)) as (l & a & El); [discriminate|].
  rewrite El, app_assoc in E. apply app_inj_tail in E. destruct E as [Eg Ex].
  destruct l as [|y' l]; simpl in El.
  - injection El as -> _. rewrite app_nil_r in Eg. now subst.
  - injection El as -> _. apply (Hd g1 y' l). exact Eg.
Qed.

Section Preempted.
Variable procs0 : list Proc.
Variable key : Proc -> list Z.
Variable st : loop_state.
Hypothesis Hnd : NoDup (map pid procs0).
Hypothesis Hnamed : ~ In idle (map pid procs0).
Hypothesis Hi : inv (p_body key) procs0 true st.
Hypothesis Ht : timely procs0 st.
Hypothesis Ha : account procs0 false st.

(** A process that is ready or holds the CPU can run at the clock. *)
Lemma candidate_ready q :
  In q (candidates (decision_of st)) ->
  run_ready procs0 (full_gantt st) (pid q) (s_time st).
Proof.
  intros Hq.
  assert (Hst : In q (procs_of st)).
  { apply (Permutation_in _ (Permutation_sym (procs_perm st))). apply in_or_app. now left. }
  destruct (proj1 (Forall_forall _ _) (tm_from Ht) q Hst) as (p0 & Hp0 & E1 & E2 & E3).
  destruct (proj1 (Forall_forall _ _) (ac_state Ha) q Hst) as [_ Hs].
  destruct (proj1 (Forall_forall _ _) (inv_from Hi) q Hst) as (_ & _ & Hr).
  assert (Hne : pid q <> idle).
  { intros E. apply Hnamed. rewrite <- E, E1. now apply in_map. }
  assert (Harr : arrival q <= s_time st).
  { rewrite candidates_eq in Hq. apply in_app_or in Hq. destruct Hq as [Hq|Hq].
    - apply (proj1 (Forall_forall _ _) (ready_set_arrived Ht) q Hq).
    - unfold current_list in Hq. destruct (s_current st) as [[c i]|] eqn:Hcur; [|contradiction].
      destruct Hq as [<-|[]]. pose proof (tm_open Ht Hcur).
      destruct (inv_open Hi Hcur) as [Hlt _]. lia. }
  split; [exact Hne|]. exists p0. split; [assumption|]. split; [auto|].
  rewrite <- E1, <- E2, <- E3, Hs by assumption. lia.
Qed.

(** With nothing ready or running, the jump goes to the earliest arrival
    among the processes of the input that have not arrived. *)
Lemma preempted_jump m :
  candidates (decision_of st) = [] ->
  py_min_arrival (not_arrived (decision_of st)) = Some m ->
  jump_ok procs0 (idle, s_time st, arrival m).
Proof.
  intros Hc Hm. destruct (min_arrival_earliest _ Hm) as [Hin [_ Hmin]].
  destruct (candidates_nil st Hc) as (_ & Hcur & _).
  assert (Hfull : full_gantt st = s_gantt st).
  { unfold full_gantt, closing. rewrite Hcur. apply app_nil_r. }
  assert (Hw : forall q, In q (procs_of st) -> s_time st < arrival q /\ arrival m <= arrival q).
  { intros q Hq. apply (Permutation_in _ (procs_perm st)) in Hq. rewrite Hc in Hq.
    simpl in Hq. split; [|apply (proj1 (Forall_forall _ _) Hmin q Hq)].
    now apply in_waiting in Hq. }
  assert (Hmst : In m (procs_of st)).
  { apply (Permutation_in _ (Permutation_sym (procs_perm st))). apply in_or_app. now right. }
  unfold jump_ok, actor, i_start, i_end. simpl. split; [reflexivity|]. split.
  - destruct (proj1 (Forall_forall _ _) (tm_from Ht) m Hmst) as (p0 & Hp0 & _ & E & _).
    exists p0. destruct (Hw m Hmst). split; [assumption|]. split; lia.
  - intros p Hp Hlt.
    assert (Hne : pid p <> idle).
    { intros E. apply Hnamed. rewrite <- E. now apply in_map. }
    destruct (ac_gone Ha p Hp Hne) as [H|[H _]].
    + apply in_map_iff in H. destruct H as (q & E & Hq).
      destruct (proj1 (Forall_forall _ _) (tm_from Ht) q Hq) as (p1 & Hp1 & E1 & E2 & _).
      assert (p1 = p) by (apply (pid_inj procs0); auto; congruence).
      subst p1. destruct (Hw q Hq). lia.
    + rewrite Hfull in H.
      destruct (@served_in (pid p) (s_gantt st)) as (x & Hx & Ex); [lia|].
      destruct (proj1 (Forall_forall _ _) (tm_gantt Ht) x Hx) as [E|(p1 & Hp1 & E1 & Harr)];
        [congruence|].
      assert (p1 = p) by (apply (pid_inj procs0); auto; congruence).
      subst p1.
      destruct (inv_chain Hi) as [Hch He]. unfold open_start in He. rewrite Hcur in He.
      pose proof (proj1 (Forall_forall _ _) (contiguous_before _ _ Hch) x Hx) as Hb.
      pose proof (proj1 (Forall_forall _ _) (contiguous_positive _ _ Hch) x Hx) as Hpos.
      simpl in Hb, Hpos. lia.
Qed.

Lemma tick_sound gantt1 ready2 cur istart :
  moves procs0 gantt1 -> run_ready procs0 gantt1 (pid cur) istart ->
  sound procs0 (tick_state st gantt1 ready2 cur istart).
Proof.
  intros Hm Hr. destruct (Z.eq_dec (remaining cur - 1) 0) as [E|E].
  - rewrite tick_state_done by assumption. constructor; simpl.
    + apply moves_snoc; [assumption|]. right. exact Hr.
    + intros; discriminate.
  - rewrite tick_state_going by assumption. constructor; simpl.
    + assumption.
    + intros c i H. injection H as <- <-. exact Hr.
Qed.

Lemma p_sound st' :
  sound procs0 st -> p_body key st = Next st' -> sound procs0 st'.
Proof.
  intros Hs Hb.
  destruct (p_body_cases key st (inv_pids Hi) (inv_oids Hi))
    as [[_ Hb']|[(_ & Hc & m & Hm & Hb')
       |[(_ & chosen & l1 & l2 & Hr & Hb')|(_ & c & i & Hcur & Hb')]]];
    rewrite Hb' in Hb; [discriminate | | |]; injection Hb as <-.
  - destruct (candidates_nil st Hc) as (_ & Hcur & _). constructor.
    + unfold idle_state. simpl. apply moves_snoc; [apply Hs|]. left.
      now apply preempted_jump.
    + unfold idle_state. simpl. rewrite Hcur. intros; discriminate.
  - apply tick_sound.
    + unfold closing. destruct (s_current st) as [[c i]|] eqn:Hcur.
      * apply moves_snoc; [apply Hs|]. right. apply (sd_open Hs Hcur).
      * rewrite app_nil_r. apply Hs.
    + fold (full_gantt st). apply candidate_ready.
      rewrite candidates_eq, Hr. apply in_or_app. left. apply in_or_app. right. now left.
  - apply tick_sound; [apply Hs | apply (sd_open Hs Hcur)].
Qed.
End Preempted.

Lemma preemptive_moves key procs fuel g :
  well_formed procs -> ~ In idle (map pid procs) ->
  while_loop (p_body key) fuel (init_state (copy_procs procs)) = Returned g ->
  moves (copy_procs procs) g.
Proof.
  intros Hwf Hn Hw. pose proof (copies_nodup Hwf) as Hnd.
  assert (Hn' : ~ In idle (map pid (copy_procs procs))).
  { unfold copy_procs. now rewrite copy_from_pid. }
  destruct (@extra_result (p_body key) (copy_procs procs) true
              (fun st => p_spec (st := st))
              (fun st => timely (copy_procs procs) st
                         /\ account (copy_procs procs) false st
                         /\ sound (copy_procs procs) st))
    with (fuel := fuel) (st := init_state (copy_procs procs)) (g := g)
    as (st & _ & (_ & _ & Hs) & _ & _ & ->).
  - intros st st' Hi (Ht & Ha & Hs) Hb. split; [|split].
    + eapply p_timely; eassumption.
    + eapply p_account; eassumption.
    + eapply p_sound; eassumption.
  - now apply inv_copies.
  - split; [apply timely_init|]. split; [now apply account_copies|].
    constructor; simpl; [apply moves_nil | intros; discriminate].
  - exact Hw.
  - apply Hs.
Qed.

Lemma move_ok_copies procs g x : move_ok (copy_procs procs) g x -> move_ok procs g x.
Proof.
  intros [(Ha & (m & Hm & Hlt & He) & H3)|(Hne & q & Hq & E & Harr & Hs)].
  - left. split; [assumption|]. split.
    + destruct (copy_from_in _ _ _ Hm) as (p & Hp & _ & E2 & _). exists p.
      split; [assumption|]. lia.
    + intros p Hp Hlt'. destruct (@copy_from_has procs 0%nat p Hp) as (q & Hq & E1 & E2 & E3).
      rewrite <- E2. apply H3; [exact Hq | lia].
  - right. split; [assumption|].
    destruct (copy_from_in _ _ _ Hq) as (p & Hp & E1 & E2 & E3 & _). exists p.
    rewrite <- E1, <- E2, <- E3. auto.
Qed.

Lemma moves_ready procs g :
  contiguous_from 0 g -> moves procs g ->
  forall x, In x g ->
    (actor x = idle ->
       to_come procs (i_start x) <> []
       /\ earliest_arrival (to_come procs (i_start x)) (i_end x))
    /\ (actor x <> idle ->
          exists p, In p (ready_at procs g (i_start x)) /\ pid p = actor x)
    /\ (ready_at procs g (i_start x) = [] -> actor x = idle).
Proof.
  intros Hc Hd x Hx. destruct (in_split _ _ Hx) as (g1 & g2 & ->).
  pose proof (Hd g1 x g2 eq_refl) as Hstep.
  assert (Hs : forall who, served_before (i_start x) who (g1 ++ x :: g2) = served who g1).
  { intros who. now apply served_before_split with (t0 := 0). }
  assert (Hin : forall p, In p (ready_at procs (g1 ++ x :: g2) (i_start x))
                  <-> In p procs /\ arrival p <= i_start x /\ served (pid p) g1 < burst p).
  { intros p. unfold ready_at, unfinished_at.
    rewrite filter_In, andb_true_iff, Z.leb_le, Z.ltb_lt, Hs. tauto. }
  assert (Hw : forall p, In p (to_come procs (i_start x))
                 <-> In p procs /\ i_start x < arrival p).
  { intros p. unfold to_come, waiting. rewrite filter_In, negb_true_iff, Z.leb_gt. tauto. }
  destruct Hstep as [(Ha & (m & Hm & Hlt & He) & H3)|(Hne & p & Hp & E & Harr & Hlt)].
  - split; [|split; [intros Hne; contradiction | auto]].
    intros _. assert (Hm' : In m (to_come procs (i_start x))) by (apply Hw; auto).
    split; [intros En; rewrite En in Hm'; contradiction|]. split.
    + exists m. auto.
    + apply Forall_forall. intros q Hq. apply Hw in Hq. destruct Hq. now apply H3.
  - assert (Hpr : In p (ready_at procs (g1 ++ x :: g2) (i_start x))) by (apply Hin; auto).
    split; [intros Ha; contradiction|]. split.
    + intros _. exists p. auto.
    + intros En. rewrite En in Hpr. contradiction.
Qed.

(** X17. What does hold of the idle intervals under the preemptive
    policies.  Under "sjf-p" and "priority-p", on a well-formed input in
    which no process is called "idle", an interval with actor "idle" starts
    while some process has not arrived and ends at the earliest arrival
    among those; every other interval is a run of a process that is ready at
    its start (arrived, and given less than its burst before); so an interval
    at whose start no process is ready is an "idle" one.  The converse is
    left out: these policies do idle while a process is ready. *)
Theorem X17_preemptive_idle_and_runs algorithm quantum procs :
  In algorithm ["sjf-p"; "priority-p"]%string ->
  well_formed procs -> ~ In idle (map pid procs) ->
  exists fuel g,
    select_algorithm fuel algorithm quantum procs = Returned g
    /\ forall x, In x g ->
         (actor x = idle ->
            to_come procs (i_start x) <> []
            /\ earliest_arrival (to_come procs (i_start x)) (i_end x))
         /\ (actor x <> idle ->
               exists p, In p (ready_at procs g (i_start x)) /\ pid p = actor x)
         /\ (ready_at procs g (i_start x) = [] -> actor x = idle).
Proof.
  intros Hk Hwf Hn.
  assert (Hkk : In algorithm known_keys) by (simpl in *; tauto).
  assert (Hq : algorithm = "rr"%string -> 0 < quantum).
  { intros E. subst. simpl in Hk. intuition discriminate. }
  destruct (engine_ok Hkk Hwf Hq) as (g & fuel & H & Hc & _).
  exists fuel, g. split; [exact H|]. apply moves_ready; [exact Hc|].
  intros g1 x g2 E. apply move_ok_copies. revert g1 x g2 E.
  change (moves (copy_procs procs) g).
  destruct Hk as [<-|[<-|[]]]; unfold select_algorithm in H; simpl String.eqb in H;
    cbv iota in H.
  - unfold sjf_preemptive in H. eapply preemptive_moves; eassumption.
  - unfold priority_preemptive in H. eapply preemptive_moves; eassumption.
Qed.

Lemma X17_preemptive_idle_and_runs_witness :
  select_algorithm 20 "sjf-p" 2 idle_drop_scenario = Returned idle_drop_timeline
  /\ exists fuel g,
       select_algorithm fuel "sjf-p" 2 idle_drop_scenario = Returned g
       /\ forall x, In x g ->
            (actor x = idle ->
               to_come idle_drop_scenario (i_start x) <> []
               /\ earliest_arrival (to_come idle_drop_scenario (i_start x)) (i_end x))
            /\ (actor x <> idle ->
                  exists p, In p (ready_at idle_drop_scenario g (i_start x))
                            /\ pid p = actor x)
            /\ (ready_at idle_drop_scenario g (i_start x) = [] -> actor x = idle).
Proof.
  split; [reflexivity|].
  apply X17_preemptive_idle_and_runs.
  - simpl. tauto.
  - split.
    + repeat constructor; simpl; try lia; discriminate.
    + repeat constructor; simpl; intuition discriminate.
  - simpl. intuition discriminate.
Defined.

(** ** The averages are floats *)

(** X18. The averages are Python floats.  The quotient of two ints is
    rounded once, to the nearest float and to the even one on a tie:
    4/3 is 1.3333333333333333, (2^53 + 1)/1 is 2^53, -7/2 is -3.5, and
    (2^1024 - 2^970 - 1)/1 is the largest float; from 2^1024 - 2^970 on, and
    so for 10^400, the division raises [OverflowError].  Hence "fcfs" on
    P1 (0, 1), P2 (0, 1), P3 (2, 1) gives the average turnaround time
    1.3333333333333333; the helper raises on the timeline [(P1, 0, 10^400)];
    and [simulate] raises under "fcfs" on a process of burst 10^400. *)
Theorem X18_averages_are_floats :
  py_truediv 4 3 = Returned (S754_finite false 6004799503160661 (-52))
  /\ py_truediv (2 ^ 53 + 1) 1 = Returned (S754_finite false 4503599627370496 1)
  /\ py_truediv (-7) 2 = Returned (S754_finite true 7881299347898368 (-51))
  /\ py_truediv (2 ^ 1024 - 2 ^ 970 - 1) 1 = Returned (S754_finite false 9007199254740991 971)
  /\ py_truediv (2 ^ 1024 - 2 ^ 970) 1 = Raised OverflowError
  /\ py_truediv (10 ^ 400) 1 = Raised OverflowError
  /\ (exists g rows avgs,
        simulate 0 "fcfs" 2 [mkDesc "P1" 0 1 0; mkDesc "P2" 0 1 0; mkDesc "P3" 2 1 0]
        = Returned (mkResult g rows avgs)
        /\ values_of r_TAT (completed_rows rows) = [1; 2; 1]
        /\ avg_tat avgs = Some (S754_finite false 6004799503160661 (-52)))
  /\ compute_metrics_from_gantt [mkDesc "P1" 0 1 0] [("P1"%string, 0, 10 ^ 400)]
     = Raised OverflowError
  /\ simulate 0 "fcfs" 2 [mkDesc "P1" 0 (10 ^ 400) 0] = Raised OverflowError.
Proof.
  repeat split; try (vm_compute; reflexivity).
  eexists _, _, _. split; [vm_compute; reflexivity|]. split; reflexivity.
Qed.
